(** * Verification of the resume-text extraction engine (src/lib/parser.ts)

    The parser is a pipeline of pure string functions built on ECMAScript
    strings and regular expressions.  The embedding has three layers:

    - [JSString]: strings as sequences of UTF-16 code units, with the
      [String.prototype] methods the parser calls;
    - [RegExp]: a backtracking matcher in continuation-passing style, written
      after the pattern semantics of ECMA-262 (section 22.2.2), together with
      [exec], [match], [replace], [split] and [test];
    - [Parser]: the functions of parser.ts, one definition per function. *)

From Stdlib Require Import Strings.String Strings.Ascii.
From Stdlib Require Import List NArith ZArith QArith Qminmax Qround Bool Arith Lia Lqa.
From Stdlib Require Import Sorting.Permutation Sorting.Sorted.
Import ListNotations.

Set Implicit Arguments.

(** ** Strings *)

Module JSString.

(** A code unit of a JavaScript string. *)
Definition char := N.

(** A JavaScript string: a finite sequence of UTF-16 code units. *)
Definition jsstring := list char.

Open Scope N_scope.

(** Literals are written as Rocq strings; every literal of parser.ts outside
    the Basic Latin block is written with its code unit. *)
Fixpoint str (s : string) : jsstring :=
  match s with
  | EmptyString => []
  | String a s' => N_of_ascii a :: str s'
  end.

Definition LF : char := 10.
Definition CR : char := 13.
Definition SP : char := 32.
Definition BULLET : char := 8226.   (* • *)

Definition eqc (a b : char) : bool := N.eqb a b.

Fixpoint eqs (a b : jsstring) : bool :=
  match a, b with
  | [], [] => true
  | x :: a', y :: b' => eqc x y && eqs a' b'
  | _, _ => false
  end.

Definition inRange (lo hi c : char) : bool := (lo <=? c) && (c <=? hi).

(** WhiteSpace and LineTerminator code units (ECMA-262 12.2, 12.3): the set
    removed by [trim] and matched by the class escape \s. *)
Definition isSpace (c : char) : bool :=
  inRange 9 13 c || eqc c 32 || eqc c 160 || eqc c 5760 ||
  inRange 8192 8202 c || eqc c 8232 || eqc c 8233 || eqc c 8239 ||
  eqc c 8287 || eqc c 12288 || eqc c 65279.

(** The class escape \d. *)
Definition isDigit (c : char) : bool := inRange 48 57 c.

Definition isUpper (c : char) : bool := inRange 65 90 c.
Definition isLower (c : char) : bool := inRange 97 122 c.

(** Case mapping of one code unit.  The case pairs of the Basic Latin block
    are modelled; a code unit outside it is its own image.  This is the
    case folding of a pattern with the i flag and without the u flag on
    Basic Latin letters, and [String.prototype.toLowerCase] on a text of
    Basic Latin code units (below U+0080).  [String.prototype.toLowerCase]
    also maps letters outside that block, which is not modelled: a property
    that compares whole lower-cased texts is stated for Basic Latin texts. *)
Definition lowerChar (c : char) : char := if isUpper c then c + 32 else c.
Definition upperChar (c : char) : char := if isLower c then c - 32 else c.

(** [String.prototype.toLowerCase], on Basic Latin texts. *)
Definition toLowerCase (s : jsstring) : jsstring := map lowerChar s.

Fixpoint dropWhile (p : char -> bool) (s : jsstring) : jsstring :=
  match s with
  | [] => []
  | c :: s' => if p c then dropWhile p s' else s
  end.

Fixpoint takeWhile (p : char -> bool) (s : jsstring) : jsstring :=
  match s with
  | [] => []
  | c :: s' => if p c then c :: takeWhile p s' else []
  end.

Definition trimStart (s : jsstring) : jsstring := dropWhile isSpace s.
Definition trimEnd (s : jsstring) : jsstring := rev (dropWhile isSpace (rev s)).

(** [String.prototype.trim]. *)
Definition trim (s : jsstring) : jsstring := trimEnd (trimStart s).

Fixpoint startsWith (s p : jsstring) : bool :=
  match p, s with
  | [], _ => true
  | x :: p', y :: s' => eqc x y && startsWith s' p'
  | _ :: _, [] => false
  end.

(** [String.prototype.includes]: [p] occurs in [s] as a substring. *)
Fixpoint includes (s p : jsstring) : bool :=
  startsWith s p ||
  match s with
  | [] => false
  | _ :: s' => includes s' p
  end.

(** [String.prototype.split] with a separator of one code unit; [cur] holds
    the piece being read, in reverse.  The result is never empty. *)
Fixpoint splitAcc (sep : char) (cur : jsstring) (s : jsstring) : list jsstring :=
  match s with
  | [] => [rev cur]
  | c :: s' => if eqc c sep then rev cur :: splitAcc sep [] s'
               else splitAcc sep (c :: cur) s'
  end.

Definition splitOn (sep : char) (s : jsstring) : list jsstring := splitAcc sep [] s.

(** Membership in a list of strings. *)
Fixpoint has (x : jsstring) (l : list jsstring) : bool :=
  match l with
  | [] => false
  | y :: l' => eqs x y || has x l'
  end.

(** [new Set(array)] followed by iteration: a Set keeps its values in
    insertion order and [add] ignores a value that is already present. *)
Definition setAdd (acc : list jsstring) (x : jsstring) : list jsstring :=
  if has x acc then acc else acc ++ [x].

Definition newSet (l : list jsstring) : list jsstring := fold_left setAdd l [].

Close Scope N_scope.

End JSString.

(** ** Regular expressions *)

Module RegExp.
Import JSString.

(** *** Patterns *)

(** A set of code units, as a class atom or class escape denotes it. *)
Inductive cset : Type :=
| One (c : char)
| Range (lo hi : char)
| Digit                       (* \d *)
| NonDigit                    (* \D *)
| Space                       (* \s *)
| NonSpace                    (* \S *)
| Union (a b : cset).

Fixpoint mem (s : cset) (c : char) : bool :=
  match s with
  | One x => eqc c x
  | Range lo hi => inRange lo hi c
  | Digit => isDigit c
  | NonDigit => negb (isDigit c)
  | Space => isSpace c
  | NonSpace => negb (isSpace c)
  | Union a b => mem a c || mem b c
  end.

(** A character class [...] or, with [invert], [^...]; a pattern character
    is the class of that one character. *)
Record cclass : Type := Class { invert : bool; members : cset }.

(** Patterns.  Unbounded quantifiers of parser.ts apply to character classes
    only ([Many]); the quantifiers ? and {n,m} apply to any atom ([Rep]).  No
    quantified atom of parser.ts holds a capturing group, so the reset of the
    atom's captures at each iteration of a quantifier has nothing to do and
    is left out. *)
Inductive regex : Type :=
| Empty
| Chr (cl : cclass)
| Seq (a b : regex)
| Alt (a b : regex)
| Group (n : nat) (a : regex)                     (* ( a ), the n-th group *)
| Rep (a : regex) (lo extra : nat) (greedy : bool) (* a{lo,lo+extra} *)
| Many (cl : cclass) (lo : nat) (greedy : bool)    (* cl{lo,} *)
| Bol                                              (* ^ *)
| Eol                                              (* $ *)
| LookBehind (cl : cclass).                        (* (?<=cl) *)

(** A regular expression object: its pattern and its i flag.  The g flag
    selects between [matchGlobal]/[replaceAll] and [matchFirst]/[replaceFirst]
    at the call. *)
Record t : Type := RegExp { pattern : regex; ignoreCase : bool }.

(** *** Matching *)

(** CharacterSetMatcher.  Under the i flag a code unit matches when some
    member of the set has the same canonical form; Canonicalize is upper-case
    mapping, so the candidates are the two cases of the code unit. *)
Definition csetMatches (i : bool) (s : cset) (c : char) : bool :=
  if i then mem s (upperChar c) || mem s (lowerChar c) else mem s c.

Definition classMatches (i : bool) (cl : cclass) (c : char) : bool :=
  xorb (invert cl) (csetMatches i (members cl) c).

(** The state of a match: the input before the current position (in
    reverse), the input after it, and the captures made so far. *)
Record state : Type :=
  State { before : jsstring; after : jsstring; captures : list (nat * jsstring) }.

Fixpoint lookup (n : nat) (caps : list (nat * jsstring)) : option jsstring :=
  match caps with
  | [] => None
  | (k, v) :: caps' => if Nat.eqb k n then Some v else lookup n caps'
  end.

Definition setCapture (n : nat) (v : jsstring) (st : state) : state :=
  State (before st) (after st) ((n, v) :: captures st).

(** The input read between two states of one match. *)
Definition consumed (st st1 : state) : jsstring :=
  firstn (length (after st) - length (after st1)) (after st).

Definition cont : Type := state -> option state.
Definition matcher : Type := state -> cont -> option state.

(** RepeatMatcher, the mandatory iterations. *)
Fixpoint repMin (ma : matcher) (lo : nat) (tail : matcher) (st : state) (k : cont)
  {struct lo} : option state :=
  match lo with
  | O => tail st k
  | S n => ma st (fun st1 => repMin ma n tail st1 k)
  end.

(** RepeatMatcher, the optional iterations: an iteration that reads nothing
    fails; a greedy quantifier tries one more iteration first, a lazy one
    tries the continuation first. *)
Fixpoint repOpt (ma : matcher) (greedy : bool) (extra : nat) (st : state) (k : cont)
  {struct extra} : option state :=
  match extra with
  | O => k st
  | S e =>
      if greedy then
        match ma st (fun st1 =>
                 if Nat.eqb (length (after st1)) (length (after st)) then None
                 else repOpt ma greedy e st1 k) with
        | Some r => Some r
        | None => k st
        end
      else
        match k st with
        | Some r => Some r
        | None => ma st (fun st1 =>
                 if Nat.eqb (length (after st1)) (length (after st)) then None
                 else repOpt ma greedy e st1 k)
        end
  end.

(** RepeatMatcher for a class with no upper bound, by recursion on the input. *)
Fixpoint many (i : bool) (cl : cclass) (greedy : bool) (lo : nat)
  (pre post : jsstring) (caps : list (nat * jsstring)) (k : cont)
  {struct post} : option state :=
  match lo with
  | S n =>
      match post with
      | c :: post' =>
          if classMatches i cl c then many i cl greedy n (c :: pre) post' caps k
          else None
      | [] => None
      end
  | O =>
      if greedy then
        match (match post with
               | c :: post' =>
                   if classMatches i cl c then many i cl greedy 0 (c :: pre) post' caps k
                   else None
               | [] => None
               end) with
        | Some r => Some r
        | None => k (State pre post caps)
        end
      else
        match k (State pre post caps) with
        | Some r => Some r
        | None =>
            match post with
            | c :: post' =>
                if classMatches i cl c then many i cl greedy 0 (c :: pre) post' caps k
                else None
            | [] => None
            end
        end
  end.

(** The matcher of a pattern (ECMA-262 22.2.2): [m i r st k] matches [r] at
    [st] and hands every way of doing so, in priority order, to the
    continuation [k] until one succeeds. *)
Fixpoint m (i : bool) (r : regex) (st : state) (k : cont) {struct r} : option state :=
  match r with
  | Empty => k st
  | Chr cl =>
      match after st with
      | c :: post =>
          if classMatches i cl c then k (State (c :: before st) post (captures st))
          else None
      | [] => None
      end
  | Seq a b => m i a st (fun st1 => m i b st1 k)
  | Alt a b =>
      match m i a st k with
      | Some r => Some r
      | None => m i b st k
      end
  | Group n a => m i a st (fun st1 => k (setCapture n (consumed st st1) st1))
  | Rep a lo extra g => repMin (m i a) lo (repOpt (m i a) g extra) st k
  | Many cl lo g => many i cl g lo (before st) (after st) (captures st) k
  | Bol => match before st with [] => k st | _ :: _ => None end
  | Eol => match after st with [] => k st | _ :: _ => None end
  | LookBehind cl =>
      match before st with
      | c :: _ => if classMatches i cl c then k st else None
      | [] => None
      end
  end.

(** A successful match: the text before it (in reverse), the matched text,
    the text after it, and the captures. *)
Record found : Type :=
  Found { prefix : jsstring; whole : jsstring; suffix : jsstring;
          groups : list (nat * jsstring) }.

(** The element [n] of a match array, for [n >= 1]: the text of group [n], or
    undefined ([None]) when the group took no part in the match. *)
Definition group (n : nat) (f : found) : option jsstring := lookup n (groups f).

(** One attempt at the current position. *)
Definition matchAt (re : t) (pre post : jsstring) : option found :=
  match m (ignoreCase re) (pattern re) (State pre post []) Some with
  | Some st1 =>
      Some (Found pre (firstn (length post - length (after st1)) post)
              (after st1) (captures st1))
  | None => None
  end.

(** RegExpBuiltinExec: the leftmost position at which the pattern matches. *)
Fixpoint execFrom (re : t) (pre post : jsstring) {struct post} : option found :=
  match matchAt re pre post with
  | Some f => Some f
  | None =>
      match post with
      | c :: post' => execFrom re (c :: pre) post'
      | [] => None
      end
  end.

Definition exec (re : t) (s : jsstring) : option found := execFrom re [] s.

(** [RegExp.prototype.test]. *)
Definition test (re : t) (s : jsstring) : bool :=
  match exec re s with Some _ => true | None => false end.

(** [String.prototype.match] without the g flag. *)
Definition matchFirst (re : t) (s : jsstring) : option found := exec re s.

(** The successive matches of a g regular expression: the search resumes
    where the last match ended, one code unit further after an empty match.
    [skip] counts the code units of the last match still to pass. *)
Fixpoint matchesFrom (re : t) (skip : nat) (pre post : jsstring) {struct post}
  : list jsstring :=
  match skip, post with
  | S n, c :: post' => matchesFrom re n (c :: pre) post'
  | S _, [] => []
  | O, _ =>
      match matchAt re pre post with
      | Some f =>
          whole f ::
          match post with
          | c :: post' => matchesFrom re (length (whole f) - 1) (c :: pre) post'
          | [] => []
          end
      | None =>
          match post with
          | c :: post' => matchesFrom re 0 (c :: pre) post'
          | [] => []
          end
      end
  end.

(** [String.prototype.match] with the g flag: every match, or null. *)
Definition matchGlobal (re : t) (s : jsstring) : option (list jsstring) :=
  match matchesFrom re 0 [] s with
  | [] => None
  | l => Some l
  end.

(** [String.prototype.replace] without the g flag; the replacement texts of
    parser.ts hold no $ pattern. *)
Definition replaceFirst (re : t) (by_ : jsstring) (s : jsstring) : jsstring :=
  match exec re s with
  | Some f => rev (prefix f) ++ by_ ++ suffix f
  | None => s
  end.

(** [String.prototype.replace] with the g flag. *)
Fixpoint replaceFrom (re : t) (by_ : jsstring) (skip : nat) (pre post : jsstring)
  {struct post} : jsstring :=
  match skip, post with
  | S n, c :: post' => replaceFrom re by_ n (c :: pre) post'
  | S _, [] => []
  | O, _ =>
      match matchAt re pre post with
      | Some f =>
          by_ ++
          match post with
          | c :: post' =>
              match length (whole f) with
              | O => c :: replaceFrom re by_ 0 (c :: pre) post'
              | S n => replaceFrom re by_ n (c :: pre) post'
              end
          | [] => []
          end
      | None =>
          match post with
          | c :: post' => c :: replaceFrom re by_ 0 (c :: pre) post'
          | [] => []
          end
      end
  end.

Definition replaceAll (re : t) (by_ : jsstring) (s : jsstring) : jsstring :=
  replaceFrom re by_ 0 [] s.

(** [String.prototype.split] with a regular expression and no limit
    (RegExp.prototype[Symbol.split]); [cur] is the piece being read, in
    reverse.  A match that ends where the last piece ended is not a
    separator; no match is tried at the end of the input.  The separators of
    parser.ts hold no capturing group. *)
Fixpoint splitFrom (re : t) (skip : nat) (cur : jsstring) (pre post : jsstring)
  {struct post} : list jsstring :=
  match post with
  | [] => [rev cur]
  | c :: post' =>
      match skip with
      | S n => splitFrom re n cur (c :: pre) post'
      | O =>
          match matchAt re pre post with
          | Some f =>
              match length (whole f), cur with
              | O, [] => splitFrom re 0 [c] (c :: pre) post'
              | O, _ :: _ => rev cur :: splitFrom re 0 [c] (c :: pre) post'
              | S n, _ => rev cur :: splitFrom re n [] (c :: pre) post'
              end
          | None => splitFrom re 0 (c :: cur) (c :: pre) post'
          end
      end
  end.

Definition split (re : t) (s : jsstring) : list jsstring :=
  match s with
  | [] => match matchAt re [] [] with Some _ => [] | None => [[]] end
  | _ :: _ => splitFrom re 0 [] [] s
  end.

(** *** The matches of a pattern, declaratively *)

(** [iter R n]: [n] steps of [R]. *)
Fixpoint iter (R : state -> state -> Prop) (n : nat) (st st' : state) : Prop :=
  match n with
  | O => st' = st
  | S n' => exists st1, R st st1 /\ iter R n' st1 st'
  end.

(** One step of a quantifier past its mandatory iterations reads input. *)
Definition progress (R : state -> state -> Prop) (st st' : state) : Prop :=
  R st st' /\ length (after st') <> length (after st).

(** [run i r st st']: the pattern [r] can take the match from [st] to [st'].
    The relation ignores priorities: it holds of every way of matching. *)
Fixpoint run (i : bool) (r : regex) (st st' : state) {struct r} : Prop :=
  match r with
  | Empty => st' = st
  | Chr cl =>
      exists c post, after st = c :: post /\ classMatches i cl c = true /\
                     st' = State (c :: before st) post (captures st)
  | Seq a b => exists st1, run i a st st1 /\ run i b st1 st'
  | Alt a b => run i a st st' \/ run i b st st'
  | Group n a => exists st1, run i a st st1 /\ st' = setCapture n (consumed st st1) st1
  | Rep a lo extra _ =>
      exists st1 n, iter (run i a) lo st st1 /\ (n <= extra)%nat /\
                    iter (progress (run i a)) n st1 st'
  | Many cl lo _ =>
      exists w, after st = w ++ after st' /\
                Forall (fun c => classMatches i cl c = true) w /\
                (lo <= length w)%nat /\
                st' = State (rev w ++ before st) (after st') (captures st)
  | Bol => before st = [] /\ st' = st
  | Eol => after st = [] /\ st' = st
  | LookBehind cl =>
      exists c pre, before st = c :: pre /\ classMatches i cl c = true /\ st' = st
  end.

(** A matcher is sound for a relation when every result it returns goes
    through a state the relation allows. *)
Definition sound (ma : matcher) (R : state -> state -> Prop) : Prop :=
  forall st k res, ma st k = Some res -> exists st', R st st' /\ k st' = Some res.

(** A matcher is complete for a relation when it returns a result whenever
    the relation allows a state at which the continuation succeeds. *)
Definition complete (ma : matcher) (R : state -> state -> Prop) : Prop :=
  forall st st' k, R st st' -> k st' <> None -> ma st k <> None.

(** [st'] is [st] after reading [w]. *)
Definition reads (w : jsstring) (st st' : state) : Prop :=
  after st = w ++ after st' /\ before st' = rev w ++ before st.

(** *** Building patterns *)

Definition lit (c : ascii) : regex := Chr (Class false (One (N_of_ascii c))).

(** The pattern of a literal text. *)
Fixpoint text (s : string) : regex :=
  match s with
  | EmptyString => Empty
  | String c EmptyString => lit c
  | String c s' => Seq (lit c) (text s')
  end.

Definition cls (s : cset) : regex := Chr (Class false s).
Definition opt (a : regex) : regex := Rep a 0 1 true.                 (* a? *)
Definition plus (s : cset) : regex := Many (Class false s) 1 true.    (* [s]+ *)
Definition star (s : cset) : regex := Many (Class false s) 0 true.    (* [s]* *)
Definition chr (c : ascii) : cset := One (N_of_ascii c).

Fixpoint seqs (l : list regex) : regex :=
  match l with
  | [] => Empty
  | [a] => a
  | a :: l' => Seq a (seqs l')
  end.

Fixpoint alts (a : regex) (l : list regex) : regex :=
  match l with
  | [] => a
  | b :: l' => Alt a (alts b l')
  end.

Fixpoint unions (a : cset) (l : list cset) : cset :=
  match l with
  | [] => a
  | b :: l' => Union a (unions b l')
  end.

(** [w] is the literal [s], as a pattern with flag [i] reads it. *)
Fixpoint litMatches (i : bool) (s : string) (w : jsstring) : Prop :=
  match s, w with
  | EmptyString, [] => True
  | String a s', c :: w' =>
      classMatches i (Class false (One (N_of_ascii a))) c = true /\ litMatches i s' w'
  | _, _ => False
  end.

Fixpoint noUpper (s : string) : bool :=
  match s with
  | EmptyString => true
  | String a s' => negb (isUpper (N_of_ascii a)) && noUpper s'
  end.

End RegExp.

(** ** Values that can fail *)

(** The outcome of a computation that may throw. *)
Inductive error : Type := TypeError.

Inductive result (A : Type) : Type :=
| Ok (a : A)
| Throw (e : error).

Arguments Ok {A} a.
Arguments Throw {A} e.

Definition bind {A B : Type} (x : result A) (f : A -> result B) : result B :=
  match x with
  | Ok a => f a
  | Throw e => Throw e
  end.

Notation "x <- c ;; k" := (bind c (fun x => k))
  (at level 61, c at next level, right associativity).

(** ** Array.prototype.sort *)

Section ArraySort.
Variable A : Type.

(** The comparator: a positive result puts the first argument after the
    second. *)
Variable comparefn : A -> A -> Q.

Definition positive (q : Q) : bool := (0 <? Qnum q)%Z.

Fixpoint insert (x : A) (l : list A) : list A :=
  match l with
  | [] => [x]
  | y :: l' => if positive (comparefn x y) then y :: insert x l' else x :: l
  end.

(** The sort is stable: an element moves behind the elements it compares
    greater than, and behind no other.  Insertion from the right computes
    that order. *)
Definition sort (l : list A) : list A := fold_right insert [] l.
End ArraySort.

(** ** The parser *)

Module Parser.
Import JSString RegExp.

Open Scope string_scope.

Definition rng (a b : ascii) : cset := Range (N_of_ascii a) (N_of_ascii b).
Definition spaceOrDash : regex := cls (Union Space (chr "-")).
Definition digits (n : nat) : regex := Rep (cls Digit) n 0 true.  (* \d{n} *)

(** /https?:\/\/(?:www\.)?github\.com\/[^\s)]+/gi *)
Definition GITHUB_REGEX : RegExp.t :=
  RegExp (seqs [text "http"; opt (lit "s"); text "://"; opt (text "www.");
                text "github.com/";
                Many (Class true (Union Space (chr ")"))) 1 true])
         true.

(** /[A-Z0-9._%+-]+@[A-Z0-9.-]+\.[A-Z]{2,}/gi *)
Definition EMAIL_REGEX : RegExp.t :=
  RegExp (seqs [plus (unions (rng "A" "Z")
                        [rng "0" "9"; chr "."; chr "_"; chr "%"; chr "+"; chr "-"]);
                lit "@";
                plus (unions (rng "A" "Z") [rng "0" "9"; chr "."; chr "-"]);
                lit ".";
                Many (Class false (rng "A" "Z")) 2 true])
         true.

(** /(?:\+?\d{1,3}[\s-]?)?(?:\(?\d{3}\)?[\s-]?)?\d{3}[\s-]?\d{4}/g *)
Definition PHONE_REGEX : RegExp.t :=
  RegExp (seqs [opt (seqs [opt (lit "+"); Rep (cls Digit) 1 2 true; opt spaceOrDash]);
                opt (seqs [opt (lit "("); digits 3; opt (lit ")"); opt spaceOrDash]);
                digits 3; opt spaceOrDash; digits 4])
         false.

Definition SUMMARY_KEYWORDS : list jsstring :=
  map str
    ["experience"; "developed"; "engineer"; "project"; "designed"; "built";
     "led"; "collaborated"; "improved"; "delivered"; "managed"; "optimized";
     "implemented"; "created"; "modernized"; "launched"].

Record ParsedResume : Type := {
  name : option jsstring;
  headline : option jsstring;
  githubUrl : option jsstring;
  githubUsername : option jsstring;
  emails : list jsstring;
  phones : list jsstring;
  skills : list jsstring;
  summary : list jsstring;
  rawText : jsstring
}.

(** Truthiness of a [string | null]: null and the empty string are falsy. *)
Definition truthy (s : option jsstring) : bool :=
  match s with
  | Some (_ :: _) => true
  | _ => false
  end.

(** /\r/g and /\n{2,}/g *)
Definition RE_CR : RegExp.t := RegExp (cls (One CR)) false.
Definition RE_NEWLINES2 : RegExp.t := RegExp (Many (Class false (One LF)) 2 true) false.

Definition cleanText (text : jsstring) : jsstring :=
  trim (replaceAll RE_NEWLINES2 [LF; LF] (replaceAll RE_CR [LF] text)).

(** The two replacements of [cleanText] as list functions, for the proofs:
    [crToLf] is the image of one code unit under the first; [squeeze n] is
    the second on a text that follows [n] line feeds of a run already
    written, and keeps at most two line feeds of every run. *)
Definition crToLf (c : char) : char := if eqc c CR then LF else c.

Fixpoint squeeze (n : nat) (s : jsstring) : jsstring :=
  match s with
  | [] => []
  | c :: s' =>
      if eqc c LF then
        if (n <? 2)%nat then c :: squeeze (S n) s' else squeeze n s'
      else c :: squeeze 0 s'
  end.

(** /\d/ *)
Definition RE_DIGIT : RegExp.t := RegExp (cls Digit) false.

(** The test of one line in the loop of [extractName]: the trimmed line when
    the loop returns at it, [None] when the loop continues. *)
Definition nameOfLine (line : jsstring) : option jsstring :=
  let trimmed := trim line in
  if negb (truthy (Some trimmed)) then None
  else if (60 <? length trimmed)%nat then None
  else if test RE_DIGIT trimmed then None
  else if includes (toLowerCase trimmed) (str "curriculum vitae") then None
  else if (length (splitOn SP trimmed) <=? 5)%nat then Some trimmed
  else None.

Fixpoint extractName (lines : list jsstring) : option jsstring :=
  match lines with
  | [] => None
  | line :: rest =>
      match nameOfLine line with
      | Some trimmed => Some trimmed
      | None => extractName rest
      end
  end.

(** [Array.prototype.findIndex]: the first index at which the predicate
    holds, or -1. *)
Fixpoint findIndex (A : Type) (p : A -> bool) (l : list A) : Z :=
  match l with
  | [] => (-1)%Z
  | x :: l' =>
      if p x then 0%Z
      else let i := findIndex p l' in if (i <? 0)%Z then (-1)%Z else (i + 1)%Z
  end.

Definition extractHeadline (lines : list jsstring) (name : option jsstring)
  : option jsstring :=
  if negb (truthy name) then None
  else
    match name with
    | Some name =>
        let nameIndex :=
          findIndex (fun line => eqs (toLowerCase (trim line)) (toLowerCase name))
            lines in
        if (0 <=? nameIndex)%Z && (nameIndex + 1 <? Z.of_nat (length lines))%Z then
          match nth_error lines (Z.to_nat (nameIndex + 1)) with
          | Some next =>
              let nextLine := trim next in
              if truthy (Some nextLine) && (length nextLine <=? 80)%nat
              then Some nextLine else None
          | None => None
          end
        else None
    | None => None
    end.

(** /(skills|technical skills|toolbox|technologies)\s*: ?([\s\S]+?)(?:\n\n|experience|projects|education)/i *)
Definition RE_SKILLS : RegExp.t :=
  RegExp (seqs [Group 1 (alts (text "skills")
                           [text "technical skills"; text "toolbox"; text "technologies"]);
                star Space; lit ":"; opt (lit " ");
                Group 2 (Many (Class false (Union Space NonSpace)) 1 false);
                alts (Seq (cls (One LF)) (cls (One LF)))
                  [text "experience"; text "projects"; text "education"]])
         true.

(** /[,•\n]/u; the separators are single code units of the Basic
    Multilingual Plane, for which the u flag changes nothing. *)
Definition RE_SKILL_SEP : RegExp.t :=
  RegExp (cls (unions (chr ",") [One BULLET; One LF])) false.

(** [sectionBody] is the third element of the match array; calling [split] on
    it throws when it is undefined. *)
Definition extractSkills (text : jsstring) : result (list jsstring) :=
  match matchFirst RE_SKILLS text with
  | None => Ok []
  | Some skillsSectionMatch =>
      match group 2 skillsSectionMatch with
      | None => Throw TypeError
      | Some sectionBody =>
          Ok (firstn 15
                (filter (fun skill => (1 <? length skill)%nat)
                   (map trim (split RE_SKILL_SEP sectionBody))))
      end
  end.

(** The label, the stop and the body of [RE_SKILLS]. *)
Definition SKILLS_LABEL : regex :=
  alts (text "skills") (map text ["technical skills"; "toolbox"; "technologies"]).

Definition SKILLS_STOP : regex :=
  alts (text (String (ascii_of_N 10) (String (ascii_of_N 10) EmptyString)))
    (map text ["experience"; "projects"; "education"]).

Definition SKILLS_BODY : regex := Many (Class false (Union Space NonSpace)) 1 false.

(** The labels and the stops of [RE_SKILLS], as texts. *)
Definition SKILL_LABELS : list string :=
  ["skills"; "technical skills"; "toolbox"; "technologies"].

Definition SKILL_STOPS : list string :=
  [String (ascii_of_N 10) (String (ascii_of_N 10) EmptyString);
   "experience"; "projects"; "education"].

(** The value [extractSkills] returns for a section body. *)
Definition skillTokens (sectionBody : jsstring) : list jsstring :=
  firstn 15
    (filter (fun skill => (1 <? length skill)%nat)
       (map trim (split RE_SKILL_SEP sectionBody))).

(** /\n+/g and /(?<=[.!?])\s+/ *)
Definition RE_NEWLINES : RegExp.t := RegExp (plus (One LF)) false.
Definition RE_SENTENCE_END : RegExp.t :=
  RegExp (Seq (LookBehind (Class false (unions (chr ".") [chr "!"; chr "?"])))
              (plus Space))
         false.

Definition tokenizeSentences (text : jsstring) : list jsstring :=
  let sentences :=
    filter (fun sentence =>
              (0 <? length sentence)%nat && (length sentence <=? 300)%nat)
      (map trim (split RE_SENTENCE_END (replaceAll RE_NEWLINES [SP] text))) in
  newSet sentences.

(** /[•*-]/u and /\d+/ *)
Definition RE_BULLET : RegExp.t :=
  RegExp (cls (unions (One BULLET) [chr "*"; chr "-"])) false.
Definition RE_NUMBER : RegExp.t := RegExp (plus Digit) false.

Definition isSome (A : Type) (o : option A) : bool :=
  match o with Some _ => true | None => false end.

(** Numbers are exact rationals: the sums of [scoreSentence] are multiples of
    one tenth, and the rounding of [sentence.length / 10] to a binary64
    number is not modelled. *)
Definition scoreSentence (sentence : jsstring) : Q :=
  let lower := toLowerCase sentence in
  let score :=
    fold_left (fun score keyword => if includes lower keyword then score + 2 else score)
      SUMMARY_KEYWORDS 0 in
  let lengthScore := Qmin (inject_Z (Z.of_nat (length sentence)) / 10) 10 in
  let score := score + lengthScore in
  let score := if test RE_BULLET sentence then score + 1 else score in
  let score :=
    if includes sentence (str "%") || isSome (matchFirst RE_NUMBER sentence)
    then score + 1 else score in
  score.

Definition byScoreDesc (a b : jsstring * Q) : Q := snd b - snd a.

Definition buildSummary (sentences : list jsstring) : list jsstring :=
  if Nat.eqb (length sentences) 0 then []
  else
    let scored :=
      sort byScoreDesc (map (fun sentence => (sentence, scoreSentence sentence)) sentences) in
    let topSentences := map fst (firstn 4 scored) in
    if Nat.eqb (length topSentences) 0 then firstn 3 sentences
    else topSentences.

(** /\s+/g, /\D/g, /[\s,.;)]*$/, /https?:\/\//, /www\./ and
    /^github\.com\/([^\/\s]+)/i *)
Definition RE_SPACES : RegExp.t := RegExp (plus Space) false.
Definition RE_NONDIGIT : RegExp.t := RegExp (cls NonDigit) false.
Definition RE_TRAILING : RegExp.t :=
  RegExp (Seq (star (unions Space [chr ","; chr "."; chr ";"; chr ")"])) Eol) false.
Definition RE_SCHEME : RegExp.t :=
  RegExp (seqs [text "http"; opt (lit "s"); text "://"]) false.
Definition RE_WWW : RegExp.t := RegExp (text "www.") false.
Definition RE_USERNAME : RegExp.t :=
  RegExp (seqs [Bol; text "github.com/";
                Group 1 (Many (Class true (Union (chr "/") Space)) 1 true)])
         true.

Definition orEmpty (A : Type) (o : option (list A)) : list A :=
  match o with Some l => l | None => [] end.

Definition extractEmails (cleaned : jsstring) : list jsstring :=
  map toLowerCase (newSet (orEmpty (matchGlobal EMAIL_REGEX cleaned))).

Definition extractPhones (cleaned : jsstring) : list jsstring :=
  match matchGlobal PHONE_REGEX cleaned with
  | Some found =>
      filter (fun phone => (10 <=? length (replaceAll RE_NONDIGIT [] phone))%nat)
        (map (fun phone => trim (replaceAll RE_SPACES [SP] phone)) found)
  | None => []
  end.

Definition extractRawGithubUrl (cleaned : jsstring) : option jsstring :=
  let githubMatches := orEmpty (matchGlobal GITHUB_REGEX cleaned) in
  let firstMatch :=
    if (0 <? length githubMatches)%nat then nth_error githubMatches 0 else None in
  if truthy firstMatch then
    match firstMatch with
    | Some firstMatch => Some (replaceFirst RE_TRAILING [] firstMatch)
    | None => None
    end
  else None.

Definition extractGithubUsername (rawGithubUrl : option jsstring) : option jsstring :=
  if truthy rawGithubUrl then
    match rawGithubUrl with
    | Some rawGithubUrl =>
        match matchFirst RE_USERNAME
                (replaceFirst RE_WWW [] (replaceFirst RE_SCHEME [] rawGithubUrl)) with
        | Some found => group 1 found
        | None => None
        end
    | None => None
    end
  else None.

Definition parseResumeText (text : jsstring) : result ParsedResume :=
  let cleaned := cleanText text in
  let lines := splitOn LF cleaned in
  let name := extractName lines in
  let headline := extractHeadline lines name in
  let emails := extractEmails cleaned in
  let phones := extractPhones cleaned in
  let rawGithubUrl := extractRawGithubUrl cleaned in
  let githubUsername := extractGithubUsername rawGithubUrl in
  let githubUrl :=
    match githubUsername with
    | Some username => Some (str "https://github.com/" ++ username)%list
    | None => rawGithubUrl
    end in
  skills <- extractSkills cleaned ;;
  let sentences := tokenizeSentences cleaned in
  let summary := buildSummary sentences in
  Ok {| name := name; headline := headline; githubUrl := githubUrl;
        githubUsername := githubUsername; emails := emails; phones := phones;
        skills := skills; summary := summary; rawText := cleaned |}.

Close Scope string_scope.

End Parser.

(** ** The specification's wording, where it is compared with the code *)

Module Spec.
Import JSString RegExp Parser.

Open Scope string_scope.

(** The number of places of [s] at which [p] occurs. *)
Fixpoint occurrences (s p : jsstring) : nat :=
  ((if startsWith s p then 1 else 0) +
   match s with
   | [] => 0
   | _ :: s' => occurrences s' p
   end)%nat.

(** Scoring as section 4.5 words it: 2 points for each occurrence of a
    keyword. *)
Definition spec_scoreSentence (sentence : jsstring) : Q :=
  let lower := toLowerCase sentence in
  let score :=
    fold_left
      (fun score keyword =>
         score + 2 * inject_Z (Z.of_nat (occurrences lower keyword)))
      SUMMARY_KEYWORDS 0 in
  let lengthScore := Qmin (inject_Z (Z.of_nat (length sentence)) / 10) 10 in
  let score := score + lengthScore in
  let score := if test RE_BULLET sentence then score + 1 else score in
  let score :=
    if includes sentence (str "%") || isSome (matchFirst RE_NUMBER sentence)
    then score + 1 else score in
  score.

(** The number of words of a text, a word being a run of code units that are
    not white space. *)
Fixpoint wordsFrom (inWord : bool) (s : jsstring) : nat :=
  match s with
  | [] => 0
  | c :: s' =>
      if isSpace c then wordsFrom false s'
      else ((if inWord then 0 else 1) + wordsFrom true s')%nat
  end.

Definition spec_wordCount (s : jsstring) : nat := wordsFrom false s.

(** The name line as section 4.2 words it: not empty, at most 60 long, no
    digit, not the phrase, at most 5 words separated by white space. *)
Definition spec_nameLine (line : jsstring) : bool :=
  let trimmed := trim line in
  truthy (Some trimmed) && (length trimmed <=? 60)%nat &&
  negb (existsb isDigit trimmed) &&
  negb (includes (toLowerCase trimmed) (str "curriculum vitae")) &&
  (spec_wordCount trimmed <=? 5)%nat.

Definition spec_extractName (lines : list jsstring) : option jsstring :=
  option_map trim (find spec_nameLine lines).

(** The skills pattern as section 4.4 words it: the colon after the label is
    optional. *)
Definition spec_RE_SKILLS : RegExp.t :=
  RegExp (seqs [Group 1 (alts (text "skills")
                           [text "technical skills"; text "toolbox"; text "technologies"]);
                star Space; opt (lit ":"); opt (lit " ");
                Group 2 (Many (Class false (Union Space NonSpace)) 1 false);
                alts (Seq (cls (One LF)) (cls (One LF)))
                  [text "experience"; text "projects"; text "education"]])
         true.

Definition spec_extractSkills (text : jsstring) : result (list jsstring) :=
  match matchFirst spec_RE_SKILLS text with
  | None => Ok []
  | Some skillsSectionMatch =>
      match group 2 skillsSectionMatch with
      | None => Throw TypeError
      | Some sectionBody => Ok (skillTokens sectionBody)
      end
  end.

(** The line of a name, as the code tests it: not empty, at most 60 long, no
    digit, not the phrase, at most 4 spaces (U+0020). *)
Definition nameLine (t : jsstring) : Prop :=
  t <> [] /\ (length t <= 60)%nat /\
  Forall (fun c => isDigit c = false) t /\
  ~ (exists a b, toLowerCase t = (a ++ str "curriculum vitae" ++ b)%list) /\
  (count_occ N.eq_dec t SP <= 4)%nat.

(** A skills section in a text, as the code finds it: after [pre] come a
    label in any case, white space, a colon, at most one space, a body that
    is not empty, and a stop in any case. *)
Definition skillsSection (text pre hdr ws sp body stop post : jsstring) : Prop :=
  text = (pre ++ hdr ++ ws ++ str ":" ++ sp ++ body ++ stop ++ post)%list /\
  In (toLowerCase hdr) (map str SKILL_LABELS) /\
  Forall (fun c => isSpace c = true) ws /\
  (sp = [] \/ sp = [SP]) /\
  body <> [] /\
  In (toLowerCase stop) (map str SKILL_STOPS).

(** A stop starts the text. *)
Definition stopAt (s : jsstring) : Prop :=
  exists stop rest, s = (stop ++ rest)%list /\ In (toLowerCase stop) (map str SKILL_STOPS).

(** The keywords of the vocabulary that a sentence holds. *)
Definition keywordsFound (sentence : jsstring) : list jsstring :=
  filter (fun keyword => includes (toLowerCase sentence) keyword) SUMMARY_KEYWORDS.

Close Scope string_scope.

End Spec.

(** ** List functions that the proofs compare the calls with *)

Module Direct.
Import JSString.

(** A text with every run of code units of a class replaced by one text:
    [inRun] tells that the code unit before was of the class. *)
Fixpoint runsTo (p : char -> bool) (by_ : jsstring) (inRun : bool) (s : jsstring)
  : jsstring :=
  match s with
  | [] => []
  | c :: s' =>
      if p c then (if inRun then runsTo p by_ true s' else by_ ++ runsTo p by_ true s')
      else c :: runsTo p by_ false s'
  end.

(** A text cut at every code unit of a class; [cur] is the piece being read,
    in reverse. *)
Fixpoint splitBy (p : char -> bool) (cur : jsstring) (s : jsstring) : list jsstring :=
  match s with
  | [] => [rev cur]
  | c :: s' => if p c then rev cur :: splitBy p [] s' else splitBy p (c :: cur) s'
  end.

(** A text that neither starts nor ends with white space. *)
Definition noEdgeSpace (t : jsstring) : Prop :=
  (forall c t', t = c :: t' -> isSpace c = false) /\
  (forall c t', t = t' ++ [c] -> isSpace c = false).

(** Three line feeds in a row. *)
Definition LF3 : jsstring := [LF; LF; LF].


End Direct.

(** ** The parse route (src/app/api/parse/route.ts) *)

Module ParseRoute.
Import JSString Parser.

(** What the handler answers. *)
Inductive response : Type :=
| Json400 (error : string)
| Json500 (e : error)
| JsonData (data : ParsedResume).

(** The handler [POST] from the point where [extractTextFromFile] has
    returned [text]: a text that is empty once trimmed is refused, any other
    is parsed, and an exception of the parser is caught. *)
Definition respond (text : jsstring) : response :=
  if negb (truthy (Some (trim text))) then
    Json400 "We could not read any text from the provided resume."
  else
    match parseResumeText text with
    | Ok parsedResume => JsonData parsedResume
    | Throw e => Json500 e
    end.

End ParseRoute.

(** ** Shapes of the texts that the patterns read *)

Module Shapes.
Import JSString RegExp.

Open Scope string_scope.

(** Every class of a pattern that reads input holds code units of [P]
    only. *)
Fixpoint classesWithin (i : bool) (P : char -> Prop) (r : regex) : Prop :=
  match r with
  | Chr cl | Many cl _ _ => forall c, classMatches i cl c = true -> P c
  | Seq a b | Alt a b => classesWithin i P a /\ classesWithin i P b
  | Group _ a | Rep a _ _ _ => classesWithin i P a
  | _ => True
  end.

(** The code units of a phone number as [PHONE_REGEX] reads it. *)
Definition phoneUnit (c : char) : Prop :=
  isDigit c = true \/ isSpace c = true \/
  c = 43%N \/ c = 40%N \/ c = 41%N \/ c = 45%N.

(** The code units of a phone number once its white space is normalised:
    a digit, a space, or one of + ( ) -. *)
Definition phoneChar (c : char) : Prop :=
  isDigit c = true \/ c = SP \/ c = 43%N \/ c = 40%N \/ c = 41%N \/ c = 45%N.

(** The code units of the local part and of the domain of an address, once
    in lower case. *)
Definition localChar (c : char) : bool :=
  isLower c || isDigit c || eqc c 46%N || eqc c 95%N || eqc c 37%N || eqc c 43%N ||
  eqc c 45%N.

Definition domainChar (c : char) : bool :=
  isLower c || isDigit c || eqc c 46%N || eqc c 45%N.

(** An address: a local part, an at sign, a domain, a dot and a top-level
    label of at least two letters, all in lower case. *)
Definition emailShape (e : jsstring) : Prop :=
  exists local domain tld,
    e = (local ++ str "@" ++ domain ++ str "." ++ tld)%list /\
    local <> [] /\ domain <> [] /\ (2 <= length tld)%nat /\
    Forall (fun c => localChar c = true) local /\
    Forall (fun c => domainChar c = true) domain /\
    Forall (fun c => isLower c = true) tld.

(** A link to the host starts the text: the scheme, www. or not, the host
    (all in any case) and one code unit of a path. *)
Definition linkAt (s : jsstring) : Prop :=
  exists scheme www host c rest,
    s = (scheme ++ www ++ host ++ c :: rest)%list /\
    (toLowerCase scheme = str "http://" \/ toLowerCase scheme = str "https://") /\
    (www = [] \/ toLowerCase www = str "www.") /\
    toLowerCase host = str "github.com/" /\
    isSpace c = false /\ c <> 41%N.

(** The code units that are removed from the end of a link. *)
Definition trailingChar (c : char) : bool :=
  isSpace c || eqc c 44%N || eqc c 46%N || eqc c 59%N || eqc c 41%N.

(** The separators of the skills: comma, bullet, line feed. *)
Definition isSkillSep (c : char) : bool := eqc c 44%N || eqc c BULLET || eqc c LF.

Close Scope string_scope.

End Shapes.

(** * The GitHub route (src/app/api/github/route.ts)

    The part of the handler that works on the fetched data: the limit of
    the request, the selection of the repositories and the language counts.
    The numbers of the JSON documents are exact rationals, as the scores
    are. *)

Module GithubRoute.
Import JSString.

(** A number of the request body: [JSON.parse] gives a finite number or, for
    a literal too large for a double, an infinity; it never gives NaN. *)
Inductive number : Type :=
  | Finite (q : Q)
  | PosInfinity
  | NegInfinity.

(** [body.repoLimit]: a number, or a value of another type, absent
    included. *)
Inductive value : Type :=
  | Num (n : number)
  | NotNum.

Record Repo : Type := {
  name : jsstring;
  html_url : jsstring;
  description : option jsstring;
  stargazers_count : Q;
  forks_count : Q;
  open_issues_count : Q;
  language : option jsstring;
  topics : option (list jsstring);
  homepage : option jsstring;
  updated_at : jsstring;
}.

Definition DEFAULT_REPO_LIMIT : number := Finite 6.

(** [n > 0] *)
Definition gtZero (n : number) : bool :=
  match n with
  | Finite q => positive q
  | PosInfinity => true
  | NegInfinity => false
  end.

(** [Math.min] *)
Definition Math_min (a b : number) : number :=
  match a, b with
  | NegInfinity, _ | _, NegInfinity => NegInfinity
  | PosInfinity, x => x
  | x, PosInfinity => x
  | Finite p, Finite q => if Qle_bool p q then Finite p else Finite q
  end.

Definition repoLimit (body_repoLimit : value) : number :=
  match body_repoLimit with
  | Num n => if gtZero n then Math_min n (Finite 10) else DEFAULT_REPO_LIMIT
  | NotNum => DEFAULT_REPO_LIMIT
  end.

(** ToIntegerOrInfinity of a finite number: the fraction is dropped. *)
Definition truncate (q : Q) : Z := Z.quot (Qnum q) (Zpos (Qden q)).

(** [Array.prototype.slice(0, end)]: a negative end counts from the end of
    the array. *)
Definition sliceTo (A : Type) (end_ : number) (l : list A) : list A :=
  match end_ with
  | PosInfinity => l
  | NegInfinity => []
  | Finite q =>
      let relativeEnd := truncate q in
      if (relativeEnd <? 0)%Z
      then firstn (Z.to_nat (Z.max (Z.of_nat (length l) + relativeEnd) 0)) l
      else firstn (Z.to_nat (Z.min relativeEnd (Z.of_nat (length l)))) l
  end.

Definition byStarsDesc (a b : Repo) : Q := stargazers_count b - stargazers_count a.

Definition sortedRepos (repoLimit : number) (repos : list Repo) : list Repo :=
  sliceTo repoLimit (sort byStarsDesc repos).

Record RepoWithReadme : Type := {
  repo : Repo;
  topicsOrEmpty : list jsstring;
  readmeExcerpt : option jsstring;
}.

Section Readme.

(** The excerpt that the README request of a repository gives. *)
Variable fetchReadmeExcerpt : jsstring -> jsstring -> option jsstring.

Definition reposWithReadme (username : jsstring) (sortedRepos : list Repo)
  : list RepoWithReadme :=
  map (fun repo =>
         {| repo := repo;
            topicsOrEmpty := match topics repo with Some t => t | None => [] end;
            readmeExcerpt := fetchReadmeExcerpt username (name repo) |})
      sortedRepos.

Definition spotlight (username : jsstring) (body_repoLimit : value) (repos : list Repo)
  : option RepoWithReadme :=
  nth_error (reposWithReadme username (sortedRepos (repoLimit body_repoLimit) repos)) 0.

End Readme.

(** *** Languages

    [languageCounts] is an object used as a map.  Its own properties are
    kept here in the order of their creation, with their values; the counts
    are whole numbers.  A key that [Object.prototype] defines is read from
    the prototype, not found absent: the counting is not modelled for such a
    language, and [languageCounts] is then [None]. *)

Definition object : Type := list (jsstring * Z).

Definition OBJECT_PROTOTYPE_KEYS : list jsstring :=
  map str
    ["constructor"; "hasOwnProperty"; "isPrototypeOf"; "propertyIsEnumerable";
     "toLocaleString"; "toString"; "valueOf"; "__defineGetter__";
     "__defineSetter__"; "__lookupGetter__"; "__lookupSetter__"; "__proto__"]%string.

(** The own property [key] of an object. *)
Fixpoint getOwn (key : jsstring) (o : object) : option Z :=
  match o with
  | [] => None
  | (k, x) :: o' => if eqs k key then Some x else getOwn key o'
  end.

(** [o[key] = v]: an own property keeps its place, a new one comes last. *)
Fixpoint setOwn (key : jsstring) (v : Z) (o : object) : object :=
  match o with
  | [] => [(key, v)]
  | (k, x) :: o' => if eqs k key then (k, v) :: o' else (k, x) :: setOwn key v o'
  end.

(** The callback of the [reduce] that counts the languages. *)
Definition countLanguage (acc : option object) (repo : Repo) : option object :=
  match acc with
  | None => None
  | Some acc =>
      if Parser.truthy (language repo) then
        match language repo with
        | Some l =>
            if has l OBJECT_PROTOTYPE_KEYS then None
            else
              Some (setOwn l
                      ((match getOwn l acc with Some n => n | None => 0 end) + 1)%Z acc)
        | None => Some acc
        end
      else Some acc
  end.

Definition languageCounts (repos : list Repo) : option object :=
  fold_left countLanguage repos (Some []).

(** The number that a key is when it is an array index: a decimal numeral
    without a leading zero, below 2^32 - 1. *)
Fixpoint digitsValue (acc : N) (s : jsstring) : option N :=
  match s with
  | [] => Some acc
  | c :: s' => if isDigit c then digitsValue (acc * 10 + (c - 48))%N s' else None
  end.

Definition arrayIndex (key : jsstring) : option N :=
  match key with
  | [] => None
  | c :: rest =>
      if eqc c 48%N && negb (match rest with [] => true | _ => false end) then None
      else
        match digitsValue 0%N key with
        | Some n => if (n <? 4294967295)%N then Some n else None
        | None => None
        end
  end.

Definition isIndex (p : jsstring * Z) : bool :=
  match arrayIndex (fst p) with Some _ => true | None => false end.

Definition byIndex (a b : jsstring * Z) : Q :=
  match arrayIndex (fst a), arrayIndex (fst b) with
  | Some i, Some j => inject_Z (Z.of_N i) - inject_Z (Z.of_N j)
  | _, _ => 0
  end.

(** [Object.entries]: the keys that are array indices come first, in
    ascending order, then the other keys in the order of their creation. *)
Definition entries (o : object) : list (jsstring * Z) :=
  sort byIndex (filter isIndex o) ++ filter (fun p => negb (isIndex p)) o.

Module TopLanguage.
Record t : Type := { language : jsstring; count : Z }.
End TopLanguage.

Definition byCountDesc (a b : TopLanguage.t) : Q :=
  inject_Z (TopLanguage.count b) - inject_Z (TopLanguage.count a).

Definition topLanguages (repos : list Repo) : option (list TopLanguage.t) :=
  match languageCounts repos with
  | Some languageCounts =>
      Some (firstn 10
              (sort byCountDesc
                 (map (fun e => {| TopLanguage.language := fst e;
                                   TopLanguage.count := snd e |})
                    (entries languageCounts))))
  | None => None
  end.

End GithubRoute.

(** * The page (src/app/page.tsx) *)

Module Page.
Import GithubRoute.


End Page.

(** ** The counts that the languages are compared with *)

Module Tally.
Import JSString GithubRoute.

(** The repository is written in the language [l]. *)
Definition writtenIn (l : jsstring) (repo : Repo) : bool :=
  match language repo with
  | Some l' => eqs l' l
  | None => false
  end.

(** The number of repositories written in [l]. *)
Definition reposIn (l : jsstring) (repos : list Repo) : nat :=
  length (filter (writtenIn l) repos).

(** The number of repositories that name a language. *)
Definition withLanguage (repos : list Repo) : nat :=
  length (filter (fun repo => Parser.truthy (language repo)) repos).

Definition total (l : list Z) : Z := fold_right Z.add 0%Z l.

End Tally.

(** * Properties of the matcher *)

Module RegExpFacts.
Import JSString RegExp.

(** [csetMatches] under the i flag is the test of ECMA-262: some member of
    the set has the canonical form of the code unit. *)
Lemma csetMatches_canonical (s : cset) (c : char) :
  csetMatches true s c = true <->
  exists a, mem s a = true /\ upperChar a = upperChar c.
Proof.
  unfold csetMatches. rewrite orb_true_iff. split.
  - intros [H | H]; eexists; (split; [exact H|]);
      unfold upperChar, lowerChar, isLower, isUpper, inRange;
      destruct (N.leb_spec 97 c), (N.leb_spec c 122), (N.leb_spec 65 c),
        (N.leb_spec c 90); simpl; try lia;
      repeat match goal with
        | |- context [N.leb ?x ?y] => destruct (N.leb_spec x y); simpl; try lia
        end.
  - intros (a & Ha & Hac).
    assert (E : a = upperChar c \/ a = lowerChar c); [|destruct E as [<- | <-]; auto].
    revert Hac. unfold upperChar, lowerChar, isLower, isUpper, inRange.
    destruct (N.leb_spec 97 c), (N.leb_spec c 122), (N.leb_spec 65 c),
      (N.leb_spec c 90), (N.leb_spec 97 a), (N.leb_spec a 122); simpl; lia.
Qed.

Lemma repMin_sound (ma tail : matcher) (R T : state -> state -> Prop) (lo : nat) :
  sound ma R -> sound tail T ->
  sound (repMin ma lo tail) (fun st st' => exists st1, iter R lo st st1 /\ T st1 st').
Proof.
  intros Hma Ht. induction lo as [|lo IH]; intros st k res H; simpl in H.
  - apply Ht in H as (st' & HT & Hk). exists st'. split; [|exact Hk].
    exists st. split; [reflexivity | exact HT].
  - apply Hma in H as (st1 & HR & H).
    apply IH in H as (st' & (st2 & Hi & HT) & Hk).
    exists st'. split; [|exact Hk]. exists st2. split; [|exact HT].
    simpl. exists st1. split; assumption.
Qed.

Lemma repOpt_sound (ma : matcher) (R : state -> state -> Prop) (g : bool) (extra : nat) :
  sound ma R ->
  sound (repOpt ma g extra)
    (fun st st' => exists n, (n <= extra)%nat /\ iter (progress R) n st st').
Proof.
  intros Hma. induction extra as [|e IH]; intros st k res H; simpl in H.
  - exists st. split; [|exact H]. exists 0%nat. split; [lia | reflexivity].
  - assert (Hmore : forall r0,
        ma st (fun st1 => if Nat.eqb (length (after st1)) (length (after st)) then None
                          else repOpt ma g e st1 k) = Some r0 ->
        exists st', (exists n, (n <= S e)%nat /\ iter (progress R) n st st') /\
                    k st' = Some r0).
    { intros r0 E. apply Hma in E as (st1 & HR & E).
      destruct (Nat.eqb (length (after st1)) (length (after st))) eqn:En; [discriminate|].
      apply Nat.eqb_neq in En.
      apply IH in E as (st' & (n & Hn & Hi) & Hk).
      exists st'. split; [|exact Hk]. exists (S n). split; [lia|].
      simpl. exists st1. split; [split; assumption | exact Hi]. }
    assert (Hstop : forall r0, k st = Some r0 ->
        exists st', (exists n, (n <= S e)%nat /\ iter (progress R) n st st') /\
                    k st' = Some r0).
    { intros r0 E. exists st. split; [|exact E]. exists 0%nat. split; [lia | reflexivity]. }
    destruct g.
    + destruct (ma st _) eqn:E.
      * inversion H; subst. apply Hmore. reflexivity.
      * apply Hstop. exact H.
    + destruct (k st) eqn:E.
      * inversion H; subst. apply Hstop. reflexivity.
      * apply Hmore. exact H.
Qed.

Lemma many_sound (i : bool) (cl : cclass) (g : bool) :
  forall post lo pre caps k res,
    many i cl g lo pre post caps k = Some res ->
    exists w post',
      post = w ++ post' /\ Forall (fun c => classMatches i cl c = true) w /\
      (lo <= length w)%nat /\ k (State (rev w ++ pre) post' caps) = Some res.
Proof.
  induction post as [|c post IH]; intros lo pre caps k res H.
  - destruct lo; simpl in H.
    + exists [], []. repeat split; auto.
      destruct g; [exact H | destruct (k _); [exact H | discriminate]].
    + discriminate.
  - assert (Hmore : forall lo' r0,
        (if classMatches i cl c then many i cl g lo' (c :: pre) post caps k else None)
          = Some r0 ->
        exists w post',
          c :: post = w ++ post' /\ Forall (fun c => classMatches i cl c = true) w /\
          (S lo' <= length w)%nat /\ k (State (rev w ++ pre) post' caps) = Some r0).
    { intros lo' r0 E. destruct (classMatches i cl c) eqn:Ec; [|discriminate].
      apply IH in E as (w & post' & -> & Hw & Hlo & Hk).
      exists (c :: w), post'. repeat split.
      - constructor; assumption.
      - simpl; lia.
      - simpl. rewrite <- app_assoc. exact Hk. }
    destruct lo as [|lo]; simpl in H.
    + assert (Hstop : forall r0, k (State pre (c :: post) caps) = Some r0 ->
          exists w post',
            c :: post = w ++ post' /\ Forall (fun c => classMatches i cl c = true) w /\
            (0 <= length w)%nat /\ k (State (rev w ++ pre) post' caps) = Some r0).
      { intros r0 E. exists [], (c :: post). repeat split; auto. }
      destruct g.
      * destruct (if classMatches i cl c then _ else _) eqn:E.
        -- inversion H; subst.
           destruct (Hmore 0%nat res E) as (w & post' & ? & ? & ? & ?).
           exists w, post'. repeat split; auto. lia.
        -- apply Hstop. exact H.
      * destruct (k (State pre (c :: post) caps)) eqn:E.
        -- inversion H; subst. apply Hstop. reflexivity.
        -- apply Hmore in H as (w & post' & ? & ? & ? & ?).
           exists w, post'. repeat split; auto. lia.
    + apply Hmore. exact H.
Qed.

(** Soundness of the matcher: a result comes from a match of the pattern. *)
Lemma m_sound (i : bool) (r : regex) : sound (m i r) (run i r).
Proof.
  induction r as [|cl|a IHa b IHb|a IHa b IHb|n a IHa|a IHa lo extra g|cl lo g| | |cl];
    intros st k res H; simpl in H.
  - exists st. split; [reflexivity | exact H].
  - destruct (after st) as [|c post] eqn:Ea; [discriminate|].
    destruct (classMatches i cl c) eqn:Ec; [|discriminate].
    eexists. split; [|exact H]. simpl. exists c, post. repeat split; auto.
  - apply IHa in H as (st1 & H1 & H). apply IHb in H as (st2 & H2 & H).
    exists st2. split; [|exact H]. simpl. exists st1. split; assumption.
  - destruct (m i a st k) eqn:E.
    + inversion H; subst. apply IHa in E as (st' & H1 & E).
      exists st'. split; [left; exact H1 | exact E].
    + apply IHb in H as (st' & H2 & H). exists st'. split; [right; exact H2 | exact H].
  - apply IHa in H as (st1 & H1 & H). eexists. split; [|exact H].
    simpl. exists st1. split; [exact H1 | reflexivity].
  - apply (repMin_sound lo IHa (repOpt_sound g extra IHa)) in H
      as (st' & (st1 & Hlo & n & Hn & Hex) & H).
    exists st'. split; [|exact H]. simpl. exists st1, n. repeat split; assumption.
  - apply many_sound in H as (w & post' & Hp & Hw & Hlo & H).
    eexists. split; [|exact H]. simpl. exists w. repeat split; assumption.
  - destruct (before st) eqn:E; [|discriminate].
    exists st. split; [split; [exact E | reflexivity] | exact H].
  - destruct (after st) eqn:E; [|discriminate].
    exists st. split; [split; [exact E | reflexivity] | exact H].
  - destruct (before st) as [|c pre] eqn:E; [discriminate|].
    destruct (classMatches i cl c) eqn:Ec; [|discriminate].
    exists st. split; [|exact H]. simpl. exists c, pre. repeat split; auto.
Qed.

Lemma reads_nil (st : state) : reads [] st st.
Proof. split; reflexivity. Qed.

Lemma reads_app (w1 w2 : jsstring) (st st1 st2 : state) :
  reads w1 st st1 -> reads w2 st1 st2 -> reads (w1 ++ w2) st st2.
Proof.
  intros [A1 B1] [A2 B2]. split.
  - rewrite A1, A2. apply app_assoc.
  - rewrite B2, B1, rev_app_distr. apply app_assoc.
Qed.

Lemma iter_reads (R : state -> state -> Prop) :
  (forall st st', R st st' -> exists w, reads w st st') ->
  forall n st st', iter R n st st' -> exists w, reads w st st'.
Proof.
  intros HR. induction n as [|n IH]; intros st st' H; simpl in H.
  - subst. exists []. apply reads_nil.
  - destruct H as (st1 & H1 & H2).
    apply HR in H1 as (w1 & H1). apply IH in H2 as (w2 & H2).
    exists (w1 ++ w2). eapply reads_app; eassumption.
Qed.

(** A match only moves forward: the state after it is the state before it
    with some input read. *)
Lemma run_reads (i : bool) (r : regex) :
  forall st st', run i r st st' -> exists w, reads w st st'.
Proof.
  induction r as [|cl|a IHa b IHb|a IHa b IHb|n a IHa|a IHa lo extra g|cl lo g| | |cl];
    intros st st' H; simpl in H.
  - subst. exists []. apply reads_nil.
  - destruct H as (c & post & Ha & _ & ->). exists [c]. split; simpl; auto.
  - destruct H as (st1 & H1 & H2).
    apply IHa in H1 as (w1 & H1). apply IHb in H2 as (w2 & H2).
    exists (w1 ++ w2). eapply reads_app; eassumption.
  - destruct H as [H | H]; [apply IHa | apply IHb]; exact H.
  - destruct H as (st1 & H1 & ->). apply IHa in H1 as (w & H1).
    exists w. exact H1.
  - destruct H as (st1 & n & H1 & _ & H2).
    apply (iter_reads _ IHa) in H1 as (w1 & H1).
    apply (iter_reads (progress (run i a))) in H2 as (w2 & H2).
    + exists (w1 ++ w2). eapply reads_app; eassumption.
    + intros x y [Hxy _]. apply IHa. exact Hxy.
  - destruct H as (w & Ha & _ & _ & ->). exists w. split; simpl; auto.
  - destruct H as (_ & ->). exists []. apply reads_nil.
  - destruct H as (_ & ->). exists []. apply reads_nil.
  - destruct H as (c & pre & _ & _ & ->). exists []. apply reads_nil.
Qed.

Lemma reads_consumed (w : jsstring) (st st' : state) :
  reads w st st' -> consumed st st' = w.
Proof.
  intros [A _]. unfold consumed. rewrite A, length_app.
  replace (length w + length (after st') - length (after st'))%nat with (length w) by lia.
  rewrite firstn_app, Nat.sub_diag, firstn_all. simpl. apply app_nil_r.
Qed.

(** A match at one position, declaratively. *)
Lemma matchAt_sound (re : RegExp.t) (pre post : jsstring) (f : found) :
  matchAt re pre post = Some f ->
  exists st',
    run (ignoreCase re) (pattern re) (State pre post []) st' /\
    prefix f = pre /\ post = whole f ++ suffix f /\
    before st' = rev (whole f) ++ pre /\ after st' = suffix f /\
    groups f = captures st'.
Proof.
  unfold matchAt. intros H.
  destruct (m _ _ _ Some) as [st1|] eqn:E; [|discriminate].
  inversion H; subst; clear H. simpl.
  apply m_sound in E as (st' & Hrun & E). inversion E; subst; clear E.
  exists st1. destruct (run_reads _ _ _ _ Hrun) as (w & Hw).
  pose proof (reads_consumed Hw) as Hc. unfold consumed in Hc. simpl in Hc.
  rewrite Hc. destruct Hw as [A B]. simpl in A, B. repeat split; auto.
Qed.

(** [exec] returns a match of the pattern somewhere in the input. *)
Lemma execFrom_sound (re : RegExp.t) :
  forall post pre f,
    execFrom re pre post = Some f ->
    exists skipped st',
      post = skipped ++ whole f ++ suffix f /\
      prefix f = rev skipped ++ pre /\
      run (ignoreCase re) (pattern re)
        (State (prefix f) (whole f ++ suffix f) []) st' /\
      before st' = rev (whole f) ++ prefix f /\ after st' = suffix f /\
      groups f = captures st'.
Proof.
  induction post as [|c post IH]; intros pre f H; simpl in H.
  - destruct (matchAt re pre []) as [f0|] eqn:E; [|discriminate].
    inversion H; subst; clear H.
    apply matchAt_sound in E as (st' & Hrun & Hp & Hpost & Hb & Ha & Hg).
    exists [], st'. simpl. rewrite Hp, <- Hpost. repeat split; auto.
  - destruct (matchAt re pre (c :: post)) as [f0|] eqn:E.
    + inversion H; subst; clear H.
      apply matchAt_sound in E as (st' & Hrun & Hp & Hpost & Hb & Ha & Hg).
      exists [], st'. simpl. rewrite Hp, <- Hpost. repeat split; auto.
    + apply IH in H as (skipped & st' & Hpost & Hp & Hrun & Hb & Ha & Hg).
      exists (c :: skipped), st'. simpl. rewrite <- Hpost, <- app_assoc.
      repeat split; auto.
Qed.

Lemma run_lit (i : bool) (a : ascii) (st st' : state) :
  run i (lit a) st st' ->
  exists c, reads [c] st st' /\ captures st' = captures st /\
            classMatches i (Class false (One (N_of_ascii a))) c = true.
Proof.
  intros (c & post & Ha & Hc & ->). exists c. repeat split; auto.
Qed.

(** A literal text reads a word that matches it letter by letter. *)
Lemma run_text (i : bool) (s : string) :
  forall st st', run i (text s) st st' ->
    exists w, reads w st st' /\ captures st' = captures st /\ litMatches i s w.
Proof.
  induction s as [|a s IH]; intros st st' H.
  - simpl in H. subst. exists []. repeat split; simpl; auto.
  - destruct s as [|b s].
    + apply run_lit in H as (c & Hr & Hc & Hm). exists [c]. simpl. auto.
    + change (text (String a (String b s))) with (Seq (lit a) (text (String b s))) in H.
      destruct H as (st1 & H1 & H2).
      apply run_lit in H1 as (c & Hr & Hc & Hm).
      apply IH in H2 as (w & Hr2 & Hc2 & Hm2).
      exists (c :: w). split; [|split].
      * change (c :: w) with ([c] ++ w). eapply reads_app; eassumption.
      * rewrite Hc2. exact Hc.
      * split; assumption.
Qed.

Lemma One_matches_lower (x c : char) :
  isUpper x = false ->
  classMatches true (Class false (One x)) c = true -> lowerChar c = x.
Proof.
  unfold classMatches, csetMatches, lowerChar, upperChar, isUpper, isLower, inRange, eqc.
  simpl. intros Hx H.
  apply orb_true_iff in H.
  destruct (N.leb_spec 65 c), (N.leb_spec c 90), (N.leb_spec 97 c), (N.leb_spec c 122),
    (N.leb_spec 65 x), (N.leb_spec x 90); simpl in *; try discriminate;
    destruct H as [H | H]; apply N.eqb_eq in H; lia.
Qed.

(** Under the i flag a literal without capital letters reads the words that
    are equal to it once in lower case. *)
Lemma litMatches_lower (s : string) :
  noUpper s = true -> forall w, litMatches true s w -> toLowerCase w = str s.
Proof.
  induction s as [|a s IH]; intros Hs [|c w] H; simpl in H; try contradiction; auto.
  simpl in Hs. apply andb_true_iff in Hs as [Ha Hs]. apply negb_true_iff in Ha.
  destruct H as [Hc Hw]. simpl. f_equal; [apply One_matches_lower; assumption | auto].
Qed.

Lemma run_opt (i : bool) (a : regex) (st st' : state) :
  run i (opt a) st st' -> st' = st \/ run i a st st'.
Proof.
  intros (st1 & n & H1 & Hn & H2). simpl in H1. subst st1.
  destruct n as [|[|n]]; simpl in H2; [left; exact H2 | right | lia].
  destruct H2 as (st2 & [H2 _] & ->). exact H2.
Qed.

Lemma many_greedy_total (i : bool) (cl : cclass) (k : cont) :
  (forall st, k st <> None) ->
  forall post pre caps, many i cl true 0 pre post caps k <> None.
Proof.
  intros Hk. induction post as [|c post IH]; intros pre caps; simpl.
  - apply Hk.
  - destruct (classMatches i cl c).
    + destruct (many i cl true 0 (c :: pre) post caps k) eqn:E;
        [discriminate | apply Hk].
    + apply Hk.
Qed.

(** A greedy class quantifier in front of a continuation that cannot fail
    reads as far as the class goes. *)
Lemma many_greedy_longest (i : bool) (cl : cclass) (k : cont) :
  (forall st, k st <> None) ->
  forall post lo pre caps res,
    many i cl true lo pre post caps k = Some res ->
    exists w post',
      post = w ++ post' /\ Forall (fun c => classMatches i cl c = true) w /\
      (lo <= length w)%nat /\ k (State (rev w ++ pre) post' caps) = Some res /\
      match post' with
      | [] => True
      | c :: _ => classMatches i cl c = false
      end.
Proof.
  intros Hk. induction post as [|c post IH]; intros lo pre caps res H.
  - destruct lo; simpl in H; [|discriminate].
    exists [], []. repeat split; auto.
  - destruct (classMatches i cl c) eqn:Ec.
    + assert (E : many i cl true (pred lo) (c :: pre) post caps k = Some res).
      { destruct lo; simpl in H; rewrite Ec in H; [|exact H].
        destruct (many i cl true 0 (c :: pre) post caps k) eqn:E.
        - simpl. rewrite E. exact H.
        - exfalso. exact (@many_greedy_total i cl k Hk _ _ _ E). }
      apply IH in E as (w & post' & -> & Hw & Hlo & Hres & Hnext).
      exists (c :: w), post'. repeat split; auto.
      * simpl. lia.
      * simpl. rewrite <- app_assoc. exact Hres.
    + destruct lo; simpl in H; rewrite Ec in H; [|discriminate].
      exists [], (c :: post). repeat split; auto.
Qed.

(** The match of a greedy class quantifier that ends the pattern: the
    longest run of the class, when it is long enough. *)
Lemma many_greedy_last (i : bool) (cl : cclass) :
  forall post lo pre caps,
    many i cl true lo pre post caps Some =
    if (lo <=? length (takeWhile (classMatches i cl) post))%nat
    then Some (State (rev (takeWhile (classMatches i cl) post) ++ pre)
                 (dropWhile (classMatches i cl) post) caps)
    else None.
Proof.
  induction post as [|c post IH]; intros lo pre caps.
  - destruct lo; reflexivity.
  - destruct lo as [|lo]; simpl; destruct (classMatches i cl c) eqn:Ec; simpl;
      try reflexivity.
    + rewrite IH. simpl. rewrite <- app_assoc. reflexivity.
    + rewrite IH. destruct (lo <=? _)%nat; [|reflexivity].
      rewrite <- app_assoc. reflexivity.
Qed.

Lemma takeWhile_dropWhile (p : char -> bool) (s : jsstring) :
  takeWhile p s ++ dropWhile p s = s.
Proof.
  induction s as [|c s IH]; simpl; [reflexivity|].
  destruct (p c); simpl; [rewrite IH|]; reflexivity.
Qed.

(** One attempt of a pattern that is a single greedy class quantifier. *)
Lemma matchAt_many (cl : cclass) (lo : nat) (i : bool) (pre post : jsstring) :
  matchAt (RegExp (Many cl lo true) i) pre post =
  if (lo <=? length (takeWhile (classMatches i cl) post))%nat
  then Some (Found pre (takeWhile (classMatches i cl) post)
               (dropWhile (classMatches i cl) post) [])
  else None.
Proof.
  unfold matchAt. simpl. rewrite many_greedy_last.
  destruct (lo <=? _)%nat; [|reflexivity]. simpl. f_equal. f_equal.
  rewrite <- (takeWhile_dropWhile (classMatches i cl) post) at 1 3.
  rewrite length_app.
  replace (length (takeWhile (classMatches i cl) post) +
           length (dropWhile (classMatches i cl) post) -
           length (dropWhile (classMatches i cl) post))%nat
    with (length (takeWhile (classMatches i cl) post)) by lia.
  rewrite firstn_app, Nat.sub_diag, firstn_all. simpl. apply app_nil_r.
Qed.

(** One attempt of a pattern that is a single class. *)
Lemma matchAt_cls (cl : cclass) (i : bool) (pre post : jsstring) :
  matchAt (RegExp (Chr cl) i) pre post =
  match post with
  | c :: post' => if classMatches i cl c then Some (Found pre [c] post' []) else None
  | [] => None
  end.
Proof.
  unfold matchAt. cbn [m ignoreCase pattern after before captures].
  destruct post as [|c post]; [reflexivity|].
  destruct (classMatches i cl c); [|reflexivity].
  cbn [after]. change (length (c :: post)) with (S (length post)).
  replace (S (length post) - length post)%nat with 1%nat by lia. reflexivity.
Qed.

Lemma execFrom_cls (cl : cclass) (i : bool) (post pre : jsstring) :
  execFrom (RegExp (Chr cl) i) pre post = None <->
  Forall (fun c => classMatches i cl c = false) post.
Proof.
  revert pre. induction post as [|c post IH]; intros pre; cbn [execFrom];
    rewrite matchAt_cls.
  - split; [constructor | reflexivity].
  - destruct (classMatches i cl c) eqn:Ec.
    + split; [discriminate | intros H; inversion H; congruence].
    + rewrite IH. split; [constructor; assumption | intros H; inversion H; assumption].
Qed.

(** [test] with a pattern that is a single class: some code unit is in
    the class. *)
Lemma test_cls (cl : cclass) (i : bool) (s : jsstring) :
  test (RegExp (Chr cl) i) s = false <->
  Forall (fun c => classMatches i cl c = false) s.
Proof.
  unfold test, exec. rewrite <- (execFrom_cls cl i s []).
  destruct (execFrom _ _ _); split; congruence.
Qed.

(** *** Completeness *)

Lemma repMin_complete (ma tail : matcher) (R T : state -> state -> Prop) (lo : nat) :
  complete ma R -> complete tail T ->
  complete (repMin ma lo tail) (fun st st' => exists st1, iter R lo st st1 /\ T st1 st').
Proof.
  intros Hma Ht. induction lo as [|lo IH]; intros st st' k (st1 & Hi & HT) Hk; simpl in *.
  - subst st1. eapply Ht; eassumption.
  - destruct Hi as (st2 & HR & Hi). eapply Hma; [exact HR|].
    eapply IH; [|exact Hk]. exists st1. split; assumption.
Qed.

Lemma repOpt_complete (ma : matcher) (R : state -> state -> Prop) (g : bool) (extra : nat) :
  complete ma R ->
  complete (repOpt ma g extra)
    (fun st st' => exists n, (n <= extra)%nat /\ iter (progress R) n st st').
Proof.
  intros Hma. induction extra as [|e IH]; intros st st' k (n & Hn & Hi) Hk.
  - assert (n = 0%nat) by lia. subst n. simpl in Hi. subst st'. exact Hk.
  - cbn [repOpt]. destruct n as [|n]; simpl in Hi.
    + subst st'. destruct g.
      * destruct (ma st _); [discriminate | exact Hk].
      * destruct (k st); [discriminate | contradiction].
    + destruct Hi as (st1 & [HR Hlen] & Hi).
      assert (Hmore :
        ma st (fun st1 => if Nat.eqb (length (after st1)) (length (after st)) then None
                          else repOpt ma g e st1 k) <> None).
      { eapply Hma; [exact HR|]. apply Nat.eqb_neq in Hlen. rewrite Hlen.
        eapply IH; [|exact Hk]. exists n. split; [lia | exact Hi]. }
      destruct g.
      * destruct (ma st _); [discriminate | contradiction].
      * destruct (k st); [discriminate | exact Hmore].
Qed.

Lemma many_complete (i : bool) (cl : cclass) (g : bool) (k : cont) (post' : jsstring)
  (caps : list (nat * jsstring)) :
  forall w lo pre,
    Forall (fun c => classMatches i cl c = true) w -> (lo <= length w)%nat ->
    k (State (rev w ++ pre) post' caps) <> None ->
    many i cl g lo pre (w ++ post') caps k <> None.
Proof.
  induction w as [|c w IH]; intros lo pre Hw Hlo Hk.
  - assert (lo = 0%nat) by (simpl in Hlo; lia). subst lo. simpl in Hk. cbn [app].
    destruct post' as [|d post']; cbn [many]; destruct g.
    + exact Hk.
    + destruct (k _); [discriminate | contradiction].
    + destruct (if classMatches i cl d then _ else _); [discriminate | exact Hk].
    + destruct (k _); [discriminate | contradiction].
  - inversion Hw as [|? ? Hc Hw']; subst.
    assert (Hk' : k (State (rev w ++ c :: pre) post' caps) <> None).
    { simpl in Hk. rewrite <- app_assoc in Hk. exact Hk. }
    destruct lo as [|lo]; cbn [app many]; rewrite Hc.
    + pose proof (IH 0%nat (c :: pre) Hw' (Nat.le_0_l _) Hk') as Hmore.
      destruct g.
      * destruct (many i cl true 0 (c :: pre) (w ++ post') caps k);
          [discriminate | contradiction].
      * destruct (k (State pre (c :: w ++ post') caps)); [discriminate | exact Hmore].
    + apply IH; [exact Hw' | simpl in Hlo; lia | exact Hk'].
Qed.

(** Completeness of the matcher: where the pattern has a match that the
    continuation accepts, the matcher returns a result. *)
Lemma m_complete (i : bool) (r : regex) : complete (m i r) (run i r).
Proof.
  induction r as [|cl|a IHa b IHb|a IHa b IHb|n a IHa|a IHa lo extra g|cl lo g| | |cl];
    intros st st' k H Hk; simpl in H; cbn [m].
  - subst st'. exact Hk.
  - destruct H as (c & post & -> & -> & ->). exact Hk.
  - destruct H as (st1 & H1 & H2). eapply IHa; [exact H1|].
    eapply IHb; eassumption.
  - destruct (m i a st k) eqn:E; [discriminate|].
    destruct H as [H | H]; [exfalso; eapply IHa; eassumption | eapply IHb; eassumption].
  - destruct H as (st1 & H1 & ->). eapply IHa; [exact H1 | exact Hk].
  - destruct H as (st1 & n & H1 & Hn & H2).
    eapply (@repMin_complete _ _ _ _ lo IHa
              (@repOpt_complete (m i a) (run i a) g extra IHa)); [|exact Hk].
    exists st1. split; [exact H1|]. exists n. split; assumption.
  - destruct H as (w & Ha & Hw & Hlo & Hst). rewrite Ha.
    apply many_complete; [exact Hw | exact Hlo|]. rewrite <- Hst. exact Hk.
  - destruct H as (-> & ->). exact Hk.
  - destruct H as (-> & ->). exact Hk.
  - destruct H as (c & pre & -> & -> & ->). exact Hk.
Qed.

(** [exec] returns the first position at which the pattern matches. *)
Lemma execFrom_first (re : RegExp.t) :
  forall post pre f,
    execFrom re pre post = Some f ->
    exists skipped rest,
      post = skipped ++ rest /\
      matchAt re (rev skipped ++ pre) rest = Some f /\
      forall s1 s2, skipped = s1 ++ s2 -> s2 <> [] ->
                    matchAt re (rev s1 ++ pre) (s2 ++ rest) = None.
Proof.
  induction post as [|c post IH]; intros pre f H; cbn [execFrom] in H.
  - destruct (matchAt re pre []) eqn:E; [|discriminate]. inversion H; subst.
    exists [], []. repeat split; auto.
    intros s1 s2 Hs Hne. destruct s1; destruct s2; try discriminate. contradiction.
  - destruct (matchAt re pre (c :: post)) eqn:E.
    + inversion H; subst. exists [], (c :: post). repeat split; auto.
      intros s1 s2 Hs Hne. destruct s1; destruct s2; try discriminate. contradiction.
    + apply IH in H as (skipped & rest & -> & Hm & Hfirst).
      exists (c :: skipped), rest. split; [reflexivity|]. split.
      * simpl. rewrite <- app_assoc. exact Hm.
      * intros s1 s2 Hs Hne. destruct s1 as [|x s1].
        -- simpl in Hs. subst s2. simpl. exact E.
        -- inversion Hs; subst. simpl. rewrite <- app_assoc.
           apply Hfirst; [reflexivity | exact Hne].
Qed.

Lemma execFrom_complete (re : RegExp.t) :
  forall skipped pre rest,
    matchAt re (rev skipped ++ pre) rest <> None ->
    execFrom re pre (skipped ++ rest) <> None.
Proof.
  induction skipped as [|c skipped IH]; intros pre rest H.
  - simpl in *. destruct rest; cbn [execFrom];
      destruct (matchAt re pre _); [discriminate|contradiction|discriminate|contradiction].
  - cbn [app execFrom]. destruct (matchAt re pre _); [discriminate|].
    apply IH. simpl in H. rewrite <- app_assoc in H. exact H.
Qed.

Lemma matchAt_complete (re : RegExp.t) (pre post : jsstring) (st' : state) :
  run (ignoreCase re) (pattern re) (State pre post []) st' ->
  matchAt re pre post <> None.
Proof.
  intros H. unfold matchAt.
  pose proof (@m_complete (ignoreCase re) (pattern re) _ _ Some H) as Hc.
  destruct (m _ _ _ Some); [discriminate|]. exfalso. apply Hc; [discriminate | reflexivity].
Qed.

(** A lazy class quantifier stops at the first length that the continuation
    accepts. *)
Lemma many_lazy_first (i : bool) (cl : cclass) (k : cont) (caps : list (nat * jsstring)) :
  forall post lo pre res,
    many i cl false lo pre post caps k = Some res ->
    exists w post',
      post = w ++ post' /\ Forall (fun c => classMatches i cl c = true) w /\
      (lo <= length w)%nat /\ k (State (rev w ++ pre) post' caps) = Some res /\
      forall w1 w2, w = w1 ++ w2 -> w2 <> [] -> (lo <= length w1)%nat ->
                    k (State (rev w1 ++ pre) (w2 ++ post') caps) = None.
Proof.
  induction post as [|c post IH]; intros lo pre res H.
  - destruct lo; cbn [many] in H; [|discriminate].
    destruct (k (State pre [] caps)) eqn:E; [|discriminate].
    inversion H; subst. exists [], []. repeat split; auto.
    intros w1 w2 Hw Hne. destruct w1; destruct w2; try discriminate. contradiction.
  - assert (Hmore : forall lo',
        (if classMatches i cl c then many i cl false lo' (c :: pre) post caps k else None)
          = Some res ->
        exists w post',
          c :: post = (c :: w) ++ post' /\
          Forall (fun c => classMatches i cl c = true) (c :: w) /\
          (lo' <= length w)%nat /\
          k (State (rev (c :: w) ++ pre) post' caps) = Some res /\
          forall w1 w2, w = w1 ++ w2 -> w2 <> [] -> (lo' <= length w1)%nat ->
                        k (State (rev (c :: w1) ++ pre) (w2 ++ post') caps) = None).
    { intros lo' E. destruct (classMatches i cl c) eqn:Ec; [|discriminate].
      apply IH in E as (w & post' & -> & Hw & Hlo & Hk & Hmin).
      exists w, post'. simpl. rewrite <- !app_assoc. repeat split; auto.
      intros w1 w2 Hw12 Hne Hlen. rewrite <- app_assoc. apply Hmin; assumption. }
    destruct lo as [|lo]; cbn [many] in H.
    + destruct (k (State pre (c :: post) caps)) eqn:E.
      * inversion H; subst. exists [], (c :: post). repeat split; auto.
        intros w1 w2 Hw Hne. destruct w1; destruct w2; try discriminate. contradiction.
      * apply Hmore in H as (w & post' & Hp & Hw & Hlo & Hk & Hmin).
        exists (c :: w), post'. repeat split; auto. simpl; lia.
        intros w1 w2 Hw12 Hne Hlen. destruct w1 as [|x w1].
        -- simpl in Hw12. subst w2. simpl. simpl in Hp. rewrite <- Hp. exact E.
        -- inversion Hw12; subst. apply Hmin; auto. lia.
    + apply Hmore in H as (w & post' & Hp & Hw & Hlo & Hk & Hmin).
      exists (c :: w), post'. repeat split; auto. simpl; lia.
      intros w1 w2 Hw12 Hne Hlen. destruct w1 as [|x w1]; [simpl in Hlen; lia|].
      inversion Hw12; subst. apply Hmin; auto. simpl in Hlen. lia.
Qed.

End RegExpFacts.

(** * Properties of the sort *)

Section SortFacts.
Variable A : Type.
Variable key : A -> Q.

(** The comparator of [buildSummary]: the difference of two keys, the
    second minus the first. *)
Let byKeyDesc (a b : A) : Q := key b - key a.

Lemma positive_spec (q : Q) : positive q = true <-> 0 < q.
Proof.
  unfold positive, Qlt. simpl. rewrite Z.ltb_lt. lia.
Qed.

Lemma byKeyDesc_positive (a b : A) : positive (byKeyDesc a b) = true <-> key a < key b.
Proof. rewrite positive_spec. unfold byKeyDesc. split; intros H; lra. Qed.

Lemma insert_perm (x : A) (l : list A) : Permutation (insert byKeyDesc x l) (x :: l).
Proof.
  induction l as [|y l IH]; simpl; [reflexivity|].
  destruct (positive (byKeyDesc x y)); [|reflexivity].
  rewrite IH. apply perm_swap.
Qed.

Lemma sort_perm (l : list A) : Permutation (sort byKeyDesc l) l.
Proof.
  induction l as [|x l IH]; simpl; [reflexivity|].
  rewrite insert_perm. constructor. exact IH.
Qed.

Lemma insert_sorted (x : A) (l : list A) :
  StronglySorted (fun a b => key b <= key a) l ->
  StronglySorted (fun a b => key b <= key a) (insert byKeyDesc x l).
Proof.
  induction 1 as [|y l Hs IH Hy]; simpl.
  - constructor; constructor.
  - destruct (positive (byKeyDesc x y)) eqn:E.
    + apply byKeyDesc_positive in E. constructor; [exact IH|].
      apply (Permutation_Forall (Permutation_sym (insert_perm x l))).
      constructor; [lra | exact Hy].
    + assert (Hxy : key y <= key x).
      { destruct (Qlt_le_dec (key x) (key y)) as [Hlt | Hle]; [|exact Hle].
        apply byKeyDesc_positive in Hlt. congruence. }
      constructor; [constructor; assumption|].
      constructor; [exact Hxy|].
      eapply Forall_impl; [|exact Hy]. intros z Hz. simpl in Hz. lra.
Qed.

(** The sorted array is in descending order of key. *)
Lemma sort_sorted (l : list A) :
  StronglySorted (fun a b => key b <= key a) (sort byKeyDesc l).
Proof.
  induction l as [|x l IH]; simpl; [constructor | apply insert_sorted, IH].
Qed.

Lemma insert_stable (v : Q) (x : A) (l : list A) :
  filter (fun a => Qeq_bool (key a) v) (insert byKeyDesc x l) =
  filter (fun a => Qeq_bool (key a) v) (x :: l).
Proof.
  induction l as [|y l IH]; [reflexivity|].
  cbn [insert]. destruct (positive (byKeyDesc x y)) eqn:E; [|reflexivity].
  apply byKeyDesc_positive in E.
  cbn [filter] in *. rewrite IH.
  destruct (Qeq_bool (key x) v) eqn:Ex; [|reflexivity].
  destruct (Qeq_bool (key y) v) eqn:Ey; [|reflexivity].
  apply Qeq_bool_iff in Ex, Ey. lra.
Qed.

(** The sort is stable: the elements of one key keep their order. *)
Lemma sort_stable (v : Q) (l : list A) :
  filter (fun a => Qeq_bool (key a) v) (sort byKeyDesc l) =
  filter (fun a => Qeq_bool (key a) v) l.
Proof.
  induction l as [|x l IH]; [reflexivity|].
  cbn [sort fold_right]. fold (sort byKeyDesc l).
  rewrite insert_stable. cbn [filter]. rewrite IH. reflexivity.
Qed.
End SortFacts.

(** Sorting commutes with a map that respects the comparator. *)
Lemma sort_map (A B : Type) (f : A -> B) (cmpA : A -> A -> Q) (cmpB : B -> B -> Q) :
  (forall a b, cmpB (f a) (f b) = cmpA a b) ->
  forall l, sort cmpB (map f l) = map f (sort cmpA l).
Proof.
  intros H.
  assert (Hi : forall x l, insert cmpB (f x) (map f l) = map f (insert cmpA x l)).
  { intros x. induction l as [|y l IH]; simpl; [reflexivity|].
    rewrite H. destruct (positive (cmpA x y)); simpl; [rewrite IH|]; reflexivity. }
  induction l as [|x l IH]; simpl; [reflexivity|].
  rewrite IH. apply Hi.
Qed.

(** * Properties of the parser *)

Module ParserFacts.
Import JSString RegExp RegExpFacts Parser Spec.

Open Scope string_scope.
Open Scope list_scope.

Lemma isSpace_letter (c : char) : (65 <= c <= 122)%N -> isSpace c = false.
Proof.
  intros H. unfold isSpace, inRange, eqc.
  repeat (apply orb_false_iff; split);
    first [ apply N.eqb_neq; lia
          | apply andb_false_iff; right; apply N.leb_gt; lia
          | apply andb_false_iff; left; apply N.leb_gt; lia ].
Qed.

(** Case mapping neither makes nor unmakes white space. *)
Lemma isSpace_upperChar (c : char) : isSpace (upperChar c) = isSpace c.
Proof.
  unfold upperChar. destruct (isLower c) eqn:E; [|reflexivity].
  unfold isLower, inRange in E. apply andb_true_iff in E as [E1 E2].
  apply N.leb_le in E1, E2. rewrite !isSpace_letter; auto; lia.
Qed.

Lemma isSpace_lowerChar (c : char) : isSpace (lowerChar c) = isSpace c.
Proof.
  unfold lowerChar. destruct (isUpper c) eqn:E; [|reflexivity].
  unfold isUpper, inRange in E. apply andb_true_iff in E as [E1 E2].
  apply N.leb_le in E1, E2. rewrite !isSpace_letter; auto; lia.
Qed.

Lemma Space_matches (i : bool) (c : char) :
  classMatches i (Class false Space) c = isSpace c.
Proof.
  unfold classMatches, csetMatches; simpl. destruct i; [|reflexivity].
  rewrite isSpace_upperChar, isSpace_lowerChar. apply orb_diag.
Qed.

(** ** Skills *)

Lemma One_matches_of_lower (x c : char) :
  isUpper x = false -> lowerChar c = x ->
  classMatches true (Class false (One x)) c = true.
Proof.
  unfold classMatches, csetMatches. simpl. unfold eqc. intros Hx <-.
  rewrite N.eqb_refl. apply orb_true_r.
Qed.

Lemma litMatches_of_lower (s : string) :
  noUpper s = true -> forall w, toLowerCase w = str s -> litMatches true s w.
Proof.
  induction s as [|a s IH]; intros Hs [|c w] H; simpl in H; try discriminate;
    simpl; auto.
  simpl in Hs. apply andb_true_iff in Hs as [Ha Hs]. apply negb_true_iff in Ha.
  injection H as Hc Hw. split.
  - apply One_matches_of_lower; [exact Ha | exact Hc].
  - apply IH; assumption.
Qed.

(** A word that matches a literal is a match of its pattern. *)
Lemma text_run (i : bool) (s : string) :
  forall w pre rest caps,
    litMatches i s w ->
    run i (text s) (State pre (w ++ rest) caps) (State (rev w ++ pre) rest caps).
Proof.
  induction s as [|a s IH]; intros [|c w] pre rest caps H; simpl in H; try contradiction.
  - reflexivity.
  - destruct H as [Hc Hw]. destruct s as [|b s].
    + destruct w; [|contradiction]. cbn [text lit run].
      exists c, rest. repeat split; auto.
    + change (text (String a (String b s))) with (Seq (lit a) (text (String b s))).
      cbn [run]. exists (State (c :: pre) (w ++ rest) caps). split.
      * exists c, (w ++ rest). repeat split; auto.
      * simpl. rewrite <- app_assoc. apply IH. exact Hw.
Qed.

(** The alternatives of a list of literals. *)
Lemma alts_text_sound (i : bool) :
  forall l a st st',
    run i (alts (text a) (map text l)) st st' ->
    exists s w, In s (a :: l) /\ reads w st st' /\ captures st' = captures st /\
                litMatches i s w.
Proof.
  induction l as [|b l IH]; intros a st st' H.
  - apply run_text in H as (w & Hr & Hc & Hm). exists a, w. simpl. auto.
  - cbn [map alts] in H. destruct H as [H | H].
    + apply run_text in H as (w & Hr & Hc & Hm). exists a, w. simpl. auto.
    + apply IH in H as (s & w & Hin & H). exists s, w. split; [right; exact Hin | exact H].
Qed.

Lemma alts_text_complete (i : bool) :
  forall l a s w pre rest caps,
    In s (a :: l) -> litMatches i s w ->
    run i (alts (text a) (map text l)) (State pre (w ++ rest) caps)
      (State (rev w ++ pre) rest caps).
Proof.
  induction l as [|b l IH]; intros a s w pre rest caps Hin Hm.
  - destruct Hin as [<- | []]. apply text_run. exact Hm.
  - cbn [map alts run]. destruct Hin as [<- | Hin].
    + left. apply text_run. exact Hm.
    + right. eapply IH; eassumption.
Qed.

(** Under the i flag, the words that one of a list of lower-case literals
    reads are the words equal to one of them once in lower case. *)
Lemma lower_In (l : list string) (w : jsstring) :
  forallb noUpper l = true ->
  (In (toLowerCase w) (map str l) <-> exists s, In s l /\ litMatches true s w).
Proof.
  intros Hl. rewrite forallb_forall in Hl. rewrite in_map_iff. split.
  - intros (s & Hs & Hin). exists s. split; [exact Hin|].
    apply litMatches_of_lower; auto.
  - intros (s & Hin & Hm). exists s. split; [|exact Hin].
    symmetry. apply litMatches_lower; auto.
Qed.

Lemma m_Seq (i : bool) (a b : regex) (st : state) (k : cont) (res : state) :
  m i (Seq a b) st k = Some res ->
  exists st1, run i a st st1 /\ m i b st1 k = Some res.
Proof. intros H. exact (@m_sound i a st (fun st1 => m i b st1 k) res H). Qed.

Lemma colon_or_space (x c : char) :
  (x = 58 \/ x = 32)%N ->
  classMatches true (Class false (One x)) c = true <-> c = x.
Proof.
  intros Hx. split.
  - intros H. apply One_matches_lower in H.
    + unfold lowerChar, isUpper, inRange in H.
      destruct ((65 <=? c)%N && (c <=? 90)%N) eqn:E; [|exact H].
      apply andb_true_iff in E as [E1 E2]. apply N.leb_le in E1, E2. lia.
    + destruct Hx as [-> | ->]; reflexivity.
  - intros ->. destruct Hx as [-> | ->]; reflexivity.
Qed.

Lemma any_matches (i : bool) (c : char) :
  classMatches i (Class false (Union Space NonSpace)) c = true.
Proof.
  unfold classMatches, csetMatches. simpl.
  destruct i; [destruct (isSpace (upperChar c))|destruct (isSpace c)]; reflexivity.
Qed.

Lemma RE_SKILLS_parts :
  pattern RE_SKILLS =
  Seq (Group 1 SKILLS_LABEL)
    (Seq (star Space) (Seq (lit ":") (Seq (opt (lit " "))
       (Seq (Group 2 SKILLS_BODY) SKILLS_STOP)))).
Proof. reflexivity. Qed.

Lemma stop_sound (st st' : state) :
  run true SKILLS_STOP st st' ->
  exists stop, reads stop st st' /\ captures st' = captures st /\
               In (toLowerCase stop) (map str SKILL_STOPS).
Proof.
  intros H. apply alts_text_sound in H as (s & w & Hin & Hr & Hc & Hm).
  exists w. repeat split; [apply Hr | apply Hr | exact Hc|].
  apply (lower_In SKILL_STOPS); [reflexivity|]. exists s. split; assumption.
Qed.

Lemma stop_complete (stop rest pre : jsstring) (caps : list (nat * jsstring)) :
  In (toLowerCase stop) (map str SKILL_STOPS) ->
  run true SKILLS_STOP (State pre (stop ++ rest) caps) (State (rev stop ++ pre) rest caps).
Proof.
  intros H. apply (lower_In SKILL_STOPS) in H as (s & Hin & Hm); [|reflexivity].
  eapply alts_text_complete; eassumption.
Qed.

Lemma label_sound (st st' : state) :
  run true SKILLS_LABEL st st' ->
  exists hdr, reads hdr st st' /\ captures st' = captures st /\
              In (toLowerCase hdr) (map str SKILL_LABELS).
Proof.
  intros H. apply alts_text_sound in H as (s & w & Hin & Hr & Hc & Hm).
  exists w. repeat split; [apply Hr | apply Hr | exact Hc|].
  apply (lower_In SKILL_LABELS); [reflexivity|]. exists s. split; assumption.
Qed.

Lemma label_complete (hdr rest pre : jsstring) (caps : list (nat * jsstring)) :
  In (toLowerCase hdr) (map str SKILL_LABELS) ->
  run true SKILLS_LABEL (State pre (hdr ++ rest) caps) (State (rev hdr ++ pre) rest caps).
Proof.
  intros H. apply (lower_In SKILL_LABELS) in H as (s & Hin & Hm); [|reflexivity].
  eapply alts_text_complete; eassumption.
Qed.

(** One attempt of the skills pattern: what it reads, what group 2 holds,
    and that the body stops at the first stop after its first code unit. *)
Lemma skills_matchAt (pre text : jsstring) (f : found) :
  matchAt RE_SKILLS pre text = Some f ->
  exists hdr ws sp body stop post,
    skillsSection text [] hdr ws sp body stop post /\
    group 2 f = Some body /\
    forall b1 b2, body = b1 ++ b2 -> b1 <> [] -> b2 <> [] ->
                  ~ stopAt (b2 ++ stop ++ post).
Proof.
  unfold matchAt. intros H.
  destruct (m _ _ _ Some) as [res|] eqn:E; [|discriminate].
  inversion H; subst f; clear H. unfold group. cbn [groups].
  rewrite RE_SKILLS_parts in E. change (ignoreCase RE_SKILLS) with true in E.
  apply m_Seq in E as (st1 & (st0 & Hhdr & ->) & E).
  apply label_sound in Hhdr as (hdr & [Ah Bh] & Ch & Ih). simpl in Ah, Bh, Ch.
  apply m_Seq in E as (st2 & (ws & Aws & Fws & _ & Ews) & E).
  cbn [setCapture after before captures] in Aws, Ews.
  apply m_Seq in E as (st3 & Hcolon & E).
  apply run_lit in Hcolon as (c & [Ac Bc] & Cc & Hc).
  apply colon_or_space in Hc; [|left; reflexivity]. subst c.
  apply m_Seq in E as (st4 & Hsp & E).
  assert (Hsp' : exists sp, reads sp st3 st4 /\ captures st4 = captures st3 /\
                            (sp = [] \/ sp = [SP])).
  { apply run_opt in Hsp as [-> | Hsp].
    - exists []. split; [apply reads_nil | auto].
    - apply run_lit in Hsp as (d & Rd & Cd & Hd).
      apply colon_or_space in Hd; [|right; reflexivity]. subst d.
      exists [SP]. auto. }
  destruct Hsp' as (sp & [Asp Bsp] & Csp & Hsp').
  change (m true (Seq (Group 2 SKILLS_BODY) SKILLS_STOP) st4 Some) with
    (many true (Class false (Union Space NonSpace)) false 1
       (before st4) (after st4) (captures st4)
       (fun st5 => m true SKILLS_STOP (setCapture 2 (consumed st4 st5) st5) Some)) in E.
  apply many_lazy_first in E as (body & rest & Ab & _ & Lb & E & Hmin).
  assert (Hcons : consumed st4 (State (rev body ++ before st4) rest (captures st4)) = body).
  { apply reads_consumed. split; simpl; auto. }
  rewrite Hcons in E.
  apply m_sound in E as (st' & Hstop & E). inversion E; subst st'; clear E.
  apply stop_sound in Hstop as (stop & [As Bs] & Cs & Is).
  cbn [setCapture after before captures] in As, Bs, Cs.
  exists hdr, ws, sp, body, stop, (after res).
  split; [|split].
  - unfold skillsSection. repeat split; auto.
    + simpl. rewrite Ah, Aws, Ac, Asp, Ab, As. reflexivity.
    + clear -Fws. induction Fws as [|c ws Hc _ IH]; constructor; auto.
      rewrite Space_matches in Hc. exact Hc.
    + destruct body; [simpl in Lb; lia | discriminate].
  - rewrite Cs. simpl. reflexivity.
  - intros b1 b2 Hb Hb1 Hb2 (stop' & r & Hsr & Hin).
    assert (L1 : (1 <= length b1)%nat) by (destruct b1; [contradiction | simpl; lia]).
    specialize (Hmin b1 b2 Hb Hb2 L1). rewrite <- As in Hsr.
    unfold setCapture in Hmin. cbn [after before captures] in Hmin.
    rewrite Hsr in Hmin.
    revert Hmin. apply m_complete with (st' := State (rev stop' ++ rev b1 ++ before st4) r
      ((2%nat, consumed st4 (State (rev b1 ++ before st4) (stop' ++ r) (captures st4)))
         :: captures st4)); [|discriminate].
    apply stop_complete. exact Hin.
Qed.

(** A skills section in the text at some place makes the pattern match at
    that place. *)
Lemma skills_matchAt_complete (pre hdr ws sp body stop post : jsstring) :
  skillsSection (hdr ++ ws ++ str ":" ++ sp ++ body ++ stop ++ post)
    [] hdr ws sp body stop post ->
  matchAt RE_SKILLS pre (hdr ++ ws ++ str ":" ++ sp ++ body ++ stop ++ post) <> None.
Proof.
  intros (_ & Ih & Fws & Hsp & Hb & Is).
  set (t1 := ws ++ str ":" ++ sp ++ body ++ stop ++ post).
  set (t3 := sp ++ body ++ stop ++ post).
  set (c1 := [(1%nat, hdr)]).
  apply matchAt_complete with
    (st' := State (rev stop ++ rev body ++ rev sp ++ 58%N :: rev ws ++ rev hdr ++ pre)
              post ((2%nat, body) :: c1)).
  rewrite RE_SKILLS_parts. change (ignoreCase RE_SKILLS) with true.
  cbn [run].
  exists (State (rev hdr ++ pre) t1 c1). split.
  { exists (State (rev hdr ++ pre) t1 []). split.
    - apply label_complete. exact Ih.
    - unfold setCapture, c1. cbn [before after captures]. f_equal. f_equal. f_equal.
      symmetry. apply reads_consumed. split; reflexivity. }
  exists (State (rev ws ++ rev hdr ++ pre) (str ":" ++ t3) c1). split.
  { exists ws. cbn [before after captures]. repeat split; try reflexivity; [|lia].
    clear -Fws. induction Fws as [|c ws Hc _ IH]; constructor; auto.
    rewrite Space_matches. exact Hc. }
  exists (State (58%N :: rev ws ++ rev hdr ++ pre) t3 c1). split.
  { exists 58%N, t3. repeat split; reflexivity. }
  exists (State (rev sp ++ 58%N :: rev ws ++ rev hdr ++ pre) (body ++ stop ++ post) c1).
  split.
  { exists (State (58%N :: rev ws ++ rev hdr ++ pre) t3 c1). cbn [iter].
    destruct Hsp as [-> | ->].
    - exists 0%nat. repeat split; auto; lia.
    - exists 1%nat. split; [reflexivity|]. split; [lia|]. cbn [iter].
      eexists. split; [|reflexivity]. split.
      + exists SP, (body ++ stop ++ post). repeat split; reflexivity.
      + unfold t3. cbn [after app length]. lia. }
  exists (State (rev body ++ rev sp ++ 58%N :: rev ws ++ rev hdr ++ pre) (stop ++ post)
            ((2%nat, body) :: c1)).
  split.
  { exists (State (rev body ++ rev sp ++ 58%N :: rev ws ++ rev hdr ++ pre) (stop ++ post) c1).
    split.
    - exists body. cbn [before after captures]. repeat split; try reflexivity.
      + clear. induction body; constructor; auto. apply any_matches.
      + destruct body; [contradiction | simpl; lia].
    - unfold setCapture. cbn [before after captures]. f_equal. f_equal. f_equal.
      symmetry. apply reads_consumed. split; reflexivity. }
  apply stop_complete. exact Is.
Qed.

(** [extractSkills] does not throw: group 2 takes part in every match. *)
Lemma extractSkills_ok (text : jsstring) :
  exists l, extractSkills text = Ok l.
Proof.
  unfold extractSkills. destruct (matchFirst RE_SKILLS text) as [f|] eqn:E.
  - apply execFrom_first in E as (skipped & rest & _ & E & _).
    apply skills_matchAt in E as (hdr & ws & sp & body & stop & post & _ & -> & _).
    eexists. reflexivity.
  - eexists. reflexivity.
Qed.

(** A match of the user name pattern: the text starts with the host, in any
    case, and group 1 is the longest run after it of code units that are
    neither a slash nor white space. *)
Lemma username_shape (s : jsstring) (f : found) :
  matchFirst RE_USERNAME s = Some f ->
  exists host u rest,
    group 1 f = Some u /\ s = host ++ u ++ rest /\
    toLowerCase host = str "github.com/" /\
    u <> [] /\
    Forall (fun c => c <> 47%N /\ isSpace c = false) u /\
    match rest with
    | [] => True
    | c :: _ => c = 47%N \/ isSpace c = true
    end.
Proof.
  intros H.
  assert (Hat : matchAt RE_USERNAME [] s = Some f).
  { unfold matchFirst, exec in H. destruct s as [|c s]; cbn [execFrom] in H.
    - destruct (matchAt RE_USERNAME [] []); [exact H | discriminate].
    - destruct (matchAt RE_USERNAME [] (c :: s)) eqn:E; [exact H|].
      apply execFrom_sound in H as (skipped & st' & _ & Hp & Hrun & _).
      destruct Hrun as (st1 & [Hb _] & _). simpl in Hb. rewrite Hb in Hp.
      destruct (rev skipped); discriminate. }
  clear H. unfold matchAt in Hat.
  destruct (m _ _ _ Some) as [res|] eqn:E; [|discriminate].
  inversion Hat; subst f; clear Hat. unfold group; simpl.
  change (pattern RE_USERNAME) with
    (Seq Bol (Seq (text "github.com/")
                (Group 1 (Many (Class true (Union (chr "/") Space)) 1 true)))) in E.
  change (ignoreCase RE_USERNAME) with true in E.
  apply (@m_sound true Bol) in E as (st1 & [_ ->] & E).
  apply (@m_sound true (text "github.com/")) in E as (st2 & Hhost & E).
  apply run_text in Hhost as (host & [Ah Bh] & Ch & Mh). simpl in Ah, Bh, Ch.
  apply litMatches_lower in Mh; [|reflexivity].
  simpl in E.
  apply many_greedy_longest in E as (u & rest & Au & Fu & Lu & E & Hnext);
    [|discriminate].
  inversion E; subst res; clear E. simpl.
  assert (Hc : consumed st2 (State (rev u ++ before st2) rest (captures st2)) = u).
  { apply reads_consumed. split; simpl; auto. }
  rewrite Hc.
  assert (Hcls : forall c,
             classMatches true (Class true (Union (chr "/") Space)) c =
             negb (eqc c 47%N || isSpace c)).
  { intros c. unfold classMatches, csetMatches. simpl.
    rewrite isSpace_upperChar, isSpace_lowerChar. f_equal.
    unfold eqc, upperChar, lowerChar, isLower, isUpper, inRange.
    destruct (N.leb_spec 97 c), (N.leb_spec c 122), (N.leb_spec 65 c), (N.leb_spec c 90);
      simpl; try lia;
      repeat match goal with
        | |- context [N.eqb ?a ?b] => destruct (N.eqb_spec a b); try lia
        end; simpl; destruct (isSpace c); reflexivity. }
  exists host, u, rest. repeat split; auto.
  - rewrite Ah, Au. reflexivity.
  - destruct u; [simpl in Lu; lia | discriminate].
  - clear -Fu Hcls. induction Fu as [|c u Hc _ IH]; constructor; auto.
    rewrite Hcls in Hc. apply negb_true_iff, orb_false_iff in Hc as [Hc Hs].
    split; [apply N.eqb_neq; exact Hc | exact Hs].
  - destruct rest as [|c rest]; [exact I|].
    rewrite Hcls in Hnext. apply negb_false_iff, orb_true_iff in Hnext as [Hn | Hn].
    + left. apply N.eqb_eq. exact Hn.
    + right. exact Hn.
Qed.

(** ** Strings *)

Lemma startsWith_spec (p s : jsstring) :
  startsWith s p = true <-> exists b, s = p ++ b.
Proof.
  revert s. induction p as [|x p IH]; intros s.
  - split; [intros _; exists s; reflexivity | intros _; destruct s; reflexivity].
  - destruct s as [|y s]; simpl.
    + split; [discriminate | intros [b Hb]; discriminate].
    + rewrite andb_true_iff, IH. unfold eqc. rewrite N.eqb_eq. split.
      * intros [-> [b ->]]. exists b. reflexivity.
      * intros [b Hb]. inversion Hb; subst. split; [reflexivity | exists b; reflexivity].
Qed.

(** [includes] is the substring test. *)
Lemma includes_spec (p s : jsstring) :
  includes s p = true <-> exists a b, s = a ++ p ++ b.
Proof.
  induction s as [|c s IH]; cbn [includes]; rewrite orb_true_iff, startsWith_spec.
  - split.
    + intros [[b Hb] | H]; [exists [], b; exact Hb | discriminate].
    + intros (a & b & H). left. destruct a; [exists b; exact H|discriminate].
  - rewrite IH. split.
    + intros [[b Hb] | (a & b & ->)]; [exists [], b; exact Hb|].
      exists (c :: a), b. reflexivity.
    + intros ([|x a] & b & H); [left; exists b; exact H|].
      right. inversion H; subst. exists a, b. reflexivity.
Qed.

(** [split] with a separator of one code unit gives one piece more than
    there are separators. *)
Lemma splitAcc_length (sep : char) (s : jsstring) :
  forall cur, length (splitAcc sep cur s) = S (count_occ N.eq_dec s sep).
Proof.
  induction s as [|c s IH]; intros cur; simpl; [reflexivity|].
  unfold eqc. destruct (N.eqb_spec c sep) as [-> | Hne].
  - destruct (N.eq_dec sep sep); [|contradiction]. simpl. rewrite IH. reflexivity.
  - destruct (N.eq_dec c sep); [contradiction|]. apply IH.
Qed.

(** ** Text normalisation *)

Lemma One_matches (x c : char) :
  classMatches false (Class false (One x)) c = eqc c x.
Proof. unfold classMatches, csetMatches. simpl. destruct (eqc c x); reflexivity. Qed.

Lemma replaceFrom_CR (post pre : jsstring) :
  replaceFrom RE_CR [LF] 0 pre post = map crToLf post.
Proof.
  revert pre. induction post as [|c post IH]; intros pre; [reflexivity|].
  cbn [replaceFrom map]. unfold RE_CR at 1, cls. rewrite matchAt_cls, One_matches.
  unfold crToLf at 1. destruct (eqc c CR); cbn [whole length app]; rewrite IH; reflexivity.
Qed.

Lemma squeeze_restart (n : nat) (s : jsstring) :
  takeWhile (fun c => eqc c LF) s = [] -> squeeze n s = squeeze 0 s.
Proof.
  destruct s as [|c s]; simpl; [reflexivity|].
  destruct (eqc c LF); [discriminate | reflexivity].
Qed.

Lemma takeWhile_ext (p q : char -> bool) (s : jsstring) :
  (forall c, p c = q c) -> takeWhile p s = takeWhile q s.
Proof.
  intros H. induction s as [|c s IH]; simpl; [reflexivity|].
  rewrite H, IH. reflexivity.
Qed.

(** The second replacement, at a position outside a match and at a position
    inside the run of line feeds that was just replaced. *)
Lemma replaceFrom_NEWLINES2 (post : jsstring) :
  forall pre,
    replaceFrom RE_NEWLINES2 [LF; LF] 0 pre post = squeeze 0 post /\
    forall n, S n = length (takeWhile (fun c => eqc c LF) post) ->
              replaceFrom RE_NEWLINES2 [LF; LF] (S n) pre post = squeeze 2 post.
Proof.
  induction post as [|c post IH]; intros pre.
  - split; [reflexivity | intros n H; discriminate].
  - destruct (IH (c :: pre)) as [IH1 IH2]. split.
    + cbn [replaceFrom]. unfold RE_NEWLINES2 at 1. rewrite matchAt_many.
      rewrite (takeWhile_ext _ (fun c => eqc c LF)) by apply One_matches.
      cbn [takeWhile squeeze]. destruct (eqc c LF) eqn:Ec.
      * apply N.eqb_eq in Ec. subst c. cbn [length].
        destruct (length (takeWhile (fun c => eqc c LF) post)) as [|n] eqn:El.
        -- cbn. rewrite IH1. f_equal. symmetry. apply squeeze_restart.
           destruct (takeWhile _ post); [reflexivity | discriminate].
        -- cbn [Nat.leb whole length app]. rewrite El. rewrite (IH2 n) by reflexivity.
           destruct post as [|d post]; [discriminate|].
           cbn [takeWhile] in El. cbn [squeeze Nat.ltb Nat.leb].
           destruct (eqc d LF) eqn:Ed; [|discriminate].
           apply N.eqb_eq in Ed. subst d. reflexivity.
      * cbn. rewrite IH1. reflexivity.
    + intros n Hn. cbn [replaceFrom takeWhile squeeze] in *.
      destruct (eqc c LF) eqn:Ec; [|discriminate].
      cbn [length] in Hn. cbn [Nat.ltb Nat.leb]. destruct n as [|n].
      * rewrite IH1. symmetry. apply squeeze_restart.
        destruct (takeWhile _ post); [reflexivity | discriminate].
      * apply IH2. lia.
Qed.

(** [cleanText] without regular expressions. *)
Lemma cleanText_direct (s : jsstring) :
  cleanText s = trim (squeeze 0 (map crToLf s)).
Proof.
  unfold cleanText, replaceAll.
  rewrite replaceFrom_CR. rewrite (proj1 (replaceFrom_NEWLINES2 _ [])). reflexivity.
Qed.

Lemma squeeze_idem (s : jsstring) : forall n, squeeze n (squeeze n s) = squeeze n s.
Proof.
  induction s as [|c s IH]; intros n; simpl; [reflexivity|].
  destruct (eqc c LF) eqn:Ec.
  - destruct (n <? 2)%nat eqn:En; [|apply IH].
    simpl. rewrite Ec, En, IH. reflexivity.
  - simpl. rewrite Ec, IH. reflexivity.
Qed.

Lemma squeeze_length (s : jsstring) :
  forall n, (length (squeeze n s) <= length s)%nat.
Proof.
  induction s as [|c s IH]; intros n; simpl; [lia|].
  destruct (eqc c LF); [destruct (n <? 2)%nat|]; simpl;
    first [ specialize (IH (S n)); lia | specialize (IH n); lia | specialize (IH 0%nat); lia ].
Qed.

(** A text that [squeeze] leaves alone after [S n] line feeds is left alone
    after [n]. *)
Lemma squeeze_mono (s : jsstring) : forall n, squeeze (S n) s = s -> squeeze n s = s.
Proof.
  induction s as [|c s IH]; intros n H; simpl in *; [reflexivity|].
  destruct (eqc c LF) eqn:Ec; [|exact H].
  destruct n as [|[|n]]; cbn [Nat.ltb Nat.leb] in *.
  - inversion H as [H1]. f_equal. rewrite H1. apply IH. exact H1.
  - pose proof (squeeze_length s 2) as L. rewrite H in L. simpl in L. lia.
  - pose proof (squeeze_length s (S (S (S n)))) as L. rewrite H in L. simpl in L. lia.
Qed.

Lemma squeeze_mono0 (s : jsstring) (n : nat) : squeeze n s = s -> squeeze 0 s = s.
Proof.
  induction n as [|n IH]; intros H; [exact H|]. apply IH, squeeze_mono, H.
Qed.

Lemma squeeze_app (a y : jsstring) :
  forall n, exists n', squeeze n (a ++ y) = squeeze n a ++ squeeze n' y.
Proof.
  induction a as [|c a IH]; intros n; simpl.
  - exists n. reflexivity.
  - destruct (eqc c LF); [destruct (n <? 2)%nat|].
    + destruct (IH (S n)) as [n' ->]. exists n'. reflexivity.
    + destruct (IH n) as [n' ->]. exists n'. reflexivity.
    + destruct (IH 0%nat) as [n' ->]. exists n'. reflexivity.
Qed.

Lemma app_eq_length (A : Type) (a a' b b' : list A) :
  a ++ b = a' ++ b' -> (length a <= length a')%nat -> (length b <= length b')%nat ->
  a = a' /\ b = b'.
Proof.
  intros H La Lb.
  assert (L : length a = length a').
  { apply (f_equal (@length A)) in H. rewrite !length_app in H. lia. }
  revert a' H L La. induction a as [|x a IH]; intros [|x' a'] H L La;
    simpl in *; try discriminate; [auto|].
  inversion H; subst. destruct (IH a') as [-> ->]; auto; lia.
Qed.

(** A part of a text that [squeeze] leaves alone is left alone. *)
Lemma squeeze_infix (a y b : jsstring) :
  squeeze 0 (a ++ y ++ b) = a ++ y ++ b -> squeeze 0 y = y.
Proof.
  intros H.
  destruct (squeeze_app a (y ++ b) 0) as [n1 H1]. rewrite H1 in H.
  apply app_eq_length in H as [_ H]; [|apply squeeze_length..].
  destruct (squeeze_app y b n1) as [n2 H2]. rewrite H2 in H.
  apply app_eq_length in H as [H _]; [|apply squeeze_length..].
  apply squeeze_mono0 in H. exact H.
Qed.

Lemma squeeze_Forall (P : char -> Prop) (s : jsstring) :
  Forall P s -> forall n, Forall P (squeeze n s).
Proof.
  induction 1 as [|c s Hc _ IH]; intros n; simpl; [constructor|].
  destruct (eqc c LF); [destruct (n <? 2)%nat|]; try constructor; auto.
Qed.

Lemma dropWhile_Forall (P : char -> Prop) (p : char -> bool) (s : jsstring) :
  Forall P s -> Forall P (dropWhile p s).
Proof.
  induction 1 as [|c s Hc Hs IH]; simpl; [constructor|].
  destruct (p c); [exact IH | constructor; assumption].
Qed.

Lemma trim_Forall (P : char -> Prop) (s : jsstring) : Forall P s -> Forall P (trim s).
Proof.
  intros H. unfold trim, trimEnd, trimStart.
  apply Forall_rev, dropWhile_Forall, Forall_rev, dropWhile_Forall, H.
Qed.

(** [trimEnd] keeps a prefix and [trim] keeps a part of the text. *)
Lemma trimEnd_prefix (s : jsstring) : exists b, s = trimEnd s ++ b.
Proof.
  unfold trimEnd. exists (rev (takeWhile isSpace (rev s))).
  rewrite <- rev_app_distr, takeWhile_dropWhile, rev_involutive. reflexivity.
Qed.

Lemma trim_infix (s : jsstring) : exists a b, s = a ++ trim s ++ b.
Proof.
  unfold trim. destruct (trimEnd_prefix (trimStart s)) as [b Hb].
  exists (takeWhile isSpace s), b. rewrite <- Hb. unfold trimStart.
  symmetry. apply takeWhile_dropWhile.
Qed.

Lemma dropWhile_head (p : char -> bool) (s : jsstring) :
  match dropWhile p s with
  | [] => True
  | c :: _ => p c = false
  end.
Proof.
  induction s as [|c s IH]; simpl; [exact I|].
  destruct (p c) eqn:E; [exact IH | exact E].
Qed.

Lemma dropWhile_fix (p : char -> bool) (s : jsstring) :
  match s with [] => True | c :: _ => p c = false end -> dropWhile p s = s.
Proof. destruct s as [|c s]; simpl; [reflexivity|]. intros ->. reflexivity. Qed.

Lemma dropWhile_idem (p : char -> bool) (s : jsstring) :
  dropWhile p (dropWhile p s) = dropWhile p s.
Proof. apply dropWhile_fix, dropWhile_head. Qed.

Lemma trimEnd_idem (s : jsstring) : trimEnd (trimEnd s) = trimEnd s.
Proof. unfold trimEnd. rewrite rev_involutive, dropWhile_idem. reflexivity. Qed.

Lemma trim_idem (s : jsstring) : trim (trim s) = trim s.
Proof.
  unfold trim at 1. fold (trim s).
  assert (H : trimStart (trim s) = trim s).
  { unfold trim. apply dropWhile_fix.
    pose proof (dropWhile_head isSpace s) as Hh. fold (trimStart s) in Hh.
    destruct (trimEnd_prefix (trimStart s)) as [b Hb].
    destruct (trimEnd (trimStart s)) as [|c z]; [exact I|].
    rewrite Hb in Hh. exact Hh. }
  rewrite H. unfold trim. apply trimEnd_idem.
Qed.

Lemma crToLf_Forall (s : jsstring) : Forall (fun c => c <> CR) (map crToLf s).
Proof.
  induction s as [|c s IH]; simpl; constructor; [|exact IH].
  unfold crToLf, eqc. destruct (N.eqb_spec c CR); [discriminate | assumption].
Qed.

Lemma crToLf_fix (s : jsstring) : Forall (fun c => c <> CR) s -> map crToLf s = s.
Proof.
  induction 1 as [|c s Hc _ IH]; simpl; [reflexivity|].
  rewrite IH. f_equal. unfold crToLf, eqc.
  destruct (N.eqb_spec c CR); [contradiction | reflexivity].
Qed.

(** ** Name *)

Lemma Digit_matches (c : char) : classMatches false (Class false Digit) c = isDigit c.
Proof. unfold classMatches, csetMatches. simpl. destruct (isDigit c); reflexivity. Qed.

(** The test of one line, as a proposition on the trimmed line. *)
Lemma nameOfLine_nameLine (line : jsstring) :
  match nameOfLine line with
  | Some t => t = trim line /\ nameLine t
  | None => ~ nameLine (trim line)
  end.
Proof.
  unfold nameOfLine, nameLine. set (t := trim line). clearbody t.
  destruct t as [|c0 t0]; [cbn; intros [H _]; congruence|].
  cbn [truthy negb]. set (t := c0 :: t0).
  destruct (Nat.ltb_spec 60 (length t)) as [Hlen | Hlen];
    [intros (_ & H & _); lia|].
  destruct (test RE_DIGIT t) eqn:Ed.
  { intros (_ & _ & H & _).
    assert (E : test RE_DIGIT t = false); [|congruence].
    apply test_cls. eapply Forall_impl; [|exact H].
    intros c Hc. rewrite Digit_matches. exact Hc. }
  apply test_cls in Ed.
  assert (Hd : Forall (fun c => isDigit c = false) t).
  { eapply Forall_impl; [|exact Ed]. intros c Hc. cbv beta in Hc.
    rewrite <- Digit_matches. exact Hc. }
  destruct (includes (toLowerCase t) (str "curriculum vitae")) eqn:Ecv.
  { intros (_ & _ & _ & H & _). apply H, includes_spec. exact Ecv. }
  assert (Hcv : ~ exists a b, toLowerCase t = a ++ str "curriculum vitae" ++ b).
  { intros H. apply includes_spec in H. congruence. }
  unfold splitOn. rewrite splitAcc_length.
  destruct (Nat.leb_spec (S (count_occ N.eq_dec t SP)) 5) as [Hw | Hw].
  - split; [reflexivity|]. repeat split; auto; [discriminate | lia].
  - intros (_ & _ & _ & _ & H). lia.
Qed.

(** ** Score *)

Lemma keyword_points (p : jsstring -> bool) (l : list jsstring) :
  forall init : Q,
    fold_left (fun score keyword => if p keyword then score + 2 else score) l init ==
    init + 2 * inject_Z (Z.of_nat (length (filter p l))).
Proof.
  induction l as [|k l IH]; intros init; cbn [fold_left filter].
  - cbn [length]. change (inject_Z (Z.of_nat 0)) with 0. lra.
  - rewrite IH. destruct (p k); [|reflexivity].
    cbn [length]. rewrite Nat2Z.inj_succ. unfold Z.succ. rewrite inject_Z_plus.
    change (inject_Z 1) with 1. lra.
Qed.

(** ** Summary *)

(** The ranking of [buildSummary]: the sentences sorted by their scores. *)
Lemma buildSummary_sorted (sentences : list jsstring) :
  buildSummary sentences =
  firstn 4 (sort (fun a b => scoreSentence b - scoreSentence a) sentences).
Proof.
  unfold buildSummary.
  rewrite (@sort_map _ _ (fun sentence => (sentence, scoreSentence sentence))
             (fun a b => scoreSentence b - scoreSentence a) byScoreDesc)
    by reflexivity.
  rewrite firstn_map, map_map. cbn [fst]. rewrite map_id.
  destruct sentences as [|x l]; [reflexivity|].
  cbn [length Nat.eqb].
  set (ranked := sort _ (x :: l)).
  assert (Hlen : length ranked = S (length l)).
  { unfold ranked. rewrite (Permutation_length (sort_perm scoreSentence (x :: l))).
    reflexivity. }
  destruct ranked as [|y ranked]; [discriminate | reflexivity].
Qed.

Close Scope string_scope.

End ParserFacts.

(** * The properties of the specification *)

Import JSString RegExp RegExpFacts Parser Spec ParserFacts.

Open Scope string_scope.
Open Scope list_scope.

(** The scenario of section 8 of the specification, evaluated. *)
Example parseResumeText_scenario :
  exists r,
    parseResumeText
      (str "Jane Doe" ++ [LF] ++ str "Senior Backend Engineer" ++ [LF] ++
       str "Contact: jane.doe@example.com, (415) 555-2671" ++ [LF] ++
       str "https://github.com/janedoe" ++ [LF] ++
       str "Skills: Go, Kubernetes, PostgreSQL" ++ [LF] ++
       str "Experience: Led migration of billing service, improved throughput by 40%.")
      = Ok r /\
    name r = Some (str "Jane Doe") /\
    headline r = Some (str "Senior Backend Engineer") /\
    emails r = [str "jane.doe@example.com"] /\
    phones r = [str "(415) 555-2671"] /\
    githubUsername r = Some (str "janedoe") /\
    githubUrl r = Some (str "https://github.com/janedoe") /\
    skills r = [str "Go"; str "Kubernetes"; str "PostgreSQL"] /\
    length (summary r) = 1%nat.
Proof.
  eexists. split; [vm_compute; reflexivity|]. cbv beta iota.
  split; [reflexivity|]. split; [reflexivity|]. split; [reflexivity|].
  split; [reflexivity|]. split; [reflexivity|]. split; [reflexivity|].
  split; reflexivity.
Qed.

(** C4: [parseResumeText] is total and does not throw: every string,
    the empty one included, is mapped to a [ParsedResume], and what the text
    does not hold is a null or an empty field; on the empty string every
    field is null or empty. *)
Theorem parseResumeText_total :
  (forall s : jsstring, exists r : ParsedResume, parseResumeText s = Ok r) /\
  parseResumeText [] =
    Ok {| name := None; headline := None; githubUrl := None;
          githubUsername := None; emails := []; phones := []; skills := [];
          summary := []; rawText := [] |}.
Proof.
  split.
  - intros s. unfold parseResumeText.
    destruct (extractSkills_ok (cleanText s)) as [l ->].
    unfold bind. eexists. reflexivity.
  - vm_compute. reflexivity.
Qed.

(** X22: a non-null [githubUsername] is not empty and holds neither a slash
    nor white space, and [githubUrl] is the host followed by this one
    segment.  The user name is read after the host in the raw link once the
    first scheme and the first www. of the link are removed, wherever they
    stand: it goes up to the end, a slash or white space. *)
Theorem githubUsername_one_segment (text : jsstring) (r : ParsedResume) (u : jsstring) :
  parseResumeText text = Ok r ->
  githubUsername r = Some u ->
  u <> [] /\
  Forall (fun c => c <> 47%N /\ isSpace c = false) u /\
  githubUrl r = Some (str "https://github.com/" ++ u) /\
  exists raw host rest,
    extractRawGithubUrl (rawText r) = Some raw /\
    replaceFirst RE_WWW [] (replaceFirst RE_SCHEME [] raw) = host ++ u ++ rest /\
    toLowerCase host = str "github.com/" /\
    match rest with
    | [] => True
    | c :: _ => c = 47%N \/ isSpace c = true
    end.
Proof.
  intros H Hu. unfold parseResumeText in H.
  destruct (extractSkills (cleanText text)) as [l|e]; unfold bind in H; [|discriminate].
  inversion H; subst r; clear H. cbn [githubUsername githubUrl rawText] in *.
  rewrite Hu. unfold extractGithubUsername in Hu.
  destruct (extractRawGithubUrl (cleanText text)) as [raw|]; [|discriminate].
  destruct (truthy (Some raw)); [|discriminate].
  destruct (matchFirst RE_USERNAME _) as [f|] eqn:E; [|discriminate].
  apply username_shape in E as (host & u' & rest & Hg & Hs & Hh & Hne & Hall & Hnext).
  rewrite Hg in Hu. inversion Hu; subst u'; clear Hu.
  repeat split; auto.
  exists raw, host, rest. repeat split; auto.
Qed.

Lemma githubUsername_one_segment_witness :
  exists r,
    parseResumeText (str "Code: https://www.github.com/janedoe/resume).") = Ok r /\
    githubUsername r = Some (str "janedoe") /\
    githubUrl r = Some (str "https://github.com/janedoe").
Proof.
  eexists. split; [vm_compute; reflexivity|]. split; [reflexivity|].
  eapply (@githubUsername_one_segment
            (str "Code: https://www.github.com/janedoe/resume).") _ (str "janedoe")).
  - vm_compute. reflexivity.
  - reflexivity.
Defined.

(** C8: text normalisation is idempotent: normalising a normalised text
    returns it unchanged. *)
Theorem cleanText_idempotent (s : jsstring) : cleanText (cleanText s) = cleanText s.
Proof.
  rewrite !cleanText_direct.
  set (x := squeeze 0 (map crToLf s)).
  assert (Hcr : Forall (fun c => c <> CR) (trim x)).
  { apply trim_Forall, squeeze_Forall, crToLf_Forall. }
  rewrite (crToLf_fix Hcr).
  assert (Hsq : squeeze 0 (trim x) = trim x).
  { destruct (trim_infix x) as (a & b & Hx).
    apply (@squeeze_infix a (trim x) b). rewrite <- Hx. apply squeeze_idem. }
  rewrite Hsq. apply trim_idem.
Qed.

(** C7: summary selection sorts the sentences in descending order of score,
    keeps the order of tokenisation among sentences of equal score, and
    returns the first four; no sentence gives no summary, and the summary of
    a resume has at most four sentences. *)
Theorem buildSummary_top4 :
  (forall sentences : list jsstring,
     exists ranked,
       Permutation ranked sentences /\
       StronglySorted (fun a b => scoreSentence b <= scoreSentence a) ranked /\
       (forall v, filter (fun s => Qeq_bool (scoreSentence s) v) ranked =
                  filter (fun s => Qeq_bool (scoreSentence s) v) sentences) /\
       buildSummary sentences = firstn 4 ranked /\
       (length (buildSummary sentences) <= 4)%nat) /\
  buildSummary [] = [] /\
  (forall text r, parseResumeText text = Ok r -> (length (summary r) <= 4)%nat).
Proof.
  assert (Hall : forall sentences : list jsstring,
     exists ranked,
       Permutation ranked sentences /\
       StronglySorted (fun a b => scoreSentence b <= scoreSentence a) ranked /\
       (forall v, filter (fun s => Qeq_bool (scoreSentence s) v) ranked =
                  filter (fun s => Qeq_bool (scoreSentence s) v) sentences) /\
       buildSummary sentences = firstn 4 ranked /\
       (length (buildSummary sentences) <= 4)%nat).
  { intros sentences.
    exists (sort (fun a b => scoreSentence b - scoreSentence a) sentences).
    split; [apply sort_perm|]. split; [apply sort_sorted|].
    split; [intros v; apply sort_stable|].
    split; [apply buildSummary_sorted|].
    rewrite buildSummary_sorted. apply firstn_le_length. }
  split; [exact Hall|]. split; [reflexivity|].
  intros text r H. unfold parseResumeText in H.
  destruct (extractSkills (cleanText text)) as [l|e]; unfold bind in H; [|discriminate].
  inversion H; subst r; clear H. cbn [summary].
  destruct (Hall (tokenizeSentences (cleanText text))) as (ranked & _ & _ & _ & _ & Hlen).
  exact Hlen.
Qed.

Lemma buildSummary_top4_witness :
  exists r,
    parseResumeText
      (str "Built it. Led a team of 5. Improved speed by 40%. Ok. Launched v2. Done.") = Ok r /\
    (length (summary r) <= 4)%nat.
Proof.
  eexists. split; [vm_compute; reflexivity|].
  apply (proj2 (proj2 buildSummary_top4)
           (str "Built it. Led a team of 5. Improved speed by 40%. Ok. Launched v2. Done.")).
  vm_compute. reflexivity.
Defined.

(** C9, as the code has it: name extraction returns the trimmed content of
    the first line whose trimmed content is not empty, has at most 60 code
    units, holds no digit, does not hold the phrase curriculum vitae in any
    case, and holds at most 4 spaces, so that splitting it at every single
    space gives at most 5 pieces; it returns null exactly when no line is
    such a line. *)
Theorem extractName_first_line (lines : list jsstring) :
  match extractName lines with
  | Some t =>
      exists pre line post,
        lines = pre ++ line :: post /\ t = trim line /\ nameLine t /\
        Forall (fun l => ~ nameLine (trim l)) pre
  | None => Forall (fun l => ~ nameLine (trim l)) lines
  end.
Proof.
  induction lines as [|line rest IH]; cbn [extractName]; [constructor|].
  pose proof (nameOfLine_nameLine line) as Hl.
  destruct (nameOfLine line) as [t|].
  - destruct Hl as [-> Hn]. exists [], line, rest.
    split; [reflexivity|]. split; [reflexivity|]. split; [exact Hn | constructor].
  - destruct (extractName rest) as [t|].
    + destruct IH as (pre & l & post & -> & -> & Hn & Hpre).
      exists (line :: pre), l, post.
      split; [reflexivity|]. split; [reflexivity|].
      split; [exact Hn | constructor; assumption].
    + constructor; assumption.
Qed.

(** C9 fails as the specification words it: a line of four words separated
    by two spaces each is a name line for the specification and is not one
    for the code, which counts the pieces between single spaces. *)
Lemma extractName_counts_spaces :
  extractName [str "Dr  Jane  Q  Doe"] = None /\
  spec_extractName [str "Dr  Jane  Q  Doe"] = Some (str "Dr  Jane  Q  Doe") /\
  extractName [str "Dr  Jane  Q  Doe"] <> spec_extractName [str "Dr  Jane  Q  Doe"].
Proof. repeat split; vm_compute; congruence. Qed.

(** C6, as the code has it: the score holds 2 points for each keyword of
    the vocabulary that occurs in the sentence as a substring, in any case,
    however many times it occurs; to these are added the length score and
    the two bonus points. *)
Theorem scoreSentence_keywords (sentence : jsstring) :
  scoreSentence sentence ==
    2 * inject_Z (Z.of_nat (length (keywordsFound sentence)))
    + Qmin (inject_Z (Z.of_nat (length sentence)) / 10) 10
    + (if test RE_BULLET sentence then 1 else 0)
    + (if includes sentence (str "%") || isSome (matchFirst RE_NUMBER sentence)
       then 1 else 0) /\
  (forall keyword,
      In keyword (keywordsFound sentence) <->
      In keyword SUMMARY_KEYWORDS /\
      exists a b, toLowerCase sentence = a ++ keyword ++ b) /\
  (length (keywordsFound sentence) <= 16)%nat.
Proof.
  split; [|split].
  - unfold scoreSentence. cbv zeta.
    destruct (test RE_BULLET sentence);
      destruct (includes sentence (str "%") || isSome (matchFirst RE_NUMBER sentence));
      rewrite keyword_points;
      change (filter _ SUMMARY_KEYWORDS) with (keywordsFound sentence);
      generalize (inject_Z (Z.of_nat (length (keywordsFound sentence))));
      generalize (Qmin (inject_Z (Z.of_nat (length sentence)) / 10) 10);
      intros lengthScore found; lra.
  - intros keyword. unfold keywordsFound. rewrite filter_In, includes_spec. tauto.
  - unfold keywordsFound.
    pose proof (filter_length_le
                  (fun keyword => includes (toLowerCase sentence) keyword)
                  SUMMARY_KEYWORDS) as H.
    exact H.
Qed.

(** C6 fails as the specification words it: a sentence that holds one
    keyword twice gets 2 points for it, not 4. *)
Lemma scoreSentence_counts_keywords_once :
  scoreSentence (str "led led") == 27 # 10 /\
  spec_scoreSentence (str "led led") == 47 # 10 /\
  ~ scoreSentence (str "led led") == spec_scoreSentence (str "led led").
Proof.
  repeat split; try (vm_compute; reflexivity).
  intros H. vm_compute in H. discriminate.
Qed.

Lemma app_split_longer (A : Type) (a a' b b' : list A) :
  a ++ b = a' ++ b' -> (length a' < length a)%nat ->
  exists s2, a = a' ++ s2 /\ s2 <> [] /\ b' = s2 ++ b.
Proof.
  revert a. induction a' as [|x a' IH]; intros a H L.
  - exists a. simpl in *. repeat split; auto. destruct a; [simpl in L; lia | discriminate].
  - destruct a as [|y a]; [simpl in L; lia|]. simpl in H. inversion H; subst.
    destruct (IH a H2) as (s2 & -> & Hne & ->); [simpl in L; lia|].
    exists s2. repeat split; auto.
Qed.

(** C5, as the code has it: the skills extractor matches a label of the
    fixed set, in any case, only where white space (possibly none) and then a
    colon follow it; the colon is required and one space may follow it.  It
    takes the first such place of the text, captures a body of at least one
    code unit up to the first blank line or stop word after the first code
    unit of the body, and returns the tokens of that body; where the text
    has no such section it returns an empty sequence. *)
Theorem extractSkills_section (text : jsstring) :
  ((~ exists pre hdr ws sp body stop post,
        skillsSection text pre hdr ws sp body stop post) ->
   extractSkills text = Ok []) /\
  ((exists pre hdr ws sp body stop post,
       skillsSection text pre hdr ws sp body stop post) ->
   exists pre hdr ws sp body stop post,
     skillsSection text pre hdr ws sp body stop post /\
     extractSkills text = Ok (skillTokens body) /\
     (forall b1 b2, body = b1 ++ b2 -> b1 <> [] -> b2 <> [] ->
                    ~ stopAt (b2 ++ stop ++ post)) /\
     (forall pre' hdr' ws' sp' body' stop' post',
         skillsSection text pre' hdr' ws' sp' body' stop' post' ->
         (length pre <= length pre')%nat)).
Proof.
  assert (Hfound : forall f, matchFirst RE_SKILLS text = Some f ->
    exists pre hdr ws sp body stop post,
     skillsSection text pre hdr ws sp body stop post /\
     extractSkills text = Ok (skillTokens body) /\
     (forall b1 b2, body = b1 ++ b2 -> b1 <> [] -> b2 <> [] ->
                    ~ stopAt (b2 ++ stop ++ post)) /\
     (forall pre' hdr' ws' sp' body' stop' post',
         skillsSection text pre' hdr' ws' sp' body' stop' post' ->
         (length pre <= length pre')%nat)).
  { intros f E. unfold extractSkills. rewrite E.
    apply execFrom_first in E as (skipped & rest & Ht & E & Hfirst).
    rewrite app_nil_r in E.
    pose proof E as E'.
    apply skills_matchAt in E' as (hdr & ws & sp & body & stop & post & Hsec & -> & Hmin).
    exists skipped, hdr, ws, sp, body, stop, post.
    destruct Hsec as (Hr & Hsec). simpl in Hr.
    split; [|split; [reflexivity | split; [exact Hmin|]]].
    - split; [rewrite Ht, Hr; reflexivity | exact Hsec].
    - intros pre' hdr' ws' sp' body' stop' post' (Ht' & Hsec').
      destruct (Nat.le_gt_cases (length skipped) (length pre')) as [Hle | Hgt];
        [exact Hle | exfalso].
      rewrite Ht in Ht'.
      destruct (app_split_longer _ _ _ _ Ht' Hgt) as (s2 & Hs & Hne & Hrest).
      specialize (Hfirst pre' s2 Hs Hne). rewrite app_nil_r, <- Hrest in Hfirst.
      revert Hfirst. apply skills_matchAt_complete.
      split; [reflexivity | exact Hsec']. }
  split.
  - intros Hno. unfold extractSkills.
    destruct (matchFirst RE_SKILLS text) as [f|] eqn:E; [|reflexivity].
    exfalso. apply Hno.
    destruct (Hfound f eq_refl) as (pre & hdr & ws & sp & body & stop & post & Hsec & _).
    exists pre, hdr, ws, sp, body, stop, post. exact Hsec.
  - intros (pre & hdr & ws & sp & body & stop & post & Ht & Hsec).
    destruct (matchFirst RE_SKILLS text) as [f|] eqn:E; [exact (Hfound f eq_refl)|].
    exfalso. revert E. unfold matchFirst, exec. rewrite Ht.
    apply execFrom_complete. rewrite app_nil_r.
    apply skills_matchAt_complete. split; [reflexivity | exact Hsec].
Qed.

Lemma extractSkills_section_witness :
  exists pre hdr ws sp body stop post,
    skillsSection (str "Skills: Go, Rust" ++ [LF; LF] ++ str "Bio")
      pre hdr ws sp body stop post /\
    extractSkills (str "Skills: Go, Rust" ++ [LF; LF] ++ str "Bio") =
      Ok (skillTokens body).
Proof.
  destruct (proj2 (extractSkills_section (str "Skills: Go, Rust" ++ [LF; LF] ++ str "Bio")))
    as (pre & hdr & ws & sp & body & stop & post & Hsec & Hres & _).
  - exists [], (str "Skills"), [], [SP], (str "Go, Rust"), [LF; LF], (str "Bio").
    unfold skillsSection. repeat split.
    + simpl. auto.
    + constructor.
    + right. reflexivity.
    + discriminate.
    + simpl. auto.
  - exists pre, hdr, ws, sp, body, stop, post. split; assumption.
Defined.

(** C5 fails as the specification words it: a label that no colon follows is
    not matched, and the section under it is not extracted. *)
Lemma extractSkills_colon_required :
  extractSkills (str "Skills" ++ [LF] ++ str "Go, Rust" ++ [LF; LF] ++ str "Bio") = Ok [] /\
  spec_extractSkills (str "Skills" ++ [LF] ++ str "Go, Rust" ++ [LF; LF] ++ str "Bio") =
    Ok [str "Go"; str "Rust"] /\
  extractSkills (str "Skills" ++ [LF] ++ str "Go, Rust" ++ [LF; LF] ++ str "Bio") <>
  spec_extractSkills (str "Skills" ++ [LF] ++ str "Go, Rust" ++ [LF; LF] ++ str "Bio").
Proof. repeat split; vm_compute; congruence. Qed.

(** C1, on the code: two occurrences of one address that differ in case are
    two values of the Set, and both are in [emails] once in lower case. *)
Lemma emails_keep_case_variants :
  exists r,
    parseResumeText (str "Mail Jane@Example.com or jane@example.com") = Ok r /\
    emails r = [str "jane@example.com"; str "jane@example.com"].
Proof. eexists. split; vm_compute; reflexivity. Qed.

(** C10, on the code: the www. that is removed is the first one of the link,
    not the one before the host.  In a link without www. before the host and
    with www. in its first path segment, the user name is the segment with
    its www. cut out: a text that is not a path segment of the link and
    occurs nowhere in the resume. *)
Lemma githubUsername_drops_www_of_path :
  exists r,
    parseResumeText (str "Profile: https://github.com/awww.x") = Ok r /\
    githubUsername r = Some (str "ax") /\
    githubUrl r = Some (str "https://github.com/ax") /\
    includes (rawText r) (str "awww.x") = true /\
    includes (rawText r) (str "ax") = false.
Proof. eexists. split; [vm_compute; reflexivity|]. repeat split. Qed.

(** C2, on the code: the phones are not de-duplicated; a number written
    twice is in [phones] twice. *)
Lemma phones_keep_repeated_numbers :
  exists r,
    parseResumeText (str "Home 415-555-2671, work 415-555-2671") = Ok r /\
    phones r = [str "415-555-2671"; str "415-555-2671"].
Proof. eexists. split; vm_compute; reflexivity. Qed.

(** C3, on the code: the line feed of a CR-LF pair stays after the carriage
    return has become a line feed, so the pair becomes a blank line; the text
    with CR-LF line endings and the same text with LF line endings are
    normalised to different texts, and the headline under the name is lost. *)
Lemma cleanText_CRLF_becomes_blank_line :
  cleanText (str "Jane Doe" ++ [CR; LF] ++ str "Engineer") =
    str "Jane Doe" ++ [LF; LF] ++ str "Engineer" /\
  cleanText (str "Jane Doe" ++ [LF] ++ str "Engineer") =
    str "Jane Doe" ++ [LF] ++ str "Engineer" /\
  (exists r, parseResumeText (str "Jane Doe" ++ [CR; LF] ++ str "Engineer") = Ok r /\
             headline r = None) /\
  (exists r, parseResumeText (str "Jane Doe" ++ [LF] ++ str "Engineer") = Ok r /\
             headline r = Some (str "Engineer")).
Proof.
  split; [vm_compute; reflexivity|]. split; [vm_compute; reflexivity|].
  split; eexists; split; vm_compute; reflexivity.
Qed.

(** * Further properties of the parser *)

Import Direct.

(** ** Normalised texts *)

Lemma includes_cons_false (c : char) (s p : jsstring) :
  includes (c :: s) p = false -> includes s p = false.
Proof. cbn [includes]. intros H. apply orb_false_iff in H as [_ H]. exact H. Qed.

Lemma includes_app_false (a s p : jsstring) :
  includes (a ++ s) p = false -> includes s p = false.
Proof.
  induction a as [|c a IH]; intros H; [exact H|].
  apply IH. eapply includes_cons_false. exact H.
Qed.

Lemma includes_infix_false (a y b p : jsstring) :
  includes (a ++ y ++ b) p = false -> includes y p = false.
Proof.
  intros H. destruct (includes y p) eqn:E; [|reflexivity].
  apply includes_spec in E as (u & v & ->).
  assert (T : includes (a ++ (u ++ p ++ v) ++ b) p = true); [|congruence].
  apply includes_spec. exists (a ++ u), (v ++ b).
  rewrite <- !app_assoc. reflexivity.
Qed.

Lemma eqc_sym (a b : char) : eqc a b = eqc b a.
Proof. apply N.eqb_sym. Qed.

(** [squeeze] leaves no three line feeds in a row, counting the line feeds
    already written. *)
Lemma squeeze_no_LF3 (t : jsstring) :
  forall n, (n <= 2)%nat -> includes (repeat LF n ++ squeeze n t) LF3 = false.
Proof.
  induction t as [|c t IH]; intros n Hn.
  - destruct n as [|[|[|n]]]; [reflexivity..|lia].
  - cbn [squeeze]. destruct (eqc c LF) eqn:Ec.
    + apply N.eqb_eq in Ec. subst c.
      destruct n as [|[|[|n]]]; cbn [Nat.ltb Nat.leb]; try lia.
      * apply (IH 1%nat). lia.
      * apply (IH 2%nat). lia.
      * apply (IH 2%nat). lia.
    + pose proof (IH 0%nat (Nat.le_0_l _)) as H0. cbn [repeat app] in H0.
      assert (Ec' : eqc LF c = false) by (rewrite eqc_sym; exact Ec).
      destruct n as [|[|[|n]]]; try lia; cbn [repeat app includes startsWith LF3];
        rewrite ?Ec, ?Ec', ?H0; cbn; rewrite ?Ec, ?Ec', ?andb_false_r; reflexivity.
Qed.

(** A text without three line feeds in a row is left alone by [squeeze]. *)
Lemma squeeze_fix (t : jsstring) :
  forall n, (n <= 2)%nat -> includes (repeat LF n ++ t) LF3 = false -> squeeze n t = t.
Proof.
  induction t as [|c t IH]; intros n Hn H; [reflexivity|].
  cbn [squeeze]. destruct (eqc c LF) eqn:Ec.
  - apply N.eqb_eq in Ec. subst c.
    destruct n as [|[|[|n]]]; cbn [Nat.ltb Nat.leb]; try lia.
    + f_equal. apply (IH 1%nat); [lia | exact H].
    + f_equal. apply (IH 2%nat); [lia | exact H].
    + exfalso.
      assert (T : includes (repeat LF 2 ++ LF :: t) LF3 = true); [|congruence].
      apply includes_spec. exists [], t. reflexivity.
  - f_equal. apply (IH 0%nat); [lia|]. cbn [repeat app].
    apply includes_app_false in H. eapply includes_cons_false. exact H.
Qed.

Lemma noEdgeSpace_trim (s : jsstring) : noEdgeSpace (trim s).
Proof.
  split; intros c t' H.
  - pose proof (dropWhile_head isSpace (trim s)) as Hh.
    assert (E : dropWhile isSpace (trim s) = trim s).
    { change (trimStart (trim s) = trim s).
      pose proof (trim_idem s) as Hi. unfold trim at 1 in Hi.
      pose proof (dropWhile_head isSpace s) as H1. fold (trimStart s) in H1.
      unfold trim. apply dropWhile_fix.
      destruct (trimEnd_prefix (trimStart s)) as [b Hb].
      destruct (trimEnd (trimStart s)) as [|d z]; [exact I|].
      rewrite Hb in H1. exact H1. }
    rewrite E, H in Hh. exact Hh.
  - unfold trim, trimEnd in H.
    pose proof (dropWhile_head isSpace (rev (trimStart s))) as Hh.
    apply (f_equal (@rev char)) in H. rewrite rev_involutive, rev_app_distr in H.
    simpl in H. rewrite H in Hh. exact Hh.
Qed.

Lemma trim_fix (t : jsstring) : noEdgeSpace t -> trim t = t.
Proof.
  intros [Hh Hl]. unfold trim, trimStart, trimEnd.
  rewrite (dropWhile_fix isSpace t).
  - rewrite dropWhile_fix; [apply rev_involutive|].
    destruct (rev t) as [|c r] eqn:E; [exact I|].
    apply (Hl c (rev r)). rewrite <- (rev_involutive t), E. reflexivity.
  - destruct t as [|c t']; [exact I|]. apply (Hh c t'). reflexivity.
Qed.

(** X1: a normalised text holds no carriage return and no three line feeds
    in a row, and neither starts nor ends with white space. *)
Theorem cleanText_normal_form (s : jsstring) :
  Forall (fun c => c <> CR) (cleanText s) /\
  includes (cleanText s) LF3 = false /\
  noEdgeSpace (cleanText s).
Proof.
  rewrite cleanText_direct. split; [|split].
  - apply trim_Forall, squeeze_Forall, crToLf_Forall.
  - destruct (trim_infix (squeeze 0 (map crToLf s))) as (a & b & H).
    apply (includes_infix_false a _ b). rewrite <- H.
    apply (@squeeze_no_LF3 (map crToLf s) 0%nat). lia.
  - apply noEdgeSpace_trim.
Qed.

(** X2: a text that holds no carriage return and no three line feeds in a
    row, and neither starts nor ends with white space, is its own normal
    form. *)
Theorem cleanText_fixed_point (t : jsstring) :
  Forall (fun c => c <> CR) t ->
  includes t LF3 = false ->
  noEdgeSpace t ->
  cleanText t = t.
Proof.
  intros Hcr H3 He. rewrite cleanText_direct, (crToLf_fix Hcr).
  rewrite (@squeeze_fix t 0%nat); [apply trim_fix; exact He | lia | exact H3].
Qed.

Lemma cleanText_fixed_point_witness :
  cleanText (str "Jane Doe" ++ [LF; LF] ++ str "Engineer") =
  str "Jane Doe" ++ [LF; LF] ++ str "Engineer".
Proof.
  apply cleanText_fixed_point.
  - repeat constructor; discriminate.
  - reflexivity.
  - split; intros c t' H.
    + inversion H. reflexivity.
    + apply (f_equal (@rev char)) in H. rewrite (rev_app_distr t' [c]) in H.
      simpl in H. inversion H. reflexivity.
Defined.

(** ** Texts of white space *)

Lemma dropWhile_nil (p : char -> bool) (s : jsstring) :
  dropWhile p s = [] <-> Forall (fun c => p c = true) s.
Proof.
  induction s as [|c s IH]; simpl; [split; constructor|].
  destruct (p c) eqn:E.
  - rewrite IH. split; [constructor; assumption | intros H; inversion H; assumption].
  - split; [discriminate | intros H; inversion H; congruence].
Qed.

Lemma trim_nil (s : jsstring) : trim s = [] <-> Forall (fun c => isSpace c = true) s.
Proof.
  unfold trim, trimEnd, trimStart. split.
  - intros H. apply (f_equal (@rev char)) in H. rewrite rev_involutive in H.
    simpl in H. apply dropWhile_nil in H. apply Forall_rev in H.
    rewrite rev_involutive in H.
    pose proof (dropWhile_head isSpace s) as Hh.
    destruct (dropWhile isSpace s) as [|c y] eqn:E; [apply dropWhile_nil; exact E|].
    inversion H; congruence.
  - intros H. apply dropWhile_nil in H. rewrite H. reflexivity.
Qed.

Lemma crToLf_space (c : char) : isSpace (crToLf c) = isSpace c.
Proof.
  unfold crToLf, eqc. destruct (N.eqb_spec c CR) as [-> | _]; reflexivity.
Qed.

Lemma squeeze_space (s : jsstring) :
  forall n, Forall (fun c => isSpace c = true) (squeeze n s) <->
            Forall (fun c => isSpace c = true) s.
Proof.
  induction s as [|c s IH]; intros n; cbn [squeeze]; [tauto|].
  destruct (eqc c LF) eqn:Ec.
  - apply N.eqb_eq in Ec. subst c. destruct (n <? 2)%nat.
    + split; intros H; inversion H; subst; constructor; auto; eapply IH; eassumption.
    + rewrite IH. split; [constructor; [reflexivity | assumption]|].
      intros H; inversion H; assumption.
  - split; intros H; inversion H; subst; constructor; auto; eapply IH; eassumption.
Qed.

Lemma cleanText_nil (s : jsstring) :
  cleanText s = [] <-> Forall (fun c => isSpace c = true) s.
Proof.
  rewrite cleanText_direct, trim_nil, squeeze_space, Forall_map.
  split; intros H; eapply Forall_impl; try exact H; intros c Hc; cbv beta in *;
    [rewrite <- crToLf_space | rewrite crToLf_space]; exact Hc.
Qed.

(** X3: the normal form of a text is empty exactly when the text is white
    space only, and the resume of such a text has every field null or
    empty. *)
Theorem parseResumeText_blank (s : jsstring) :
  (cleanText s = [] <-> Forall (fun c => isSpace c = true) s) /\
  (Forall (fun c => isSpace c = true) s ->
   parseResumeText s =
     Ok {| name := None; headline := None; githubUrl := None;
           githubUsername := None; emails := []; phones := []; skills := [];
           summary := []; rawText := [] |}).
Proof.
  split; [apply cleanText_nil|].
  intros H. apply cleanText_nil in H. unfold parseResumeText. rewrite H.
  vm_compute. reflexivity.
Qed.

Lemma parseResumeText_blank_witness :
  parseResumeText ([SP; CR; LF] ++ [9%N; LF; SP]) =
    Ok {| name := None; headline := None; githubUrl := None;
          githubUsername := None; emails := []; phones := []; skills := [];
          summary := []; rawText := [] |}.
Proof.
  apply (proj2 (parseResumeText_blank ([SP; CR; LF] ++ [9%N; LF; SP]))).
  repeat constructor.
Defined.

(** Normalising twice, from the lemmas on the two replacements. *)
Lemma cleanText_cleanText (s : jsstring) : cleanText (cleanText s) = cleanText s.
Proof.
  rewrite (cleanText_direct (cleanText s)), (cleanText_direct s).
  set (x := squeeze 0 (map crToLf s)).
  rewrite crToLf_fix by apply trim_Forall, squeeze_Forall, crToLf_Forall.
  rewrite (@squeeze_fix (trim x) 0%nat); [apply trim_fix, noEdgeSpace_trim | lia|].
  cbn [repeat app]. destruct (trim_infix x) as (a & b & H).
  apply (includes_infix_false a _ b). rewrite <- H.
  apply (@squeeze_no_LF3 (map crToLf s) 0%nat). lia.
Qed.

(** X4: parsing the [rawText] of a resume again gives the same resume. *)
Theorem parseResumeText_rawText (text : jsstring) (r : ParsedResume) :
  parseResumeText text = Ok r ->
  rawText r = cleanText text /\ parseResumeText (rawText r) = Ok r.
Proof.
  intros H.
  assert (E : rawText r = cleanText text).
  { unfold parseResumeText in H.
    destruct (extractSkills (cleanText text)); unfold bind in H; [|discriminate].
    inversion H. reflexivity. }
  split; [exact E|]. rewrite E. rewrite <- H.
  unfold parseResumeText. rewrite cleanText_cleanText. reflexivity.
Qed.

Lemma parseResumeText_rawText_witness :
  exists r,
    parseResumeText (str "  Jane Doe" ++ [CR; LF] ++ str "Engineer ") = Ok r /\
    parseResumeText (rawText r) = Ok r.
Proof.
  eexists. split; [vm_compute; reflexivity|].
  eapply (@parseResumeText_rawText (str "  Jane Doe" ++ [CR; LF] ++ str "Engineer ")).
  vm_compute. reflexivity.
Defined.

(** X5: the parse route refuses a text exactly when it is white space only;
    any other text is answered with its resume, whose [rawText] is not
    empty; the parser never sends the handler to its catch branch. *)
Theorem respond_cases (text : jsstring) :
  (Forall (fun c => isSpace c = true) text ->
   ParseRoute.respond text =
     ParseRoute.Json400 "We could not read any text from the provided resume.") /\
  (~ Forall (fun c => isSpace c = true) text ->
   exists r, ParseRoute.respond text = ParseRoute.JsonData r /\
             parseResumeText text = Ok r /\ rawText r <> []).
Proof.
  unfold ParseRoute.respond. split; intros H.
  - apply trim_nil in H. rewrite H. reflexivity.
  - destruct (trim text) as [|c t] eqn:E; [exfalso; apply H, trim_nil, E|].
    cbn [truthy negb].
    destruct (extractSkills_ok (cleanText text)) as [l Hl].
    unfold parseResumeText. rewrite Hl. unfold bind. eexists.
    split; [reflexivity|]. split; [reflexivity|]. cbn [rawText].
    intros Hn. apply H, cleanText_nil, Hn.
Qed.

Lemma respond_cases_witness :
  exists r, ParseRoute.respond (str " Jane Doe") = ParseRoute.JsonData r /\
            rawText r = str "Jane Doe".
Proof.
  destruct (proj2 (respond_cases (str " Jane Doe"))) as (r & Hr & Hp & _).
  - intros H. inversion H as [|? ? _ H']. inversion H' as [|? ? Hc _]. discriminate.
  - exists r. split; [exact Hr|].
    vm_compute in Hp. inversion Hp. reflexivity.
Defined.

(** ** Headline *)

Lemma eqs_eq (a b : jsstring) : eqs a b = true <-> a = b.
Proof.
  revert b. induction a as [|x a IH]; intros [|y b]; simpl;
    try (split; [discriminate | discriminate]); [tauto|].
  rewrite andb_true_iff, IH. unfold eqc. rewrite N.eqb_eq.
  split; [intros [-> ->]; reflexivity | intros H; inversion H; auto].
Qed.




(** ** The matches of a g pattern, the pieces of a split *)

Import Shapes.

Lemma run_alphabet (i : bool) (P : char -> Prop) (r : regex) :
  classesWithin i P r ->
  forall st st', run i r st st' -> exists w, reads w st st' /\ Forall P w.
Proof.
  induction r as [|cl|a IHa b IHb|a IHa b IHb|n a IHa|a IHa lo extra g|cl lo g| | |cl];
    intros C st st' H; simpl in H, C.
  - subst. exists []. split; [apply reads_nil | constructor].
  - destruct H as (c & post & Ha & Hc & ->). exists [c].
    split; [split; simpl; auto | constructor; auto].
  - destruct C as [Ca Cb]. destruct H as (st1 & H1 & H2).
    destruct (IHa Ca _ _ H1) as (w1 & R1 & F1). destruct (IHb Cb _ _ H2) as (w2 & R2 & F2).
    exists (w1 ++ w2). split; [eapply reads_app; eassumption | apply Forall_app; auto].
  - destruct C as [Ca Cb]. destruct H as [H | H]; [apply (IHa Ca) | apply (IHb Cb)]; exact H.
  - destruct H as (st1 & H1 & ->). destruct (IHa C _ _ H1) as (w & R & F).
    exists w. split; [exact R | exact F].
  - assert (Hit : forall (R : state -> state -> Prop),
               (forall x y, R x y -> run i a x y) ->
               forall n x y, iter R n x y -> exists w, reads w x y /\ Forall P w).
    { intros R HR. induction n as [|n IHn]; intros x y Hi; simpl in Hi.
      - subst. exists []. split; [apply reads_nil | constructor].
      - destruct Hi as (z & Hxz & Hzy).
        destruct (IHa C _ _ (HR _ _ Hxz)) as (w1 & R1 & F1).
        destruct (IHn _ _ Hzy) as (w2 & R2 & F2).
        exists (w1 ++ w2). split; [eapply reads_app; eassumption | apply Forall_app; auto]. }
    destruct H as (st1 & n & H1 & _ & H2).
    destruct (Hit (run i a) (fun _ _ h => h) _ _ _ H1) as (w1 & R1 & F1).
    destruct (Hit (progress (run i a)) (fun _ _ h => proj1 h) _ _ _ H2) as (w2 & R2 & F2).
    exists (w1 ++ w2). split; [eapply reads_app; eassumption | apply Forall_app; auto].
  - destruct H as (w & Ha & Hw & _ & ->). exists w.
    split; [split; simpl; auto|]. eapply Forall_impl; [|exact Hw]. exact C.
  - destruct H as (_ & ->). exists []. split; [apply reads_nil | constructor].
  - destruct H as (_ & ->). exists []. split; [apply reads_nil | constructor].
  - destruct H as (c & pre & _ & _ & ->). exists []. split; [apply reads_nil | constructor].
Qed.

(** What one attempt matched is built from the classes of the pattern. *)
Lemma matchAt_alphabet (re : RegExp.t) (P : char -> Prop) (pre post : jsstring)
  (f : found) :
  classesWithin (ignoreCase re) P (pattern re) ->
  matchAt re pre post = Some f -> Forall P (whole f).
Proof.
  intros C H. apply matchAt_sound in H as (st' & Hrun & _ & Hpost & Hb & Ha & _).
  destruct (@run_alphabet _ _ _ C _ _ Hrun) as (w & [A B] & F).
  simpl in A. rewrite Ha, Hpost in A. apply app_inv_tail in A. rewrite A. exact F.
Qed.

(** Every match of a g pattern is the match of one attempt. *)
Lemma matchesFrom_In (re : RegExp.t) (w : jsstring) :
  forall post n pre,
    In w (matchesFrom re n pre post) ->
    exists pre' post' f, matchAt re pre' post' = Some f /\ whole f = w.
Proof.
  induction post as [|c post IH]; intros n pre H.
  - destruct n; cbn [matchesFrom] in H; [|contradiction].
    destruct (matchAt re pre []) as [f|] eqn:E; [|contradiction].
    destruct H as [<- | []]. exists pre, [], f. auto.
  - destruct n as [|n]; cbn [matchesFrom] in H.
    + destruct (matchAt re pre (c :: post)) as [f|] eqn:E.
      * destruct H as [<- | H]; [exists pre, (c :: post), f; auto | eapply IH; exact H].
      * eapply IH; exact H.
    + eapply IH; exact H.
Qed.

(** A g pattern has no match exactly when [exec] finds none, and its first
    match is the one [exec] finds. *)
Lemma matchesFrom_first (re : RegExp.t) :
  forall post pre,
    match execFrom re pre post with
    | Some f => exists rest, matchesFrom re 0 pre post = whole f :: rest
    | None => matchesFrom re 0 pre post = []
    end.
Proof.
  induction post as [|c post IH]; intros pre; cbn [execFrom matchesFrom].
  - destruct (matchAt re pre []); [eexists|]; reflexivity.
  - destruct (matchAt re pre (c :: post)); [eexists; reflexivity|]. apply IH.
Qed.

(** The pieces of a split are made of code units of the text. *)
Lemma splitFrom_Forall (re : RegExp.t) (P : char -> Prop) :
  forall post n cur pre,
    Forall P cur -> Forall P post ->
    Forall (Forall P) (splitFrom re n cur pre post).
Proof.
  induction post as [|c post IH]; intros n cur pre Hc Hp; cbn [splitFrom].
  - constructor; [apply Forall_rev; exact Hc | constructor].
  - inversion Hp as [|? ? Pc Hp']; subst. destruct n as [|n]; [|apply IH; auto].
    destruct (matchAt re pre (c :: post)) as [f|].
    + destruct (length (whole f)) as [|k]; [destruct cur|];
        try (constructor; [apply Forall_rev; exact Hc|]); apply IH; auto.
    + apply IH; auto.
Qed.

Lemma split_Forall (re : RegExp.t) (P : char -> Prop) (s : jsstring) :
  Forall P s -> Forall (Forall P) (split re s).
Proof.
  intros H. unfold split. destruct s as [|c s].
  - destruct (matchAt re [] []); repeat constructor.
  - apply splitFrom_Forall; [constructor | exact H].
Qed.

(** A split at a class is a cut at every code unit of the class. *)
Lemma splitFrom_cls (cl : cclass) (i : bool) :
  forall post cur pre,
    splitFrom (RegExp (Chr cl) i) 0 cur pre post = splitBy (classMatches i cl) cur post.
Proof.
  induction post as [|c post IH]; intros cur pre; cbn [splitFrom splitBy]; [reflexivity|].
  rewrite matchAt_cls. destruct (classMatches i cl c).
  - cbn [whole length]. rewrite IH. reflexivity.
  - apply IH.
Qed.

Lemma split_cls (cl : cclass) (i : bool) (s : jsstring) :
  split (RegExp (Chr cl) i) s = splitBy (classMatches i cl) [] s.
Proof.
  unfold split. destruct s as [|c s]; [rewrite matchAt_cls; reflexivity|].
  apply splitFrom_cls.
Qed.

(** The pieces of a cut hold no code unit of the class and lie in the text. *)
Lemma splitBy_pieces (p : char -> bool) :
  forall s cur piece,
    Forall (fun c => p c = false) cur ->
    In piece (splitBy p cur s) ->
    Forall (fun c => p c = false) piece /\
    exists a b, rev cur ++ s = a ++ piece ++ b.
Proof.
  induction s as [|c s IH]; intros cur piece Hcur H; cbn [splitBy] in H.
  - destruct H as [<- | []]. split; [apply Forall_rev; exact Hcur|].
    exists [], []. rewrite !app_nil_r. reflexivity.
  - destruct (p c) eqn:Ec.
    + destruct H as [<- | H].
      * split; [apply Forall_rev; exact Hcur|]. exists [], (c :: s). reflexivity.
      * destruct (IH [] piece (Forall_nil _) H) as (Hf & a & b & Hab).
        split; [exact Hf|]. exists (rev cur ++ c :: a), b. simpl in Hab.
        rewrite Hab, <- app_assoc. reflexivity.
    + destruct (IH (c :: cur) piece (Forall_cons _ Ec Hcur) H) as (Hf & a & b & Hab).
      split; [exact Hf|]. exists a, b. rewrite <- Hab. simpl.
      rewrite <- app_assoc. reflexivity.
Qed.

(** ** Sets *)

Lemma has_In (x : jsstring) (l : list jsstring) : has x l = true <-> In x l.
Proof.
  induction l as [|y l IH]; simpl; [split; [discriminate | contradiction]|].
  rewrite orb_true_iff, eqs_eq, IH. split; intros [H | H]; auto.
Qed.

(** A Set built from an array holds each value of the array once. *)
Lemma newSet_spec (l : list jsstring) :
  NoDup (newSet l) /\ forall x, In x (newSet l) <-> In x l.
Proof.
  unfold newSet.
  assert (G : forall l acc, NoDup acc ->
            NoDup (fold_left setAdd l acc) /\
            forall x, In x (fold_left setAdd l acc) <-> In x acc \/ In x l).
  { clear l. induction l as [|y l IH]; intros acc Hacc; cbn [fold_left].
    - split; [exact Hacc | intros x; simpl; tauto].
    - unfold setAdd at 2 4. destruct (has y acc) eqn:E.
      + destruct (IH acc Hacc) as [Hn Hi]. split; [exact Hn|].
        intros x. rewrite Hi. apply has_In in E. simpl. split; [tauto|].
        intros [H | [<- | H]]; auto.
      + assert (Hy : ~ In y acc) by (intros H; apply has_In in H; congruence).
        assert (Hacc' : NoDup (acc ++ [y])).
        { apply NoDup_rev in Hacc. rewrite <- (rev_involutive (acc ++ [y])).
          apply NoDup_rev. rewrite rev_app_distr. simpl. constructor; [|exact Hacc].
          rewrite <- in_rev. exact Hy. }
        destruct (IH (acc ++ [y]) Hacc') as [Hn Hi]. split; [exact Hn|].
        intros x. rewrite Hi, in_app_iff. simpl. tauto. }
  destruct (G l [] (NoDup_nil _)) as [Hn Hi]. split; [exact Hn|].
  intros x. rewrite Hi. simpl. tauto.
Qed.

(** ** Replacements of runs and of single code units *)

Lemma runsTo_restart (p : char -> bool) (by_ : jsstring) (s : jsstring) :
  takeWhile p s = [] -> runsTo p by_ true s = runsTo p by_ false s.
Proof.
  destruct s as [|c s]; simpl; [reflexivity|].
  destruct (p c); [discriminate | reflexivity].
Qed.

(** The replacement of every run of a class (the pattern [cl+] with the g
    flag), outside a match and inside the run just replaced. *)
Lemma replaceFrom_plus (cl : cclass) (i : bool) (by_ : jsstring) (post : jsstring) :
  forall pre,
    replaceFrom (RegExp (Many cl 1 true) i) by_ 0 pre post =
      runsTo (classMatches i cl) by_ false post /\
    forall n, S n = length (takeWhile (classMatches i cl) post) ->
              replaceFrom (RegExp (Many cl 1 true) i) by_ (S n) pre post =
                runsTo (classMatches i cl) by_ true post.
Proof.
  induction post as [|c post IH]; intros pre.
  - split; [reflexivity | intros n H; discriminate].
  - destruct (IH (c :: pre)) as [IH1 IH2]. split.
    + cbn [replaceFrom]. rewrite matchAt_many. cbn [takeWhile runsTo].
      destruct (classMatches i cl c) eqn:Ec.
      * cbn [length Nat.leb whole]. f_equal.
        destruct (length (takeWhile (classMatches i cl) post)) as [|n] eqn:El.
        -- rewrite IH1. symmetry. apply runsTo_restart.
           destruct (takeWhile _ post); [reflexivity | discriminate].
        -- apply IH2. reflexivity.
      * cbn [length Nat.leb]. rewrite IH1. reflexivity.
    + intros n Hn. cbn [replaceFrom takeWhile runsTo] in *.
      destruct (classMatches i cl c) eqn:Ec; [|discriminate].
      cbn [length] in Hn. destruct n as [|n].
      * rewrite IH1. symmetry. apply runsTo_restart.
        destruct (takeWhile _ post); [reflexivity | discriminate].
      * apply IH2. lia.
Qed.

Lemma replaceAll_plus (s : cset) (by_ : jsstring) (t : jsstring) :
  replaceAll (RegExp (plus s) false) by_ t =
  runsTo (classMatches false (Class false s)) by_ false t.
Proof. unfold replaceAll, plus. apply replaceFrom_plus. Qed.

(** The replacement of every code unit of a class (a class with the g
    flag). *)
Lemma replaceFrom_cls (cl : cclass) (i : bool) (by_ : jsstring) (post : jsstring) :
  forall pre,
    replaceFrom (RegExp (Chr cl) i) by_ 0 pre post =
    flat_map (fun c => if classMatches i cl c then by_ else [c]) post.
Proof.
  induction post as [|c post IH]; intros pre; [reflexivity|].
  cbn [replaceFrom flat_map]. rewrite matchAt_cls.
  destruct (classMatches i cl c); cbn [whole length]; rewrite IH; reflexivity.
Qed.

Lemma runsTo_Forall (P : char -> Prop) (p : char -> bool) (by_ : jsstring) (s : jsstring) :
  Forall P by_ -> (forall c, In c s -> p c = false -> P c) ->
  forall b, Forall P (runsTo p by_ b s).
Proof.
  intros Hby. induction s as [|c s IH]; intros Hs b; cbn [runsTo]; [constructor|].
  assert (Hs' : forall d, In d s -> p d = false -> P d) by (intros d Hd; apply Hs; right; exact Hd).
  destruct (p c) eqn:Ec.
  - destruct b; [apply IH; exact Hs'|]. apply Forall_app. split; [exact Hby | apply IH; exact Hs'].
  - constructor; [apply Hs; [left; reflexivity | exact Ec] | apply IH; exact Hs'].
Qed.

Lemma runsTo_ext (p q : char -> bool) (by_ : jsstring) (s : jsstring) :
  (forall c, p c = q c) -> forall b, runsTo p by_ b s = runsTo q by_ b s.
Proof.
  intros H. induction s as [|c s IH]; intros b; cbn [runsTo]; [reflexivity|].
  rewrite H, !IH. reflexivity.
Qed.

(** Runs of white space replaced by one space leave no two spaces in a
    row. *)
Lemma runsTo_space_single (s : jsstring) :
  forall b,
    includes (runsTo isSpace [SP] b s) [SP; SP] = false /\
    (b = true -> startsWith (runsTo isSpace [SP] b s) [SP] = false).
Proof.
  induction s as [|c s IH]; intros b; cbn [runsTo]; [split; reflexivity|].
  destruct (isSpace c) eqn:Ec.
  - destruct b.
    + apply IH.
    + destruct (IH true) as [Hi Hs]. specialize (Hs eq_refl). split; [|discriminate].
      cbn [app includes startsWith]. rewrite Hi.
      change (eqc SP SP) with true. cbn [andb].
      destruct (runsTo isSpace [SP] true s) as [|d o]; [reflexivity|].
      cbn [startsWith] in *. rewrite Hs. reflexivity.
  - destruct (IH false) as [Hi _].
    assert (E : eqc SP c = false).
    { unfold eqc. apply N.eqb_neq. intros <-. discriminate. }
    split; [|intros _; cbn [startsWith]; rewrite E; reflexivity].
    cbn [includes startsWith]. rewrite E, Hi. reflexivity.
Qed.

(** ** Skills *)

Lemma skillSep_matches (c : char) :
  classMatches false (Class false (unions (chr ",") [One BULLET; One LF])) c =
  isSkillSep c.
Proof.
  unfold classMatches, csetMatches, isSkillSep. simpl.
  destruct (eqc c 44 || (eqc c BULLET || eqc c LF))%N eqn:E; rewrite ?orb_assoc in *;
    rewrite E; reflexivity.
Qed.

Lemma noEdgeSpace_Forall_includes (a piece b text : jsstring) :
  text = a ++ piece ++ b -> includes text (trim piece) = true.
Proof.
  intros ->. destruct (trim_infix piece) as (u & v & H).
  apply includes_spec. exists (a ++ u), (v ++ b).
  rewrite H at 1. rewrite <- !app_assoc. reflexivity.
Qed.

Lemma firstn_In (A : Type) (n : nat) (l : list A) (x : A) :
  In x (firstn n l) -> In x l.
Proof.
  intros H. rewrite <- (firstn_skipn n l). apply in_or_app. left. exact H.
Qed.

Lemma firstn_NoDup (A : Type) (n : nat) (l : list A) : NoDup l -> NoDup (firstn n l).
Proof.
  intros H. rewrite <- (firstn_skipn n l) in H. apply NoDup_app_remove_r in H. exact H.
Qed.

(** X7: the skills are at most 15; each one has at least two code units,
    neither starts nor ends with white space, holds no comma, bullet or line
    feed, and stands in the normalised text as it is. *)
Theorem skills_tokens (text : jsstring) (r : ParsedResume) :
  parseResumeText text = Ok r ->
  (length (skills r) <= 15)%nat /\
  forall skill, In skill (skills r) ->
    (2 <= length skill)%nat /\ noEdgeSpace skill /\
    Forall (fun c => isSkillSep c = false) skill /\
    includes (rawText r) skill = true.
Proof.
  intros H. unfold parseResumeText in H.
  destruct (extractSkills (cleanText text)) as [l|e] eqn:E; unfold bind in H;
    [|discriminate].
  inversion H; subst r; clear H. cbn [skills rawText].
  unfold extractSkills in E.
  destruct (matchFirst RE_SKILLS (cleanText text)) as [f|] eqn:Em.
  2:{ inversion E; subst l. split; [simpl; lia | intros s []]. }
  apply execFrom_first in Em as (skipped & rest & Ht & Em & _).
  apply skills_matchAt in Em as (hdr & ws & sp & body & stop & post & Hsec & Hg & _).
  rewrite Hg in E. change (Ok (skillTokens body) = Ok l) in E.
  injection E as <-. unfold skillTokens.
  split; [apply firstn_le_length|].
  intros skill Hin. apply firstn_In in Hin.
  apply filter_In in Hin as [Hin Hlen]. apply Nat.ltb_lt in Hlen.
  apply in_map_iff in Hin as (piece & <- & Hin).
  unfold RE_SKILL_SEP, cls in Hin. rewrite split_cls in Hin.
  apply splitBy_pieces in Hin as (Hf & a & b & Hab); [|constructor].
  split; [lia|]. split; [apply noEdgeSpace_trim|]. split.
  - apply trim_Forall. eapply Forall_impl; [|exact Hf].
    intros c Hc. cbv beta in Hc. rewrite <- skillSep_matches. exact Hc.
  - destruct Hsec as (Hr & _). simpl in Hab, Hr.
    apply (noEdgeSpace_Forall_includes
             (skipped ++ hdr ++ ws ++ str ":" ++ sp ++ a) piece (b ++ stop ++ post)).
    rewrite Ht, Hr, Hab. rewrite <- !app_assoc. reflexivity.
Qed.

Lemma skills_tokens_witness :
  exists r,
    parseResumeText (str "Skills: Go, Rust" ++ [LF; LF] ++ str "Bio") = Ok r /\
    skills r = [str "Go"; str "Rust"] /\ (length (skills r) <= 15)%nat.
Proof.
  eexists. split; [vm_compute; reflexivity|]. split; [reflexivity|].
  eapply (@skills_tokens (str "Skills: Go, Rust" ++ [LF; LF] ++ str "Bio")).
  vm_compute. reflexivity.
Defined.

(** ** Sentences and summary *)

Lemma tokenizeSentences_NoDup (text : jsstring) : NoDup (tokenizeSentences text).
Proof. unfold tokenizeSentences. apply newSet_spec. Qed.

(** X8: the sentences are distinct; each one has between 1 and 300 code
    units, neither starts nor ends with white space, and holds no line
    feed. *)
Theorem tokenizeSentences_sentences (text : jsstring) :
  NoDup (tokenizeSentences text) /\
  forall sentence, In sentence (tokenizeSentences text) ->
    (1 <= length sentence <= 300)%nat /\ noEdgeSpace sentence /\
    Forall (fun c => c <> LF) sentence.
Proof.
  unfold tokenizeSentences.
  destruct (newSet_spec
              (filter (fun sentence => (0 <? length sentence)%nat &&
                                       (length sentence <=? 300)%nat)
                 (map trim (split RE_SENTENCE_END (replaceAll RE_NEWLINES [SP] text)))))
    as [Hn Hi].
  split; [exact Hn|]. intros sentence H. apply Hi in H.
  apply filter_In in H as [H Hlen]. apply andb_true_iff in Hlen as [L1 L2].
  apply Nat.ltb_lt in L1. apply Nat.leb_le in L2.
  apply in_map_iff in H as (piece & <- & H).
  split; [lia|]. split; [apply noEdgeSpace_trim|]. apply trim_Forall.
  assert (Hall : Forall (Forall (fun c => c <> LF))
                   (split RE_SENTENCE_END (replaceAll RE_NEWLINES [SP] text))).
  { apply split_Forall. unfold RE_NEWLINES. rewrite replaceAll_plus.
    apply runsTo_Forall.
    - constructor; [discriminate | constructor].
    - intros c _ Hc. rewrite One_matches in Hc. apply N.eqb_neq. exact Hc. }
  rewrite Forall_forall in Hall. apply Hall. exact H.
Qed.

Lemma StronglySorted_app_inv (A : Type) (R : A -> A -> Prop) (l1 l2 : list A) :
  StronglySorted R (l1 ++ l2) -> forall x y, In x l1 -> In y l2 -> R x y.
Proof.
  induction l1 as [|a l1 IH]; intros H x y Hx Hy; [contradiction|].
  simpl in H. inversion H as [|? ? Hs Ha]; subst. destruct Hx as [<- | Hx].
  - rewrite Forall_forall in Ha. apply Ha. apply in_or_app. right. exact Hy.
  - eapply IH; eassumption.
Qed.

(** X9: the summary holds the 4 sentences of the resume, or all of them when
    there are fewer; its sentences are distinct, and no sentence left out
    has a higher score than a sentence of the summary. *)
Theorem summary_best (text : jsstring) (r : ParsedResume) :
  parseResumeText text = Ok r ->
  length (summary r) = Nat.min 4 (length (tokenizeSentences (rawText r))) /\
  NoDup (summary r) /\
  (forall s, In s (summary r) -> In s (tokenizeSentences (rawText r))) /\
  (forall s t,
      In s (summary r) -> In t (tokenizeSentences (rawText r)) ->
      ~ In t (summary r) -> scoreSentence t <= scoreSentence s).
Proof.
  intros H. unfold parseResumeText in H.
  destruct (extractSkills (cleanText text)) as [l|e]; unfold bind in H; [|discriminate].
  inversion H; subst r; clear H. cbn [summary rawText].
  set (sentences := tokenizeSentences (cleanText text)).
  rewrite buildSummary_sorted.
  set (ranked := sort (fun a b => scoreSentence b - scoreSentence a) sentences).
  pose proof (sort_perm scoreSentence sentences) as Hp. fold ranked in Hp.
  pose proof (sort_sorted scoreSentence sentences) as Hs. fold ranked in Hs.
  split; [|split; [|split]].
  - rewrite length_firstn, (Permutation_length Hp). reflexivity.
  - apply firstn_NoDup. apply (Permutation_NoDup (Permutation_sym Hp)).
    apply tokenizeSentences_NoDup.
  - intros s Hin. apply (Permutation_in _ Hp). eapply firstn_In. exact Hin.
  - intros s t Hin Ht Hnot.
    apply (Permutation_in _ (Permutation_sym Hp)) in Ht.
    rewrite <- (firstn_skipn 4 ranked) in Ht, Hs.
    apply in_app_or in Ht as [Ht | Ht]; [contradiction|].
    apply (StronglySorted_app_inv _ _ Hs s t Hin Ht).
Qed.

Lemma summary_best_witness :
  exists r,
    parseResumeText
      (str "Built it. Led a team of 5. Improved speed by 40%. Ok. Launched v2. Done.") = Ok r /\
    length (summary r) = 4%nat.
Proof.
  eexists. split; [vm_compute; reflexivity|].
  match goal with
  | |- length (summary ?r) = _ =>
      destruct (@summary_best
                  (str "Built it. Led a team of 5. Improved speed by 40%. Ok. Launched v2. Done.")
                  r) as (Hlen & _);
      [vm_compute; reflexivity | rewrite Hlen; vm_compute; reflexivity]
  end.
Defined.

(** ** Phones *)

Lemma PHONE_REGEX_alphabet : classesWithin false phoneUnit (pattern PHONE_REGEX).
Proof.
  assert (D : forall c, classMatches false (Class false Digit) c = true -> phoneUnit c).
  { intros c H. rewrite Digit_matches in H. left. exact H. }
  assert (S : forall c, classMatches false (Class false (Union Space (chr "-"))) c = true ->
                        phoneUnit c).
  { intros c H. unfold classMatches, csetMatches in H. simpl in H.
    apply orb_true_iff in H as [H | H]; [right; left; exact H|].
    apply N.eqb_eq in H. unfold phoneUnit. tauto. }
  assert (L : forall x c, (x = 43 \/ x = 40 \/ x = 41)%N ->
                          classMatches false (Class false (One x)) c = true -> phoneUnit c).
  { intros x c Hx H. rewrite One_matches in H. apply N.eqb_eq in H. subst c.
    unfold phoneUnit. tauto. }
  unfold PHONE_REGEX, digits, spaceOrDash, opt, lit, cls.
  cbn [pattern seqs classesWithin].
  repeat split; intros c Hc;
    first [ exact (D c Hc) | exact (S c Hc)
          | apply (L _ c) in Hc; [exact Hc | cbn; tauto] ].
Qed.

Lemma NonDigit_removed (s : jsstring) :
  replaceAll RE_NONDIGIT [] s = filter isDigit s.
Proof.
  unfold replaceAll, RE_NONDIGIT, cls. rewrite replaceFrom_cls.
  induction s as [|c s IH]; cbn [flat_map filter]; [reflexivity|].
  rewrite IH. unfold classMatches, csetMatches. simpl.
  destruct (isDigit c); reflexivity.
Qed.

Lemma matchGlobal_In (re : RegExp.t) (s : jsstring) (l : list jsstring) (w : jsstring) :
  matchGlobal re s = Some l -> In w l ->
  exists pre post f, matchAt re pre post = Some f /\ whole f = w.
Proof.
  unfold matchGlobal. intros H Hin.
  destruct (matchesFrom re 0 [] s) as [|x l'] eqn:E; [discriminate|].
  inversion H; subst l. rewrite <- E in Hin. eapply matchesFrom_In. exact Hin.
Qed.

(** X10: each phone holds at least 10 digits; it is made of digits, single
    spaces and the signs + ( ) - only, holds no two spaces in a row and
    neither starts nor ends with white space. *)
Theorem phones_entries (text : jsstring) (r : ParsedResume) :
  parseResumeText text = Ok r ->
  forall phone, In phone (phones r) ->
    (10 <= length (filter isDigit phone))%nat /\
    Forall phoneChar phone /\
    includes phone [SP; SP] = false /\
    noEdgeSpace phone.
Proof.
  intros H. unfold parseResumeText in H.
  destruct (extractSkills (cleanText text)) as [l|e]; unfold bind in H; [|discriminate].
  inversion H; subst r; clear H. cbn [phones].
  intros phone Hin. unfold extractPhones in Hin.
  destruct (matchGlobal PHONE_REGEX (cleanText text)) as [found|] eqn:E; [|contradiction].
  apply filter_In in Hin as [Hin Hd]. apply Nat.leb_le in Hd.
  rewrite NonDigit_removed in Hd.
  apply in_map_iff in Hin as (w & <- & Hin).
  destruct (@matchGlobal_In _ _ _ _ E Hin) as (pre & post & f & Hm & <-).
  pose proof (@matchAt_alphabet PHONE_REGEX phoneUnit _ _ _ PHONE_REGEX_alphabet Hm) as Hw.
  unfold RE_SPACES in *. rewrite replaceAll_plus in *.
  rewrite (runsTo_ext _ isSpace) in * by apply Space_matches.
  split; [exact Hd|]. split; [|split].
  - apply trim_Forall, runsTo_Forall.
    + constructor; [right; left; reflexivity | constructor].
    + rewrite Forall_forall in Hw. intros c Hc Hs.
      destruct (Hw c Hc) as [Hd' | [Hs' | Hr]]; [left; exact Hd' | congruence|].
      unfold phoneChar. tauto.
  - destruct (trim_infix (runsTo isSpace [SP] false (whole f))) as (a & b & Hab).
    apply (includes_infix_false a _ b). rewrite <- Hab.
    apply runsTo_space_single.
  - apply noEdgeSpace_trim.
Qed.

Lemma phones_entries_witness :
  exists r,
    parseResumeText (str "Call (415)" ++ [9%N] ++ str "555-2671 today") = Ok r /\
    phones r = [str "(415) 555-2671"] /\
    (10 <= length (filter isDigit (str "(415) 555-2671")))%nat.
Proof.
  eexists. split; [vm_compute; reflexivity|]. split; [reflexivity|].
  eapply (@phones_entries (str "Call (415)" ++ [9%N] ++ str "555-2671 today")).
  - vm_compute. reflexivity.
  - left. reflexivity.
Defined.

(** ** Emails *)

Ltac letter_ranges c :=
  destruct (N.leb_spec 97 c), (N.leb_spec c 122), (N.leb_spec 65 c), (N.leb_spec c 90).

(** A code unit that has the canonical form of a letter is a letter. *)
Lemma canonical_letter (a c : char) :
  isUpper a = true \/ isLower a = true -> upperChar a = upperChar c ->
  isLower (lowerChar c) = true.
Proof.
  unfold upperChar, lowerChar, isUpper, isLower, inRange.
  letter_ranges c; letter_ranges a; simpl; intros [Hx | Hx] Ex; try discriminate;
    rewrite ?andb_true_iff, ?N.leb_le; lia.
Qed.

(** A code unit that has the canonical form of a code unit that is no letter
    is that code unit. *)
Lemma canonical_other (a c : char) :
  isUpper a = false -> isLower a = false -> upperChar a = upperChar c ->
  lowerChar c = a.
Proof.
  unfold upperChar, lowerChar, isUpper, isLower, inRange.
  letter_ranges c; letter_ranges a; simpl; intros Hx1 Hx2 Ex; try discriminate; lia.
Qed.

Lemma local_matches (c : char) :
  classMatches true
    (Class false (unions (rng "A" "Z")
                    [rng "0" "9"; chr "."; chr "_"; chr "%"; chr "+"; chr "-"])) c = true ->
  localChar (lowerChar c) = true.
Proof.
  unfold classMatches. cbn [invert members xorb]. intros H.
  assert (H' : csetMatches true
                 (unions (rng "A" "Z")
                    [rng "0" "9"; chr "."; chr "_"; chr "%"; chr "+"; chr "-"]) c = true)
    by (destruct (csetMatches _ _ _); [reflexivity | discriminate]).
  apply csetMatches_canonical in H' as (a & Ha & E).
  unfold localChar.
  destruct (isUpper a) eqn:Eu;
    [rewrite (canonical_letter a c (or_introl Eu) E); reflexivity|].
  destruct (isLower a) eqn:El;
    [rewrite (canonical_letter a c (or_intror El) E); reflexivity|].
  rewrite (canonical_other a c Eu El E). rewrite El.
  change (isUpper a ||
          (isDigit a || (eqc a 46 || (eqc a 95 || (eqc a 37 || (eqc a 43 || eqc a 45)))))
          = true)%N in Ha.
  rewrite Eu in Ha. cbn [orb] in Ha.
  rewrite <- Ha. rewrite !orb_assoc. reflexivity.
Qed.

Lemma domain_matches (c : char) :
  classMatches true
    (Class false (unions (rng "A" "Z") [rng "0" "9"; chr "."; chr "-"])) c = true ->
  domainChar (lowerChar c) = true.
Proof.
  unfold classMatches. cbn [invert members xorb]. intros H.
  assert (H' : csetMatches true
                 (unions (rng "A" "Z") [rng "0" "9"; chr "."; chr "-"]) c = true)
    by (destruct (csetMatches _ _ _); [reflexivity | discriminate]).
  apply csetMatches_canonical in H' as (a & Ha & E).
  unfold domainChar.
  destruct (isUpper a) eqn:Eu;
    [rewrite (canonical_letter a c (or_introl Eu) E); reflexivity|].
  destruct (isLower a) eqn:El;
    [rewrite (canonical_letter a c (or_intror El) E); reflexivity|].
  rewrite (canonical_other a c Eu El E). rewrite El.
  change (isUpper a || (isDigit a || (eqc a 46 || eqc a 45)) = true)%N in Ha.
  rewrite Eu in Ha. cbn [orb] in Ha.
  rewrite <- Ha. rewrite !orb_assoc. reflexivity.
Qed.

Lemma letter_matches (c : char) :
  classMatches true (Class false (rng "A" "Z")) c = true ->
  isLower (lowerChar c) = true.
Proof.
  unfold classMatches. cbn [invert members xorb]. intros H.
  assert (H' : csetMatches true (rng "A" "Z") c = true)
    by (destruct (csetMatches _ _ _); [reflexivity | discriminate]).
  apply csetMatches_canonical in H' as (a & Ha & E).
  apply (canonical_letter a c); [left; exact Ha | exact E].
Qed.

(** A pattern character that is no letter reads itself under the i flag. *)
Lemma sign_matches (x c : char) :
  isUpper x = false -> isLower x = false ->
  classMatches true (Class false (One x)) c = true -> c = x.
Proof.
  intros Hu Hl Hm. pose proof (One_matches_lower _ _ Hu Hm) as E.
  clear Hm. revert E Hu Hl. unfold lowerChar, isUpper, isLower, inRange.
  letter_ranges c; letter_ranges x; simpl; intros; try discriminate; lia.
Qed.

(** What [EMAIL_REGEX] reads is an address once in lower case. *)
Lemma email_match_shape (pre post : jsstring) (f : found) :
  matchAt EMAIL_REGEX pre post = Some f -> emailShape (toLowerCase (whole f)).
Proof.
  intros H. apply matchAt_sound in H as (st' & Hrun & _ & Hpost & _ & Ha & _).
  change (ignoreCase EMAIL_REGEX) with true in Hrun.
  unfold EMAIL_REGEX, plus in Hrun. cbn [pattern seqs] in Hrun.
  destruct Hrun as (st1 & (w1 & A1 & F1 & L1 & _) & st2 & Hat & st3 &
                    (w2 & A2 & F2 & L2 & _) & st4 & Hdot & (w3 & A3 & F3 & L3 & _)).
  apply run_lit in Hat as (c1 & [Ac1 _] & _ & Hc1).
  apply sign_matches in Hc1; [|reflexivity..]. subst c1.
  apply run_lit in Hdot as (c2 & [Ac2 _] & _ & Hc2).
  apply sign_matches in Hc2; [|reflexivity..]. subst c2.
  cbn [after] in *.
  assert (E : whole f = w1 ++ str "@" ++ w2 ++ str "." ++ w3).
  { apply (app_inv_tail (suffix f)). rewrite <- Hpost, A1, Ac1, A2, Ac2, A3, Ha.
    rewrite <- !app_assoc. reflexivity. }
  rewrite E. unfold toLowerCase. rewrite !map_app.
  exists (map lowerChar w1), (map lowerChar w2), (map lowerChar w3).
  split; [reflexivity|]. rewrite !length_map.
  repeat split.
  - destruct w1; [simpl in L1; lia | discriminate].
  - destruct w2; [simpl in L2; lia | discriminate].
  - exact L3.
  - apply Forall_map. eapply Forall_impl; [|exact F1]. apply local_matches.
  - apply Forall_map. eapply Forall_impl; [|exact F2]. apply domain_matches.
  - apply Forall_map. eapply Forall_impl; [|exact F3]. apply letter_matches.
Qed.

(** X11: each entry of [emails] is an address in lower case: a local part
    and a domain that are not empty, and a top-level label of at least two
    letters. *)
Theorem emails_entries (text : jsstring) (r : ParsedResume) :
  parseResumeText text = Ok r ->
  forall email, In email (emails r) -> emailShape email.
Proof.
  intros H. unfold parseResumeText in H.
  destruct (extractSkills (cleanText text)) as [l|e]; unfold bind in H; [|discriminate].
  inversion H; subst r; clear H. cbn [emails].
  intros email Hin. unfold extractEmails in Hin.
  apply in_map_iff in Hin as (w & <- & Hin).
  apply (proj1 (proj2 (newSet_spec _) _)) in Hin.
  destruct (matchGlobal EMAIL_REGEX (cleanText text)) as [found|] eqn:E; [|contradiction].
  cbn [orEmpty] in Hin.
  destruct (@matchGlobal_In _ _ _ _ E Hin) as (pre & post & f & Hm & <-).
  eapply email_match_shape. exact Hm.
Qed.

Lemma emails_entries_witness :
  exists r,
    parseResumeText (str "Write to Jane.Doe@Example.COM!") = Ok r /\
    emails r = [str "jane.doe@example.com"] /\
    emailShape (str "jane.doe@example.com").
Proof.
  eexists. split; [vm_compute; reflexivity|]. split; [reflexivity|].
  eapply (@emails_entries (str "Write to Jane.Doe@Example.COM!")).
  - vm_compute. reflexivity.
  - left. reflexivity.
Defined.

(** ** Profile link *)

Lemma execFrom_None (re : RegExp.t) (post pre : jsstring) :
  execFrom re pre post = None <->
  forall s1 s2, post = s1 ++ s2 -> matchAt re (rev s1 ++ pre) s2 = None.
Proof.
  split.
  - intros H s1 s2 ->. destruct (matchAt re (rev s1 ++ pre) s2) eqn:E; [|reflexivity].
    exfalso. revert H. apply execFrom_complete. rewrite E. discriminate.
  - intros H. destruct (execFrom re pre post) as [f|] eqn:E; [|reflexivity].
    apply execFrom_first in E as (skipped & rest & Hp & Hm & _).
    rewrite (H _ _ Hp) in Hm. discriminate.
Qed.

Lemma opt_skip (i : bool) (a : regex) (st : state) : run i (opt a) st st.
Proof. exists st, 0%nat. repeat split. lia. Qed.

Lemma opt_take (i : bool) (a : regex) (st st' : state) :
  run i a st st' -> length (after st') <> length (after st) -> run i (opt a) st st'.
Proof.
  intros H L. exists st, 1%nat. split; [reflexivity|]. split; [lia|].
  exists st'. split; [split; assumption | reflexivity].
Qed.

Lemma path_matches (c : char) :
  classMatches true (Class true (Union Space (chr ")"))) c =
  negb (isSpace c || eqc c 41%N).
Proof.
  unfold classMatches, csetMatches. simpl.
  rewrite isSpace_upperChar, isSpace_lowerChar. f_equal.
  unfold eqc, upperChar, lowerChar, isLower, isUpper, inRange.
  letter_ranges c; simpl; try lia;
    repeat match goal with
      | |- context [N.eqb ?a ?b] => destruct (N.eqb_spec a b); try lia
      end; simpl; destruct (isSpace c); reflexivity.
Qed.

(** One attempt of [GITHUB_REGEX] succeeds exactly on a link. *)
Lemma github_match_sound (pre s : jsstring) (f : found) :
  matchAt GITHUB_REGEX pre s = Some f ->
  linkAt s /\ exists c w, whole f = c :: w /\ lowerChar c = 104%N.
Proof.
  intros H. apply matchAt_sound in H as (st' & Hrun & _ & Hpost & _ & Ha & _).
  change (ignoreCase GITHUB_REGEX) with true in Hrun.
  unfold GITHUB_REGEX in Hrun. cbn [pattern seqs] in Hrun.
  destruct Hrun as (st1 & H1 & st2 & H2 & st3 & H3 & st4 & H4 & st5 & H5 &
                    (w6 & A6 & F6 & L6 & _)).
  apply run_text in H1 as (wh & [A1 _] & _ & M1).
  apply litMatches_lower in M1; [|reflexivity].
  assert (H2' : exists ws, after st1 = ws ++ after st2 /\
                           (toLowerCase ws = [] \/ toLowerCase ws = str "s")).
  { apply run_opt in H2 as [-> | H2]; [exists []; auto|].
    apply run_lit in H2 as (c & [A _] & _ & M). exists [c]. split; [exact A|].
    right. simpl. rewrite (@One_matches_lower (N_of_ascii "s") c eq_refl M). reflexivity. }
  destruct H2' as (ws & A2 & M2).
  apply run_text in H3 as (wc & [A3 _] & _ & M3).
  apply litMatches_lower in M3; [|reflexivity].
  assert (H4' : exists ww, after st3 = ww ++ after st4 /\
                           (ww = [] \/ toLowerCase ww = str "www.")).
  { apply run_opt in H4 as [-> | H4]; [exists []; auto|].
    apply run_text in H4 as (ww & [A _] & _ & M).
    apply litMatches_lower in M; [|reflexivity]. exists ww. auto. }
  destruct H4' as (ww & A4 & M4).
  apply run_text in H5 as (host & [A5 _] & _ & M5).
  apply litMatches_lower in M5; [|reflexivity].
  destruct w6 as [|c w6]; [simpl in L6; lia|].
  pose proof (Forall_inv F6) as Fc. cbv beta in Fc. rewrite path_matches in Fc.
  apply negb_true_iff, orb_false_iff in Fc as [Fs Fp].
  cbn [after] in A1. split.
  - exists (wh ++ ws ++ wc), ww, host, c, (w6 ++ after st').
    split; [|split; [|split; [exact M4 | split; [exact M5 | split]]]].
    + rewrite A1, A2, A3, A4, A5, A6. rewrite <- !app_assoc. reflexivity.
    + unfold toLowerCase in *. rewrite !map_app, M1, M3.
      destruct M2 as [-> | ->]; [left | right]; reflexivity.
    + exact Fs.
    + apply N.eqb_neq. exact Fp.
  - destruct wh as [|ch wh]; [discriminate|].
    assert (Hc : lowerChar ch = 104%N) by (simpl in M1; injection M1 as Hc _; exact Hc).
    assert (E : whole f ++ suffix f = (ch :: wh) ++ after st1)
      by (rewrite <- Hpost; exact A1).
    destruct (whole f) as [|x w] eqn:Ew.
    + exfalso.
      assert (Hl : (length (after st') < length (suffix f))%nat); [|rewrite Ha in Hl; lia].
      simpl in E. rewrite E, A2, A3, A4, A5, A6. cbn [length]. rewrite !length_app. simpl. lia.
    + simpl in E. injection E as Ex _. subst x. exists ch, w. split; [reflexivity | exact Hc].
Qed.

Lemma github_match_complete (pre s : jsstring) :
  linkAt s -> matchAt GITHUB_REGEX pre s <> None.
Proof.
  intros (scheme & ww & host & c & rest & -> & Hs & Hw & Hh & Hc & Hp).
  assert (Hsch : exists wh ws wc,
             scheme = wh ++ ws ++ wc /\ litMatches true "http" wh /\
             litMatches true "://" wc /\
             (ws = [] \/ exists x, ws = [x] /\
                 classMatches true (Class false (One (N_of_ascii "s"))) x = true)).
  { destruct Hs as [Hs | Hs].
    - destruct scheme as [|c1 [|c2 [|c3 [|c4 t]]]]; try discriminate.
      exists [c1; c2; c3; c4], [], t. split; [reflexivity|].
      simpl in Hs. injection Hs as E1 E2 E3 E4 Et. split; [|split].
      + apply litMatches_of_lower; [reflexivity|]. simpl. rewrite E1, E2, E3, E4.
        reflexivity.
      + apply litMatches_of_lower; [reflexivity | exact Et].
      + left. reflexivity.
    - destruct scheme as [|c1 [|c2 [|c3 [|c4 [|c5 t]]]]]; try discriminate.
      exists [c1; c2; c3; c4], [c5], t. split; [reflexivity|].
      simpl in Hs. injection Hs as E1 E2 E3 E4 E5 Et. split; [|split].
      + apply litMatches_of_lower; [reflexivity|]. simpl. rewrite E1, E2, E3, E4.
        reflexivity.
      + apply litMatches_of_lower; [reflexivity | exact Et].
      + right. exists c5. split; [reflexivity|].
        apply One_matches_of_lower; [reflexivity | exact E5]. }
  destruct Hsch as (wh & ws & wc & -> & M1 & M3 & M2).
  apply litMatches_of_lower in Hh; [|reflexivity].
  set (tail := c :: rest).
  apply matchAt_complete with
    (st' := State (c :: rev host ++ rev ww ++ rev wc ++ rev ws ++ rev wh ++ pre) rest []).
  change (ignoreCase GITHUB_REGEX) with true.
  unfold GITHUB_REGEX. cbn [pattern seqs run].
  rewrite <- !app_assoc.
  exists (State (rev wh ++ pre) (ws ++ wc ++ ww ++ host ++ tail) []).
  split; [apply text_run; exact M1|].
  exists (State (rev ws ++ rev wh ++ pre) (wc ++ ww ++ host ++ tail) []). split.
  { destruct M2 as [-> | (x & -> & Hx)]; [apply opt_skip|].
    apply opt_take; [|cbn [after app length]; lia].
    exists x, (wc ++ ww ++ host ++ tail). repeat split; auto. }
  exists (State (rev wc ++ rev ws ++ rev wh ++ pre) (ww ++ host ++ tail) []).
  split; [apply text_run; exact M3|].
  exists (State (rev ww ++ rev wc ++ rev ws ++ rev wh ++ pre) (host ++ tail) []). split.
  { destruct Hw as [-> | Hw]; [apply opt_skip|].
    apply litMatches_of_lower in Hw; [|reflexivity].
    apply opt_take; [apply text_run; exact Hw|].
    cbn [after]. destruct ww; [simpl in Hw; contradiction|].
    cbn [app length]. rewrite !length_app. lia. }
  exists (State (rev host ++ rev ww ++ rev wc ++ rev ws ++ rev wh ++ pre) tail []).
  split; [apply text_run; exact Hh|].
  exists [c]. cbn [before after captures]. repeat split.
  - constructor; [|constructor]. rewrite path_matches, Hc.
    apply N.eqb_neq in Hp. unfold eqc. rewrite Hp. reflexivity.
  - simpl. lia.
Qed.

Lemma matchGlobal_exec (re : RegExp.t) (s : jsstring) :
  match exec re s with
  | Some f => exists rest, matchGlobal re s = Some (whole f :: rest)
  | None => matchGlobal re s = None
  end.
Proof.
  unfold exec, matchGlobal. pose proof (matchesFrom_first re s []) as H.
  destruct (execFrom re [] s) as [f|].
  - destruct H as [rest ->]. exists rest. reflexivity.
  - rewrite H. reflexivity.
Qed.

Lemma replaceFirst_Forall (re : RegExp.t) (P : char -> Prop) (by_ s : jsstring) :
  Forall P s -> Forall P by_ -> Forall P (replaceFirst re by_ s).
Proof.
  intros Hs Hb. unfold replaceFirst. destruct (exec re s) as [f|] eqn:E; [|exact Hs].
  apply execFrom_sound in E as (skipped & st' & Hp & Hpre & _).
  rewrite app_nil_r in Hpre. rewrite Hpre, rev_involutive.
  rewrite Hp in Hs. apply Forall_app in Hs as [H1 Hs]. apply Forall_app in Hs as [_ H3].
  apply Forall_app. split; [exact H1|]. apply Forall_app. split; assumption.
Qed.

Lemma trailing_matches (c : char) :
  classMatches false
    (Class false (unions Space [chr ","; chr "."; chr ";"; chr ")"])) c =
  trailingChar c.
Proof.
  unfold classMatches, csetMatches, trailingChar. simpl.
  rewrite !orb_assoc.
  destruct (isSpace c || eqc c 44 || eqc c 46 || eqc c 59 || eqc c 41)%N; reflexivity.
Qed.

(** The removal of what trails a link: the longest end of the text made of
    white space, commas, dots, semicolons and closing parentheses. *)
Lemma trailing_removed (w : jsstring) :
  exists tail : jsstring,
    w = (replaceFirst RE_TRAILING [] w ++ tail)%list /\
    Forall (fun c => trailingChar c = true) tail /\
    forall (t : jsstring) (c : char),
      replaceFirst RE_TRAILING [] w = (t ++ [c])%list -> trailingChar c = false.
Proof.
  unfold replaceFirst.
  destruct (exec RE_TRAILING w) as [f|] eqn:E.
  2:{ exfalso. revert E. unfold exec. rewrite <- (app_nil_r w) at 1.
      apply execFrom_complete. discriminate. }
  apply execFrom_first in E as (skipped & rest & Hw & Hm & Hfirst).
  rewrite app_nil_r in Hm.
  pose proof Hm as Hm'.
  apply matchAt_sound in Hm' as (st' & Hrun & Hpre & Hpost & _ & Ha & _).
  unfold RE_TRAILING, star in Hrun. cbn [pattern ignoreCase run] in Hrun.
  destruct Hrun as (st1 & (w1 & A1 & F1 & _ & E1) & [Hend ->]).
  cbn [after] in A1. rewrite Hend, app_nil_r in A1. subst w1.
  rewrite Hpre, rev_involutive, <- Ha, Hend, app_nil_r.
  exists rest. split; [exact Hw|]. split.
  - eapply Forall_impl; [|exact F1]. intros c Hc. cbv beta in Hc.
    rewrite trailing_matches in Hc. exact Hc.
  - intros t c Hs. destruct (trailingChar c) eqn:Ec; [exfalso|reflexivity].
    assert (Hn : matchAt RE_TRAILING (rev t) ([c] ++ rest) = None).
    { rewrite <- (app_nil_r (rev t)). apply Hfirst; [exact Hs | discriminate]. }
    revert Hn.
    apply matchAt_complete with (st' := State (rev (c :: rest) ++ rev t) [] []).
    unfold RE_TRAILING, star. cbn [pattern ignoreCase run].
    exists (State (rev (c :: rest) ++ rev t) [] []). split; [|split; reflexivity].
    exists (c :: rest). cbn [before after captures]. rewrite app_nil_r.
    repeat split; [|simpl; lia].
    constructor; [rewrite trailing_matches; exact Ec | exact F1].
Qed.

(** The path of a link is read as far as it goes: what follows the match is
    white space, a closing parenthesis, or nothing. *)
Lemma github_match_end (pre s : jsstring) (f : found) :
  matchAt GITHUB_REGEX pre s = Some f ->
  match suffix f with
  | [] => True
  | c :: _ => isSpace c = true \/ c = 41%N
  end.
Proof.
  unfold matchAt. intros H.
  destruct (m _ _ _ Some) as [res|] eqn:E; [|discriminate].
  inversion H; subst f; clear H. cbn [suffix].
  change (ignoreCase GITHUB_REGEX) with true in E.
  unfold GITHUB_REGEX in E. cbn [pattern seqs] in E.
  apply (@m_sound true (text "http")) in E as (st1 & _ & E).
  apply (@m_sound true (opt (lit "s"))) in E as (st2 & _ & E).
  apply (@m_sound true (text "://")) in E as (st3 & _ & E).
  apply (@m_sound true (opt (text "www."))) in E as (st4 & _ & E).
  apply (@m_sound true (text "github.com/")) in E as (st5 & _ & E).
  simpl in E.
  apply many_greedy_longest in E as (u & rest & _ & _ & _ & E & Hnext);
    [|discriminate].
  inversion E; subst res; clear E. cbn [after].
  destruct rest as [|c rest]; [exact I|].
  rewrite path_matches in Hnext.
  apply negb_false_iff, orb_true_iff in Hnext as [Hn | Hn]; [left; exact Hn|].
  right. apply N.eqb_eq. exact Hn.
Qed.

Lemma GITHUB_REGEX_alphabet :
  classesWithin true (fun c => isSpace c = false /\ c <> 41%N) (pattern GITHUB_REGEX).
Proof.
  assert (L : forall x c,
             isUpper x = false -> isSpace x = false -> x <> 41%N ->
             classMatches true (Class false (One x)) c = true ->
             isSpace c = false /\ c <> 41%N).
  { intros x c Hu Hs Hx H. apply One_matches_lower in H; [|exact Hu]. split.
    - rewrite <- (isSpace_lowerChar c), H. exact Hs.
    - intros ->. apply Hx. rewrite <- H. reflexivity. }
  unfold GITHUB_REGEX, opt, lit. cbn [pattern seqs text lit classesWithin].
  repeat match goal with |- _ /\ _ => split end; intros c Hc;
    first [ apply (fun a b d => L _ c a b d Hc);
            [reflexivity | reflexivity | vm_compute; discriminate]
          | rewrite path_matches in Hc;
            apply negb_true_iff, orb_false_iff in Hc as [Hs Hp];
            apply N.eqb_neq in Hp; split; assumption ].
Qed.

(** The raw link of a text: the first place of the text at which a link
    starts, read as far as its path goes, without what trails it. *)
Lemma rawGithubUrl_spec (cleaned : jsstring) :
  match extractRawGithubUrl cleaned with
  | Some raw =>
      exists (pre tail post : jsstring) (c : char) (w : jsstring),
        cleaned = (pre ++ raw ++ tail ++ post)%list /\
        linkAt (raw ++ tail ++ post)%list /\
        (forall p1 s1 : jsstring,
            cleaned = (p1 ++ s1)%list -> (length p1 < length pre)%nat -> ~ linkAt s1) /\
        raw = c :: w /\ lowerChar c = 104%N /\
        Forall (fun c => isSpace c = false /\ c <> 41%N) (raw ++ tail)%list /\
        Forall (fun c => trailingChar c = true) tail /\
        (forall (t : jsstring) (x : char), raw = (t ++ [x])%list -> trailingChar x = false) /\
        match post with
        | [] => True
        | x :: _ => isSpace x = true \/ x = 41%N
        end
  | None => forall pre s : jsstring, cleaned = (pre ++ s)%list -> ~ linkAt s
  end.
Proof.
  unfold extractRawGithubUrl.
  pose proof (matchGlobal_exec GITHUB_REGEX cleaned) as H.
  destruct (exec GITHUB_REGEX cleaned) as [f|] eqn:E.
  - destruct H as [more ->]. cbn [orEmpty length Nat.ltb Nat.leb nth_error].
    apply execFrom_first in E as (skipped & rest & Hp & Hm & Hfirst).
    rewrite app_nil_r in Hm.
    destruct (@github_match_sound _ _ _ Hm) as (Hlink & c & w & Hw & Hc).
    pose proof (@github_match_end _ _ _ Hm) as Hend.
    pose proof (@matchAt_alphabet GITHUB_REGEX _ _ _ _ GITHUB_REGEX_alphabet Hm) as Hall.
    apply matchAt_sound in Hm as (_ & _ & _ & Hrest & _).
    rewrite Hw. cbn [truthy]. rewrite <- Hw.
    destruct (trailing_removed (whole f)) as (tail & Ht & Ftail & Hlast).
    set (raw := replaceFirst RE_TRAILING [] (whole f)) in *.
    assert (Hraw : exists w', raw = c :: w').
    { destruct raw as [|x w'].
      - exfalso. simpl in Ht. rewrite Hw in Ht. subst tail.
        apply Forall_inv in Ftail. unfold trailingChar in Ftail.
        rewrite <- (isSpace_lowerChar c), Hc in Ftail.
        unfold eqc in Ftail.
        destruct (N.eqb_spec c 44), (N.eqb_spec c 46), (N.eqb_spec c 59),
          (N.eqb_spec c 41); subst; try discriminate.
      - exists w'. rewrite Hw in Ht. simpl in Ht. injection Ht as -> _. reflexivity. }
    destruct Hraw as (w' & Hraw).
    exists skipped, tail, (suffix f), c, w'.
    assert (Hs : rest = (raw ++ tail ++ suffix f)%list).
    { rewrite Hrest, Ht at 1. rewrite <- app_assoc. reflexivity. }
    split; [rewrite Hp, Hs; reflexivity|].
    split; [rewrite <- Hs; exact Hlink|].
    split.
    { intros p1 s1 H1 Hlen Hl.
      assert (Hsplit : exists s2, skipped = (p1 ++ s2)%list /\ s2 <> [] /\
                                  s1 = (s2 ++ rest)%list).
      { rewrite Hp in H1. clear -H1 Hlen. revert p1 H1 Hlen.
        induction skipped as [|a skipped IH]; intros p1 H1 Hlen; [simpl in Hlen; lia|].
        destruct p1 as [|b p1].
        - exists (a :: skipped). simpl in H1. subst s1. repeat split. discriminate.
        - simpl in H1. injection H1 as <- H1. simpl in Hlen.
          destruct (IH p1 H1 ltac:(lia)) as (s2 & -> & Hne & ->).
          exists s2. repeat split. exact Hne. }
      destruct Hsplit as (s2 & Hsk & Hne & ->).
      pose proof (Hfirst _ _ Hsk Hne) as Hnone. rewrite app_nil_r in Hnone.
      revert Hnone. apply github_match_complete. exact Hl. }
    split; [exact Hraw|]. split; [exact Hc|].
    split; [rewrite <- Ht; exact Hall|].
    split; [exact Ftail|]. split; [exact Hlast | exact Hend].
  - rewrite H. cbn [orEmpty length Nat.ltb Nat.leb truthy].
    intros pre s Hs Hl. unfold exec in E.
    pose proof (proj1 (execFrom_None GITHUB_REGEX cleaned []) E (pre) s Hs) as Hn.
    revert Hn. apply github_match_complete. exact Hl.
Qed.

Lemma parse_github (text : jsstring) (r : ParsedResume) :
  parseResumeText text = Ok r ->
  githubUsername r = extractGithubUsername (extractRawGithubUrl (rawText r)) /\
  githubUrl r =
    match githubUsername r with
    | Some username => Some (str "https://github.com/" ++ username)%list
    | None => extractRawGithubUrl (rawText r)
    end.
Proof.
  intros H. unfold parseResumeText in H.
  destruct (extractSkills (cleanText text)) as [l|e]; unfold bind in H; [|discriminate].
  inversion H; subst r; clear H. cbn [githubUsername githubUrl rawText].
  split; reflexivity.
Qed.

(** X12: [githubUrl] is null exactly when no link to the host starts anywhere
    in the cleaned text, and then [githubUsername] is null too. *)
Theorem githubUrl_null (text : jsstring) (r : ParsedResume) :
  parseResumeText text = Ok r ->
  (githubUrl r = None <->
   forall pre s : jsstring, rawText r = (pre ++ s)%list -> ~ linkAt s) /\
  (githubUrl r = None -> githubUsername r = None).
Proof.
  intros H. destruct (@parse_github _ _ H) as [Hu Hl].
  pose proof (rawGithubUrl_spec (rawText r)) as Hraw.
  rewrite Hl, Hu. clear Hu Hl.
  destruct (extractRawGithubUrl (rawText r)) as [raw|].
  - destruct Hraw as (pre & tail & post & c & w & Ht & Hlink & _).
    assert (Hsome : match extractGithubUsername (Some raw) with
                    | Some username => Some (str "https://github.com/" ++ username)%list
                    | None => Some raw
                    end <> None)
      by (destruct (extractGithubUsername (Some raw)); discriminate).
    split; [split|]; intros Hn; try contradiction.
    exfalso. exact (Hn _ _ Ht Hlink).
  - cbn [extractGithubUsername truthy]. split; [split|]; auto.
Qed.

Lemma githubUrl_null_witness :
  exists r,
    parseResumeText (str "Jane Doe" ++ [LF] ++ str "gitlab.com/janedoe") = Ok r /\
    githubUrl r = None /\ githubUsername r = None.
Proof.
  eexists. split; [vm_compute; reflexivity|].
  match goal with
  | |- githubUrl ?r = _ /\ _ =>
      destruct (@githubUrl_null (str "Jane Doe" ++ [LF] ++ str "gitlab.com/janedoe") r)
        as [_ Hu]; [vm_compute; reflexivity|]
  end.
  split; [reflexivity | apply Hu; reflexivity].
Defined.

(** X13: when no user name is read, [githubUrl] is the first link of the
    cleaned text as it is written: it starts at the first place where a link
    starts; the link holds neither white space nor a closing parenthesis and
    goes on to the next one, or to the end of the text; [githubUrl] is this
    link without the white space, commas, dots, semicolons and closing
    parentheses that end it. *)
Theorem githubUrl_raw_link (text : jsstring) (r : ParsedResume) (url : jsstring) :
  parseResumeText text = Ok r ->
  githubUsername r = None ->
  githubUrl r = Some url ->
  exists pre tail post : jsstring,
    rawText r = (pre ++ url ++ tail ++ post)%list /\
    linkAt (url ++ tail ++ post)%list /\
    (forall p1 s1 : jsstring,
        rawText r = (p1 ++ s1)%list -> (length p1 < length pre)%nat -> ~ linkAt s1) /\
    Forall (fun c => isSpace c = false /\ c <> 41%N) (url ++ tail)%list /\
    match post with
    | [] => True
    | x :: _ => isSpace x = true \/ x = 41%N
    end /\
    Forall (fun c => trailingChar c = true) tail /\
    (forall (t : jsstring) (x : char), url = (t ++ [x])%list -> trailingChar x = false).
Proof.
  intros H Hnone Hurl. destruct (@parse_github _ _ H) as [_ Hl].
  rewrite Hnone in Hl. rewrite Hl in Hurl.
  pose proof (rawGithubUrl_spec (rawText r)) as Hraw. rewrite Hurl in Hraw.
  destruct Hraw as (pre & tail & post & c & w & Ht & Hlink & Hfirst & _ & _ & Hall &
                    Ftail & Hlast & Hend).
  exists pre, tail, post.
  split; [exact Ht|]. split; [exact Hlink|]. split; [exact Hfirst|].
  split; [exact Hall|]. split; [exact Hend|]. split; [exact Ftail | exact Hlast].
Qed.

Lemma githubUrl_raw_link_witness :
  exists r,
    parseResumeText (str "See (HTTPS://GitHub.com/JaneDoe/cv.). Thanks") = Ok r /\
    githubUsername r = None /\
    githubUrl r = Some (str "HTTPS://GitHub.com/JaneDoe/cv") /\
    exists pre tail post : jsstring,
      rawText r = (pre ++ str "HTTPS://GitHub.com/JaneDoe/cv" ++ tail ++ post)%list /\
      Forall (fun c => isSpace c = false /\ c <> 41%N)
        (str "HTTPS://GitHub.com/JaneDoe/cv" ++ tail)%list /\
      Forall (fun c => trailingChar c = true) tail.
Proof.
  eexists. split; [vm_compute; reflexivity|]. split; [reflexivity|].
  split; [reflexivity|].
  match goal with
  | |- exists pre tail post, rawText ?r = _ /\ _ =>
      destruct (@githubUrl_raw_link
                  (str "See (HTTPS://GitHub.com/JaneDoe/cv.). Thanks") r
                  (str "HTTPS://GitHub.com/JaneDoe/cv"))
        as (pre & tail & post & Ht & _ & _ & Hall & _ & Ftail & _);
        [vm_compute; reflexivity | reflexivity | reflexivity |]
  end.
  exists pre, tail, post. split; [exact Ht|]. split; [exact Hall | exact Ftail].
Defined.

(** X14: a [githubUrl] that is not null starts with the letter h, in either
    case, and holds neither white space nor a closing parenthesis. *)
Theorem githubUrl_chars (text : jsstring) (r : ParsedResume) (url : jsstring) :
  parseResumeText text = Ok r ->
  githubUrl r = Some url ->
  (exists (c : char) (w : jsstring), url = c :: w /\ lowerChar c = 104%N) /\
  Forall (fun c => isSpace c = false /\ c <> 41%N) url.
Proof.
  intros H Hurl. destruct (@parse_github _ _ H) as [Hu Hl].
  rewrite Hl, Hu in Hurl. clear Hu Hl.
  pose proof (rawGithubUrl_spec (rawText r)) as Hraw.
  destruct (extractRawGithubUrl (rawText r)) as [raw|];
    [|cbn [extractGithubUsername truthy] in Hurl; discriminate].
  destruct Hraw as (pre & tail & post & c & w & _ & _ & _ & Hw & Hc & Hall & _).
  apply Forall_app in Hall as [Hall _].
  unfold extractGithubUsername in Hurl.
  destruct (truthy (Some raw)).
  2:{ injection Hurl as <-. split; [exists c, w; auto | exact Hall]. }
  destruct (matchFirst RE_USERNAME _) as [f|] eqn:E.
  2:{ injection Hurl as <-. split; [exists c, w; auto | exact Hall]. }
  apply username_shape in E as (host & u & rest & Hg & Hs & _).
  rewrite Hg in Hurl. injection Hurl as <-. split.
  - eexists _, _. split; reflexivity.
  - assert (Hrep : Forall (fun c => isSpace c = false /\ c <> 41%N)
                     (replaceFirst RE_WWW [] (replaceFirst RE_SCHEME [] raw))).
    { apply replaceFirst_Forall; [|constructor].
      apply replaceFirst_Forall; [exact Hall | constructor]. }
    rewrite Hs in Hrep. apply Forall_app in Hrep as [_ Hrep].
    apply Forall_app in Hrep as [Hrep _].
    change (Forall (fun c => isSpace c = false /\ c <> 41%N)
              (str "https://github.com/" ++ u)%list).
    apply Forall_app. split; [|exact Hrep].
    repeat constructor; discriminate.
Qed.

Lemma githubUrl_chars_witness :
  exists r,
    parseResumeText (str "Code: (https://www.github.com/janedoe/resume).") = Ok r /\
    githubUrl r = Some (str "https://github.com/janedoe") /\
    Forall (fun c => isSpace c = false /\ c <> 41%N) (str "https://github.com/janedoe").
Proof.
  eexists. split; [vm_compute; reflexivity|]. split; [reflexivity|].
  eapply (@githubUrl_chars (str "Code: (https://www.github.com/janedoe/resume).")).
  - vm_compute. reflexivity.
  - reflexivity.
Defined.

(** ** Name and headline in the text *)

Lemma splitAcc_pieces (sep : char) (s : jsstring) :
  forall cur piece,
    Forall (fun c => c <> sep) cur -> In piece (splitAcc sep cur s) ->
    Forall (fun c => c <> sep) piece /\
    exists a b : jsstring, (rev cur ++ s)%list = (a ++ piece ++ b)%list.
Proof.
  induction s as [|c s IH]; intros cur piece Hcur Hin; cbn [splitAcc] in Hin.
  - destruct Hin as [<- | []]. split; [apply Forall_rev; exact Hcur|].
    exists [], []. rewrite !app_nil_r. reflexivity.
  - unfold eqc in Hin. destruct (N.eqb_spec c sep) as [E | E].
    + destruct Hin as [<- | Hin].
      * split; [apply Forall_rev; exact Hcur|]. exists [], (c :: s). reflexivity.
      * assert (Hc : Forall (fun x => x <> sep) []) by constructor.
        destruct (IH [] piece Hc Hin) as (Hp & a & b & Hs).
        split; [exact Hp|]. simpl in Hs. rewrite Hs.
        exists (rev cur ++ c :: a), b. rewrite <- app_assoc. reflexivity.
    + assert (Hc : Forall (fun x => x <> sep) (c :: cur)) by (constructor; assumption).
      destruct (IH (c :: cur) piece Hc Hin) as (Hp & a & b & Hs).
      split; [exact Hp|]. exists a, b. rewrite <- Hs. simpl.
      rewrite <- app_assoc. reflexivity.
Qed.

Lemma extractName_In (lines : list jsstring) (n : jsstring) :
  extractName lines = Some n ->
  exists line, In line lines /\ n = trim line /\ nameLine n.
Proof.
  induction lines as [|line rest IH]; cbn [extractName]; [discriminate|].
  pose proof (nameOfLine_nameLine line) as Hl.
  destruct (nameOfLine line) as [t|].
  - intros H. injection H as <-. destruct Hl as [Ht Hn].
    exists line. split; [left; reflexivity | split; assumption].
  - intros H. destruct (IH H) as (l & Hin & Ht & Hn).
    exists l. split; [right; exact Hin | split; assumption].
Qed.

Lemma extractHeadline_In (lines : list jsstring) (name : option jsstring) (h : jsstring) :
  extractHeadline lines name = Some h ->
  name <> None /\
  exists next, In next lines /\ h = trim next /\ h <> [] /\ (length h <= 80)%nat.
Proof.
  unfold extractHeadline. destruct (truthy name); cbn [negb]; [|discriminate].
  destruct name as [name|]; [|discriminate].
  destruct (_ && _); [|discriminate].
  destruct (nth_error lines _) as [next|] eqn:E; [|discriminate].
  destruct (truthy (Some (trim next)) && (length (trim next) <=? 80)%nat) eqn:C;
    [|discriminate].
  intros H. injection H as <-. apply andb_true_iff in C as [C1 C2].
  split; [discriminate|]. exists next. split; [eapply nth_error_In; exact E|].
  split; [reflexivity|]. split.
  - destruct (trim next); [discriminate C1 | discriminate].
  - apply Nat.leb_le. exact C2.
Qed.

(** X18: a name and a headline are trimmed lines of the cleaned text: they
    occur in it, hold no line feed and neither start nor end with white
    space; the name has between 1 and 60 code units and no digit, the
    headline between 1 and 80, and there is no headline without a name. *)
Theorem name_headline_in_text (text : jsstring) (r : ParsedResume) :
  parseResumeText text = Ok r ->
  (forall n, name r = Some n ->
     includes (rawText r) n = true /\ Forall (fun c => c <> LF) n /\
     noEdgeSpace n /\ (1 <= length n <= 60)%nat /\
     Forall (fun c => isDigit c = false) n) /\
  (forall h, headline r = Some h ->
     name r <> None /\
     includes (rawText r) h = true /\ Forall (fun c => c <> LF) h /\
     noEdgeSpace h /\ (1 <= length h <= 80)%nat).
Proof.
  intros H. unfold parseResumeText in H.
  destruct (extractSkills (cleanText text)) as [l|e]; unfold bind in H; [|discriminate].
  inversion H; subst r; clear H. cbn [name headline rawText].
  set (cleaned := cleanText text).
  assert (Hline : forall line, In line (splitOn LF cleaned) ->
            includes cleaned (trim line) = true /\
            Forall (fun c => c <> LF) (trim line) /\ noEdgeSpace (trim line)).
  { intros line Hin. unfold splitOn in Hin.
    assert (Hc : Forall (fun x => x <> LF) []) by constructor.
    destruct (@splitAcc_pieces LF cleaned [] line Hc Hin) as (Hp & a & b & Hs).
    simpl in Hs. split; [eapply noEdgeSpace_Forall_includes; exact Hs|].
    split; [apply trim_Forall; exact Hp | apply noEdgeSpace_trim]. }
  split.
  - intros n Hn. apply extractName_In in Hn as (line & Hin & -> & Hshape).
    destruct (Hline line Hin) as (Hi & Hf & He).
    destruct Hshape as (Hne & Hlen & Hdig & _).
    split; [exact Hi|]. split; [exact Hf|]. split; [exact He|].
    split; [|exact Hdig]. split; [|exact Hlen].
    destruct (trim line); [contradiction | simpl; lia].
  - intros h Hh. apply extractHeadline_In in Hh as (Hname & next & Hin & -> & Hne & Hlen).
    destruct (Hline next Hin) as (Hi & Hf & He).
    split; [exact Hname|]. split; [exact Hi|]. split; [exact Hf|].
    split; [exact He|]. split; [|exact Hlen].
    destruct (trim next); [contradiction | simpl; lia].
Qed.

Lemma name_headline_in_text_witness :
  exists r,
    parseResumeText (str "  Jane Doe " ++ [LF] ++ str " Staff Engineer ") = Ok r /\
    name r = Some (str "Jane Doe") /\
    headline r <> None /\
    includes (rawText r) (str "Jane Doe") = true.
Proof.
  eexists. split; [vm_compute; reflexivity|]. split; [reflexivity|].
  split; [cbn [headline]; discriminate|].
  match goal with
  | |- includes (rawText ?r) _ = true =>
      destruct (@name_headline_in_text
                  (str "  Jane Doe " ++ [LF] ++ str " Staff Engineer ") r)
        as [Hn _]; [vm_compute; reflexivity|];
      apply (Hn (str "Jane Doe")); reflexivity
  end.
Defined.

(** ** Range of the scores *)

(** X21: a score is at least the length score, a tenth of the length capped
    at 10, and at most 34 above it; so it lies between 0 and 44, and is
    above 0 for a sentence that is not empty. *)
Theorem scoreSentence_range (sentence : jsstring) :
  Qmin (inject_Z (Z.of_nat (length sentence)) / 10) 10 <= scoreSentence sentence /\
  scoreSentence sentence <= Qmin (inject_Z (Z.of_nat (length sentence)) / 10) 10 + 34 /\
  0 <= scoreSentence sentence /\ scoreSentence sentence <= 44 /\
  (sentence <> [] -> 0 < scoreSentence sentence).
Proof.
  assert (Hlen : 0 <= inject_Z (Z.of_nat (length sentence)) / 10).
  { apply Qle_shift_div_l; [reflexivity|]. rewrite Qmult_0_l.
    change 0 with (inject_Z 0). rewrite <- Zle_Qle. lia. }
  assert (Hpos : sentence <> [] -> 0 < inject_Z (Z.of_nat (length sentence)) / 10).
  { intros Hne. apply Qlt_shift_div_l; [reflexivity|]. rewrite Qmult_0_l.
    change 0 with (inject_Z 0). rewrite <- Zlt_Qlt.
    destruct sentence; [contradiction | simpl; lia]. }
  assert (Hmin0 : 0 <= Qmin (inject_Z (Z.of_nat (length sentence)) / 10) 10)
    by (apply Q.min_glb; [exact Hlen | discriminate]).
  assert (Hmin1 : sentence <> [] ->
                  0 < Qmin (inject_Z (Z.of_nat (length sentence)) / 10) 10)
    by (intros Hne; apply Q.min_glb_lt; [apply Hpos; exact Hne | reflexivity]).
  pose proof (Q.le_min_r (inject_Z (Z.of_nat (length sentence)) / 10) 10) as Hmin10.
  assert (Hk : (length (keywordsFound sentence) <= 16)%nat)
    by (unfold keywordsFound; apply (filter_length_le _ SUMMARY_KEYWORDS)).
  assert (Hk0 : 0 <= inject_Z (Z.of_nat (length (keywordsFound sentence))))
    by (change 0 with (inject_Z 0); rewrite <- Zle_Qle; lia).
  assert (Hk16 : inject_Z (Z.of_nat (length (keywordsFound sentence))) <= 16)
    by (change 16 with (inject_Z 16); rewrite <- Zle_Qle; lia).
  unfold scoreSentence. cbv zeta.
  revert Hmin0 Hmin1 Hmin10 Hk0 Hk16.
  generalize (Qmin (inject_Z (Z.of_nat (length sentence)) / 10) 10).
  intros lengthScore Hmin0 Hmin1 Hmin10 Hk0 Hk16.
  destruct (test RE_BULLET sentence);
    destruct (includes sentence (str "%") || isSome (matchFirst RE_NUMBER sentence));
    rewrite keyword_points;
    change (filter _ SUMMARY_KEYWORDS) with (keywordsFound sentence);
    revert Hk0 Hk16;
    generalize (inject_Z (Z.of_nat (length (keywordsFound sentence))));
    intros found Hk0 Hk16;
    (split; [lra|]; split; [lra|]; split; [lra|]; split; [lra|];
     intros Hne; specialize (Hmin1 Hne); lra).
Qed.

Lemma scoreSentence_range_witness : 0 < scoreSentence (str "Led it.").
Proof.
  destruct (@scoreSentence_range (str "Led it.")) as (_ & _ & _ & _ & H).
  apply H. discriminate.
Defined.

(** * Properties of the GitHub route *)

Section GithubRouteFacts.
Import GithubRoute.

Lemma truncate_floor (q : Q) : 0 <= q -> truncate q = Qfloor q.
Proof.
  intros H. unfold truncate, Qfloor. destruct q as [n d]. cbn [Qnum Qden].
  apply Z.quot_div_nonneg; [|lia]. unfold Qle in H. simpl in H. lia.
Qed.

Lemma truncate_range (q : Q) : 0 < q -> q <= 10 -> (0 <= truncate q <= 10)%Z.
Proof.
  intros H0 H10. rewrite truncate_floor by lra. split.
  - change 0%Z with (Qfloor 0). apply Qfloor_resp_le. lra.
  - change 10%Z with (Qfloor 10). apply Qfloor_resp_le. exact H10.
Qed.

(** The limit in force is a finite number above 0 and at most 10. *)
Lemma repoLimit_range (v : value) :
  exists q, repoLimit v = Finite q /\ 0 < q /\ q <= 10.
Proof.
  assert (D : exists q, DEFAULT_REPO_LIMIT = Finite q /\ 0 < q /\ q <= 10)
    by (exists 6; split; [reflexivity | split; [reflexivity | discriminate]]).
  destruct v as [[q| |]|]; cbn [repoLimit gtZero]; auto.
  - destruct (positive q) eqn:E; [|exact D]. apply positive_spec in E.
    cbn [Math_min]. destruct (Qle_bool q 10) eqn:L.
    + exists q. apply Qle_bool_iff in L. auto.
    + exists 10. split; [reflexivity | split; [reflexivity | discriminate]].
  - exists 10. split; [reflexivity | split; [reflexivity | discriminate]].
Qed.

Lemma firstn_min_length (A : Type) (k : Z) (l : list A) :
  firstn (Z.to_nat (Z.min k (Z.of_nat (length l)))) l = firstn (Z.to_nat k) l.
Proof.
  destruct (Z.le_ge_cases k (Z.of_nat (length l))) as [H | H].
  - rewrite Z.min_l by exact H. reflexivity.
  - rewrite Z.min_r by exact H. rewrite Nat2Z.id.
    rewrite firstn_all, firstn_all2; [reflexivity | lia].
Qed.

Lemma sliceTo_firstn (A : Type) (q : Q) (l : list A) :
  0 <= q -> sliceTo (Finite q) l = firstn (Z.to_nat (Qfloor q)) l.
Proof.
  intros H. unfold sliceTo. rewrite truncate_floor by exact H.
  assert (H0 : (0 <= Qfloor q)%Z)
    by (change 0%Z with (Qfloor 0); apply Qfloor_resp_le; exact H).
  destruct (Z.ltb_spec (Qfloor q) 0); [lia|]. apply firstn_min_length.
Qed.

Lemma filter_head (A : Type) (p : A -> bool) (l : list A) (x : A) (t : list A) :
  filter p l = x :: t ->
  exists before after,
    l = before ++ x :: after /\ Forall (fun a => p a = false) before.
Proof.
  induction l as [|a l IH]; simpl; [discriminate|].
  destruct (p a) eqn:E.
  - intros H. injection H as -> _. exists [], l. split; [reflexivity | constructor].
  - intros H. destruct (IH H) as (before & after & -> & F).
    exists (a :: before), after. split; [reflexivity | constructor; assumption].
Qed.

(** X15: whatever the request says, at most 10 repositories are selected;
    they are in descending order of stars, they are repositories of the
    list, and no repository left out has more stars than a selected one. *)
Theorem sortedRepos_selection (body_repoLimit : value) (repos : list Repo) :
  (length (sortedRepos (repoLimit body_repoLimit) repos) <= 10)%nat /\
  StronglySorted (fun a b => stargazers_count b <= stargazers_count a)
    (sortedRepos (repoLimit body_repoLimit) repos) /\
  exists rest,
    Permutation repos (sortedRepos (repoLimit body_repoLimit) repos ++ rest) /\
    forall a b,
      In a (sortedRepos (repoLimit body_repoLimit) repos) -> In b rest ->
      stargazers_count b <= stargazers_count a.
Proof.
  destruct (repoLimit_range body_repoLimit) as (q & -> & H0 & H10).
  unfold sortedRepos. rewrite sliceTo_firstn by lra.
  pose proof (truncate_range H0 H10) as Hk. rewrite truncate_floor in Hk by lra.
  set (k := Z.to_nat (Qfloor q)).
  set (ranked := sort byStarsDesc repos).
  pose proof (sort_perm stargazers_count repos) as Hp. fold byStarsDesc ranked in Hp.
  pose proof (sort_sorted stargazers_count repos) as Hs. fold byStarsDesc ranked in Hs.
  rewrite <- (firstn_skipn k ranked) in Hs, Hp.
  split; [|split].
  - rewrite length_firstn. unfold k. lia.
  - clear -Hs. induction (firstn k ranked) as [|a l IH]; [constructor|].
    simpl in Hs. inversion Hs as [|? ? Hl Ha]; subst. constructor; [apply IH; exact Hl|].
    apply Forall_app in Ha as [Ha _]. exact Ha.
  - exists (skipn k ranked). split; [symmetry; exact Hp|].
    intros a b Ha Hb. apply (StronglySorted_app_inv _ _ Hs a b Ha Hb).
Qed.

(** X16: a limit above 0 selects as many repositories as its whole part, 10
    at most, when the list has that many; a limit between 0 and 1 selects
    none, and then there is no spotlight. *)
Theorem sortedRepos_count (q : Q) (repos : list Repo) :
  0 < q ->
  length (sortedRepos (repoLimit (Num (Finite q))) repos) =
    Nat.min (Z.to_nat (Qfloor (Qmin q 10))) (length repos) /\
  (q < 1 ->
   forall fetchReadmeExcerpt username,
     spotlight fetchReadmeExcerpt username (Num (Finite q)) repos = None).
Proof.
  intros H0.
  assert (Hl : repoLimit (Num (Finite q)) = Finite (Qmin q 10)).
  { cbn [repoLimit gtZero]. rewrite (proj2 (positive_spec q) H0). cbn [Math_min].
    unfold Qmin, GenericMinMax.gmin.
    destruct (Qle_bool q 10) eqn:L; destruct (q ?= 10) eqn:C; try reflexivity.
    - apply Qle_bool_iff in L. apply Qgt_alt in C. lra.
    - assert (Hq : q <= 10) by (apply Qeq_alt in C; lra).
      apply Qle_bool_iff in Hq. congruence.
    - assert (Hq : q <= 10) by (apply Qlt_alt in C; lra).
      apply Qle_bool_iff in Hq. congruence. }
  assert (Hm : 0 <= Qmin q 10) by (apply Q.min_glb; lra).
  split.
  - unfold sortedRepos. rewrite Hl, sliceTo_firstn by exact Hm.
    rewrite length_firstn. unfold byStarsDesc.
    rewrite (Permutation_length (sort_perm stargazers_count repos)). reflexivity.
  - intros H1 f username. unfold spotlight, sortedRepos.
    rewrite Hl, sliceTo_firstn by exact Hm.
    assert (Hf : Qfloor (Qmin q 10) = 0%Z).
    { assert (Hle : (Qfloor (Qmin q 10) <= Qfloor q)%Z)
        by (apply Qfloor_resp_le, Q.le_min_l).
      assert (H0' : (0 <= Qfloor (Qmin q 10))%Z)
        by (change 0%Z with (Qfloor 0); apply Qfloor_resp_le; exact Hm).
      assert (Hq : (Qfloor q < 1)%Z).
      { apply Z.lt_nge. intros Hge.
        pose proof (Qfloor_le q) as Hfl.
        assert (1 <= inject_Z (Qfloor q))
          by (change 1 with (inject_Z 1); rewrite <- Zle_Qle; exact Hge).
        lra. }
      lia. }
    rewrite Hf. reflexivity.
Qed.

Lemma sortedRepos_count_witness :
  length (sortedRepos (repoLimit (Num (Finite (5 # 2))))
            (repeat (Build_Repo [] [] None 0 0 0 None None None []) 4)) = 2%nat.
Proof.
  destruct (@sortedRepos_count (5 # 2)
              (repeat (Build_Repo [] [] None 0 0 0 None None None []) 4))
    as [Hlen _]; [reflexivity|].
  rewrite Hlen. reflexivity.
Defined.

(** X17: the spotlight is the repository with the most stars, and among
    those the first of the list; its excerpt is the one fetched for its
    name. *)
Theorem spotlight_most_starred
  (fetchReadmeExcerpt : jsstring -> jsstring -> option jsstring) (username : jsstring)
  (body_repoLimit : value) (repos : list Repo) (s : RepoWithReadme) :
  spotlight fetchReadmeExcerpt username body_repoLimit repos = Some s ->
  (forall r, In r repos -> stargazers_count r <= stargazers_count (repo s)) /\
  (exists before after,
      repos = before ++ repo s :: after /\
      forall r, In r before -> stargazers_count r < stargazers_count (repo s)) /\
  readmeExcerpt s = fetchReadmeExcerpt username (name (repo s)).
Proof.
  unfold spotlight, reposWithReadme.
  destruct (repoLimit_range body_repoLimit) as (q & -> & H0 & H10).
  unfold sortedRepos. rewrite sliceTo_firstn by lra.
  set (ranked := sort byStarsDesc repos).
  pose proof (sort_perm stargazers_count repos) as Hp. fold byStarsDesc ranked in Hp.
  pose proof (sort_sorted stargazers_count repos) as Hs. fold byStarsDesc ranked in Hs.
  pose proof (fun v => sort_stable stargazers_count v repos) as Hst.
  fold byStarsDesc ranked in Hst.
  destruct (Z.to_nat (Qfloor q)) as [|k]; [discriminate|].
  destruct ranked as [|x ranked]; [discriminate|].
  cbn [firstn map nth_error]. intros H. injection H as <-. cbn [repo readmeExcerpt].
  inversion Hs as [|? ? _ Hx]; subst.
  assert (Hmax : forall r, In r repos -> stargazers_count r <= stargazers_count x).
  { intros r Hr. apply (Permutation_in _ (Permutation_sym Hp)) in Hr.
    destruct Hr as [<- | Hr]; [lra|]. rewrite Forall_forall in Hx. apply Hx, Hr. }
  split; [exact Hmax|]. split; [|reflexivity].
  specialize (Hst (stargazers_count x)). cbn [filter] in Hst.
  assert (Hxx : Qeq_bool (stargazers_count x) (stargazers_count x) = true)
    by (apply Qeq_bool_iff; reflexivity).
  rewrite Hxx in Hst. symmetry in Hst.
  apply filter_head in Hst as (before & after & -> & F).
  exists before, after. split; [reflexivity|].
  intros r Hr. rewrite Forall_forall in F. pose proof (F r Hr) as Hne.
  assert (Hle : stargazers_count r <= stargazers_count x)
    by (apply Hmax, in_or_app; left; exact Hr).
  apply Qle_lteq in Hle as [Hlt | Heq]; [exact Hlt|].
  apply Qeq_bool_iff in Heq. congruence.
Qed.

Lemma spotlight_most_starred_witness :
  exists s,
    spotlight (fun _ _ => None) [] (Num (Finite 5))
      [Build_Repo [49%N] [] None 3 0 0 None None None [];
       Build_Repo [50%N] [] None 7 0 0 None None None [];
       Build_Repo [51%N] [] None 7 0 0 None None None []] = Some s /\
    name (repo s) = [50%N].
Proof.
  eexists. split; [vm_compute; reflexivity|].
  match goal with
  | |- name (repo ?s) = _ =>
      destruct (@spotlight_most_starred (fun _ _ => None) [] (Num (Finite 5))
                  [Build_Repo [49%N] [] None 3 0 0 None None None [];
                   Build_Repo [50%N] [] None 7 0 0 None None None [];
                   Build_Repo [51%N] [] None 7 0 0 None None None []] s)
        as (_ & _ & _); [vm_compute; reflexivity | reflexivity]
  end.
Defined.

(** ** Languages *)

Import Tally.

Lemma eqs_refl (a : jsstring) : eqs a a = true.
Proof. apply eqs_eq. reflexivity. Qed.

Lemma eqs_neq (a b : jsstring) : a <> b -> eqs a b = false.
Proof.
  intros H. destruct (eqs a b) eqn:E; [|reflexivity].
  apply eqs_eq in E. contradiction.
Qed.

Lemma getOwn_setOwn_same (key : jsstring) (v : Z) (o : object) :
  getOwn key (setOwn key v o) = Some v.
Proof.
  induction o as [|[k x] o IH]; cbn [setOwn getOwn].
  - rewrite eqs_refl. reflexivity.
  - destruct (eqs k key) eqn:E; cbn [getOwn]; rewrite E; [reflexivity | exact IH].
Qed.

Lemma getOwn_setOwn_other (key key' : jsstring) (v : Z) (o : object) :
  key' <> key -> getOwn key' (setOwn key v o) = getOwn key' o.
Proof.
  intros H. induction o as [|[k x] o IH]; cbn [setOwn getOwn].
  - rewrite eqs_neq by congruence. reflexivity.
  - destruct (eqs k key) eqn:E; cbn [getOwn].
    + apply eqs_eq in E. subst k. rewrite eqs_neq by congruence. reflexivity.
    + rewrite IH. reflexivity.
Qed.

Lemma getOwn_None (key : jsstring) (o : object) :
  getOwn key o = None <-> ~ In key (map fst o).
Proof.
  induction o as [|[k x] o IH]; cbn [getOwn map fst In]; [tauto|].
  destruct (eqs k key) eqn:E.
  - apply eqs_eq in E. split; [discriminate | intros H; exfalso; apply H; auto].
  - rewrite IH. split; [|tauto]. intros H [Hk | Hin]; [|tauto].
    apply eqs_eq in Hk. congruence.
Qed.

Lemma getOwn_In (key : jsstring) (n : Z) (o : object) :
  NoDup (map fst o) -> (In (key, n) o <-> getOwn key o = Some n).
Proof.
  induction o as [|[k x] o IH]; cbn [getOwn map fst In]; intros Hnd.
  - split; [contradiction | discriminate].
  - inversion Hnd as [|? ? Hk Hnd']; subst. destruct (eqs k key) eqn:E.
    + apply eqs_eq in E. subst k. split.
      * intros [H | H]; [congruence|]. exfalso. apply Hk.
        apply (in_map fst) in H. exact H.
      * intros H. left. congruence.
    + rewrite <- (IH Hnd'). split; [|tauto]. intros [H | H]; [|exact H].
      injection H as -> _. rewrite eqs_refl in E. discriminate.
Qed.

Lemma keys_setOwn (key : jsstring) (v : Z) (o : object) :
  map fst (setOwn key v o) =
  match getOwn key o with
  | Some _ => map fst o
  | None => map fst o ++ [key]
  end.
Proof.
  induction o as [|[k x] o IH]; cbn [setOwn getOwn map fst app]; [reflexivity|].
  destruct (eqs k key); cbn [map fst]; [reflexivity|].
  rewrite IH. destruct (getOwn key o); reflexivity.
Qed.

Lemma total_setOwn (key : jsstring) (v : Z) (o : object) :
  total (map snd (setOwn key v o)) =
  (total (map snd o) - match getOwn key o with Some n => n | None => 0 end + v)%Z.
Proof.
  unfold total. induction o as [|[k x] o IH]; cbn [setOwn getOwn map snd fold_right].
  - lia.
  - destruct (eqs k key); cbn [map snd fold_right]; lia.
Qed.





Lemma sort_any_perm (A : Type) (cmp : A -> A -> Q) (l : list A) :
  Permutation (sort cmp l) l.
Proof.
  assert (Hi : forall x l, Permutation (insert cmp x l) (x :: l)).
  { intros x. induction l0 as [|y l0 IH]; simpl; [reflexivity|].
    destruct (positive (cmp x y)); [|reflexivity].
    rewrite IH. apply perm_swap. }
  induction l as [|x l IH]; simpl; [reflexivity|].
  rewrite Hi. constructor. exact IH.
Qed.

Lemma filter_partition_perm (A : Type) (p : A -> bool) (l : list A) :
  Permutation (filter p l ++ filter (fun x => negb (p x)) l) l.
Proof.
  induction l as [|x l IH]; cbn [filter app]; [reflexivity|].
  destruct (p x); cbn [negb app].
  - constructor. exact IH.
  - apply Permutation_sym, Permutation_cons_app, Permutation_sym, IH.
Qed.

Lemma entries_perm (o : object) : Permutation (entries o) o.
Proof.
  unfold entries. rewrite sort_any_perm. apply filter_partition_perm.
Qed.

Lemma StronglySorted_firstn (A : Type) (R : A -> A -> Prop) (k : nat) (l : list A) :
  StronglySorted R l -> StronglySorted R (firstn k l).
Proof.
  intros H. rewrite <- (firstn_skipn k l) in H.
  induction (firstn k l) as [|a t IH]; [constructor|].
  simpl in H. inversion H as [|? ? Hl Ha]; subst. constructor; [apply IH; exact Hl|].
  apply Forall_app in Ha as [Ha _]. exact Ha.
Qed.

Lemma StronglySorted_impl (A : Type) (R R' : A -> A -> Prop) (l : list A) :
  (forall a b, R a b -> R' a b) -> StronglySorted R l -> StronglySorted R' l.
Proof.
  intros H. induction 1 as [|a l Hl IH Ha]; constructor; [exact IH|].
  eapply Forall_impl; [|exact Ha]. intros b. apply H.
Qed.

Lemma countLanguage_None (repos : list Repo) : fold_left countLanguage repos None = None.
Proof. induction repos as [|r repos IH]; [reflexivity | exact IH]. Qed.

(** What the counting keeps true: the keys are distinct, the value of a
    language is the number of repositories written in it so far, and the
    values add up to the number of repositories that name a language. *)
Lemma countLanguage_inv (rest : list Repo) :
  forall (done : list Repo) (o o' : object),
    NoDup (map fst o) ->
    (forall l, getOwn l o =
               match l with
               | [] => None
               | _ => if (reposIn l done =? 0)%nat then None
                      else Some (Z.of_nat (reposIn l done))
               end) ->
    total (map snd o) = Z.of_nat (withLanguage done) ->
    fold_left countLanguage rest (Some o) = Some o' ->
    NoDup (map fst o') /\
    (forall l, getOwn l o' =
               match l with
               | [] => None
               | _ => if (reposIn l (done ++ rest) =? 0)%nat then None
                      else Some (Z.of_nat (reposIn l (done ++ rest)))
               end) /\
    total (map snd o') = Z.of_nat (withLanguage (done ++ rest)).
Proof.
  induction rest as [|r rest IH]; intros done o o' Hnd Hget Hsum H.
  - cbn [fold_left] in H. injection H as <-. rewrite app_nil_r. auto.
  - cbn [fold_left] in H.
    replace (done ++ r :: rest) with ((done ++ [r]) ++ rest)
      by (rewrite <- app_assoc; reflexivity).
    assert (Hin : forall l, reposIn l (done ++ [r]) =
                            (reposIn l done + if writtenIn l r then 1 else 0)%nat).
    { intros l. unfold reposIn. rewrite filter_app, length_app. cbn [filter].
      destruct (writtenIn l r); reflexivity. }
    assert (Hwith : withLanguage (done ++ [r]) =
                    (withLanguage done + if Parser.truthy (language r) then 1 else 0)%nat).
    { unfold withLanguage. rewrite filter_app, length_app. cbn [filter].
      destruct (Parser.truthy (language r)); reflexivity. }
    unfold countLanguage at 2 in H.
    destruct (Parser.truthy (language r)) eqn:T.
    + destruct (language r) as [l0|] eqn:L; [|discriminate].
      destruct l0 as [|c0 l0]; [discriminate|].
      destruct (has (c0 :: l0) OBJECT_PROTOTYPE_KEYS);
        [rewrite countLanguage_None in H; discriminate|].
      assert (Hold : match getOwn (c0 :: l0) o with Some n => n | None => 0%Z end =
                     Z.of_nat (reposIn (c0 :: l0) done)).
      { rewrite Hget.
        destruct (Nat.eqb_spec (reposIn (c0 :: l0) done) 0) as [E | E]; [rewrite E|];
          reflexivity. }
      refine (IH (done ++ [r]) _ o' _ _ _ H).
      * rewrite keys_setOwn. destruct (getOwn (c0 :: l0) o) eqn:G; [exact Hnd|].
        apply getOwn_None in G. apply NoDup_app; [exact Hnd | | ].
        -- constructor; [intros [] | constructor].
        -- intros x Hx [<- | []]. contradiction.
      * intros l. destruct (list_eq_dec N.eq_dec l (c0 :: l0)) as [-> | Hne].
        -- rewrite getOwn_setOwn_same, Hold, Hin. unfold writtenIn. rewrite L, eqs_refl.
           destruct (Nat.eqb_spec (reposIn (c0 :: l0) done + 1) 0) as [E | E]; [lia|].
           f_equal. lia.
        -- rewrite getOwn_setOwn_other by exact Hne. rewrite Hget, Hin.
           unfold writtenIn. rewrite L, eqs_neq by congruence.
           rewrite Nat.add_0_r. reflexivity.
      * rewrite total_setOwn, Hold, Hsum, Hwith. lia.
    + refine (IH (done ++ [r]) _ o' Hnd _ _ H).
      * intros l. rewrite Hget, Hin. destruct l as [|c l]; [reflexivity|].
        assert (W : writtenIn (c :: l) r = false).
        { unfold writtenIn. destruct (language r) as [[|c0 l0]|]; try reflexivity.
          discriminate. }
        rewrite W, Nat.add_0_r. reflexivity.
      * rewrite Hsum, Hwith. lia.
Qed.

Lemma languageCounts_inv (repos : list Repo) (o : object) :
  languageCounts repos = Some o ->
  NoDup (map fst o) /\
  (forall l n, In (l, n) o <->
               l <> [] /\ (0 < reposIn l repos)%nat /\ n = Z.of_nat (reposIn l repos)) /\
  total (map snd o) = Z.of_nat (withLanguage repos).
Proof.
  intros H. unfold languageCounts in H.
  apply (@countLanguage_inv repos [] [] o) in H.
  - cbn [app] in H. destruct H as (Hnd & Hget & Hsum).
    split; [exact Hnd|]. split; [|exact Hsum].
    intros l n. rewrite (@getOwn_In l n o Hnd), Hget.
    destruct l as [|c l].
    + split; [discriminate | intros [H _]; contradiction].
    + destruct (Nat.eqb_spec (reposIn (c :: l) repos) 0) as [E | E].
      * split; [discriminate | intros (_ & H & _); lia].
      * split.
        -- intros H. injection H as <-. repeat split; [discriminate | lia].
        -- intros (_ & _ & ->). reflexivity.
  - constructor.
  - intros [|c l]; reflexivity.
  - reflexivity.
Qed.

(** The ranking of the languages: a rearrangement of the counted entries,
    in descending order of count. *)
Lemma ranked_languages (o : object) :
  let ranked :=
    sort byCountDesc
      (map (fun e => {| TopLanguage.language := fst e; TopLanguage.count := snd e |})
         (entries o)) in
  Permutation (map (fun e => (TopLanguage.language e, TopLanguage.count e)) ranked) o /\
  StronglySorted (fun a b => (TopLanguage.count b <= TopLanguage.count a)%Z) ranked.
Proof.
  intros ranked. split.
  - unfold ranked. rewrite sort_any_perm, map_map. cbn [TopLanguage.language TopLanguage.count].
    rewrite (map_ext _ (fun e => e)) by (intros [k x]; reflexivity).
    rewrite map_id. apply entries_perm.
  - pose proof (sort_sorted (fun e => inject_Z (TopLanguage.count e))
                  (map (fun e => {| TopLanguage.language := fst e;
                                    TopLanguage.count := snd e |}) (entries o))) as Hs.
    fold byCountDesc in Hs. fold ranked in Hs.
    eapply StronglySorted_impl; [|exact Hs].
    intros a b Hb. cbv beta in Hb. rewrite Zle_Qle. exact Hb.
Qed.

(** X19: at most 10 languages are listed, each once, in descending order of
    count; the count of a language is the number of repositories written in
    it, and a language left out has no higher count than a listed one. *)
Theorem topLanguages_counts (repos : list Repo) (top : list TopLanguage.t) :
  topLanguages repos = Some top ->
  (length top <= 10)%nat /\
  NoDup (map TopLanguage.language top) /\
  StronglySorted (fun a b => (TopLanguage.count b <= TopLanguage.count a)%Z) top /\
  (forall e, In e top ->
     TopLanguage.language e <> [] /\ (1 <= TopLanguage.count e)%Z /\
     TopLanguage.count e = Z.of_nat (reposIn (TopLanguage.language e) repos)) /\
  (forall l, l <> [] -> (0 < reposIn l repos)%nat ->
     In l (map TopLanguage.language top) \/
     (length top = 10%nat /\
      forall e, In e top -> (Z.of_nat (reposIn l repos) <= TopLanguage.count e)%Z)).
Proof.
  unfold topLanguages. destruct (languageCounts repos) as [o|] eqn:E; [|discriminate].
  destruct (@languageCounts_inv _ _ E) as (Hnd & Hin & _).
  destruct (ranked_languages o) as [Hp Hs]. cbv zeta in Hp, Hs.
  set (ranked := sort byCountDesc _) in *.
  intros H. assert (Ht : top = firstn 10 ranked) by congruence. clear H. subst top.
  assert (Hkeys : Permutation (map TopLanguage.language ranked) (map fst o)).
  { rewrite <- Hp, map_map. reflexivity. }
  assert (Hentry : forall e, In e ranked -> In (TopLanguage.language e, TopLanguage.count e) o).
  { intros e He. apply (Permutation_in _ Hp).
    apply (in_map (fun e => (TopLanguage.language e, TopLanguage.count e))) in He.
    exact He. }
  split; [rewrite length_firstn; lia|]. split; [|split; [|split]].
  - rewrite <- firstn_map. apply firstn_NoDup.
    apply (Permutation_NoDup (Permutation_sym Hkeys)). exact Hnd.
  - apply StronglySorted_firstn. exact Hs.
  - intros e He. apply firstn_In in He. apply Hentry, Hin in He as (Hne & Hpos & Hn).
    split; [exact Hne|]. split; [lia | exact Hn].
  - intros l Hne Hpos.
    assert (Hl : In (l, Z.of_nat (reposIn l repos)) o) by (apply Hin; auto).
    apply (Permutation_in _ (Permutation_sym Hp)) in Hl.
    apply in_map_iff in Hl as (e & He & Hl). injection He as Hlang Hcount.
    rewrite <- (firstn_skipn 10 ranked) in Hl, Hs.
    apply in_app_or in Hl as [Hl | Hl].
    + left. rewrite <- Hlang. apply in_map. exact Hl.
    + right. split.
      * rewrite length_firstn. apply Nat.min_l.
        destruct (Nat.le_gt_cases 10 (length ranked)) as [Hle | Hgt]; [exact Hle|].
        rewrite skipn_all2 in Hl by lia. contradiction.
      * intros e' He'. rewrite <- Hcount.
        apply (StronglySorted_app_inv _ _ Hs e' e He' Hl).
Qed.

Lemma topLanguages_counts_witness :
  exists top,
    topLanguages
      [Build_Repo [] [] None 0 0 0 (Some (str "Go")) None None [];
       Build_Repo [] [] None 0 0 0 None None None [];
       Build_Repo [] [] None 0 0 0 (Some (str "C")) None None [];
       Build_Repo [] [] None 0 0 0 (Some (str "C")) None None []] = Some top /\
    map TopLanguage.language top = [str "C"; str "Go"] /\
    (length top <= 10)%nat.
Proof.
  eexists. split; [vm_compute; reflexivity|]. split; [reflexivity|].
  eapply (@topLanguages_counts
            [Build_Repo [] [] None 0 0 0 (Some (str "Go")) None None [];
             Build_Repo [] [] None 0 0 0 None None None [];
             Build_Repo [] [] None 0 0 0 (Some (str "C")) None None [];
             Build_Repo [] [] None 0 0 0 (Some (str "C")) None None []]).
  vm_compute. reflexivity.
Defined.



End GithubRouteFacts.
